(** * playkit: the frame loop of playkit.py, embedded and verified

    The development follows [playkit.py] top to bottom: the pygame values the
    module relies on ([Rect], [Vector2]), the sprite objects and the module
    globals, the public API, and the body of [start]'s main loop split into
    its passes (events, held keys, update hooks, physics, overlap, drawing).

    Conventions of the embedding.
    - Python objects with identity (the sprites) live in a store [heap];
      a reference is an index into it.  Every list, dict key and closure
      that holds a sprite holds its reference, so aliasing is kept.
    - Python floats are read as rationals ([Q]), every double being one.
      Products and single sums are taken exactly.  Where a float is
      accumulated frame after frame and compared with a threshold (the age
      of a sprite against its lifetime, the timer of the example against
      its period), the rounding of each addition decides the frame in
      which the threshold is crossed: that addition is the machine's,
      binary64 with round-to-nearest-even ([fadd]).
    - A [pygame.Rect] holds integers of unbounded size ([Z]); assigning a
      real number to one of its attributes truncates it toward zero.
    - User callbacks are names [Cb] interpreted by [call0], [call1] and
      [call2] as total transformers of the module state; a callback that
      raises is outside the model.
    - Loops over a list that a callback may extend while it is iterated are
      index based, as the Python list iterator is, and take fuel. *)

From Stdlib Require Import ZArith QArith Qround Qabs Lia Lqa List String Bool.
From Stdlib Require Import DecimalString.
From Corelib Require PrimFloat SpecFloat FloatOps.
From stdpp Require Import base list.
Import ListNotations.
Open Scope Z_scope.

(** ** Numbers *)

(** Conversion of a Python number to a C [int], as done when a [Rect]
    attribute is assigned: the fractional part is dropped. *)
Definition Qtrunc (q : Q) : Z := Z.quot (Qnum q) (Z.pos (Qden q)).

Definition Qmax (a b : Q) : Q := if Qlt_le_dec a b then b else a.
Definition Qmin (a b : Q) : Q := if Qlt_le_dec b a then b else a.
Definition Qleb (a b : Q) : bool := if Qlt_le_dec b a then false else true.
Definition Qltb (a b : Q) : bool := if Qlt_le_dec a b then true else false.

(** *** Binary64 addition

    A double is a rational; [Q_of_float] reads it back ([None] for an
    infinity or a NaN).  [float_of_Q] is the double Python computes for
    [num / den], two integers converted and divided; it is exact on a
    rational that is a double of ordinary size.  [fadd] is [a + b] as the
    machine computes it. *)
Definition float_of_Z (z : Z) : PrimFloat.float :=
  FloatOps.SF2Prim
    (SpecFloat.binary_normalize FloatOps.prec FloatOps.emax z 0 false).

Definition float_of_Q (q : Q) : PrimFloat.float :=
  PrimFloat.div (float_of_Z (Qnum q)) (float_of_Z (Z.pos (Qden q))).

Definition Q_of_float (f : PrimFloat.float) : option Q :=
  match FloatOps.Prim2SF f with
  | SpecFloat.S754_zero _ => Some 0%Q
  | SpecFloat.S754_finite sign m e =>
      let n := if sign then Z.neg m else Z.pos m in
      Some (if 0 <=? e then inject_Z (n * 2 ^ e)
            else n # Pos.shiftl 1 (Z.to_N (- e)))
  | _ => None
  end.

(** [a + b] on floats.  A sum that leaves the range of the doubles has
    no rational value; the exact sum then stands for it, which compares
    with a finite threshold as the infinity does. *)
Definition fadd (a b : Q) : Q :=
  default (a + b)%Q
    (Q_of_float (PrimFloat.add (float_of_Q a) (float_of_Q b))).
Arguments fadd : simpl never.

(** ** pygame.Rect *)

Module Rect.
Record t := mk { x : Z; y : Z; width : Z; height : Z }.

Definition left (r : t) : Z := x r.
Definition top (r : t) : Z := y r.
Definition right (r : t) : Z := x r + width r.
Definition bottom (r : t) : Z := y r + height r.
Definition centerx (r : t) : Z := x r + Z.shiftr (width r) 1.
Definition centery (r : t) : Z := y r + Z.shiftr (height r) 1.
Definition center (r : t) : Z * Z := (centerx r, centery r).

(** [r.x = v] and [r.y = v] for a Python number [v]. *)
Definition set_x (v : Q) (r : t) : t :=
  {| x := Qtrunc v; y := y r; width := width r; height := height r |}.
Definition set_y (v : Q) (r : t) : t :=
  {| x := x r; y := Qtrunc v; width := width r; height := height r |}.

(** [r.x += d] and [r.y += d]: read the integer, add, assign. *)
Definition iadd_x (d : Q) (r : t) : t := set_x (inject_Z (x r) + d)%Q r.
Definition iadd_y (d : Q) (r : t) : t := set_y (inject_Z (y r) + d)%Q r.

(** [r.bottom = v] for an integer [v]. *)
Definition set_bottom (v : Z) (r : t) : t :=
  {| x := x r; y := v - height r; width := width r; height := height r |}.

(** [a.colliderect(b)]: a rectangle of zero width or height collides with
    nothing; otherwise the open intervals must meet on both axes (sizes
    may be negative, hence the [min]/[max]). *)
Definition colliderect (a b : t) : bool :=
  if (width a =? 0) || (height a =? 0) || (width b =? 0) || (height b =? 0)
  then false
  else (Z.min (x a) (x a + width a) <? Z.max (x b) (x b + width b))
    && (Z.min (y a) (y a + height a) <? Z.max (y b) (y b + height b))
    && (Z.max (x a) (x a + width a) >? Z.min (x b) (x b + width b))
    && (Z.max (y a) (y a + height a) >? Z.min (y b) (y b + height b)).

(** [r.collidepoint(pos)]. *)
Definition collidepoint (r : t) (pos : Z * Z) : bool :=
  (x r <=? fst pos) && (fst pos <? x r + width r)
  && (y r <=? snd pos) && (snd pos <? y r + height r).
End Rect.

(** ** pygame.Vector2 *)

Module Vector2.
Record t := mk { x : Q; y : Q }.

Definition of_ints (p : Z * Z) : t := mk (inject_Z (fst p)) (inject_Z (snd p)).
Definition sub (a b : t) : t := mk (x a - x b)%Q (y a - y b)%Q.
Definition scale (a : t) (k : Q) : t := mk (x a * k)%Q (y a * k)%Q.

Section WithSqrt.
  (** The square root of the math library. *)
Variable sqrt : Q -> Q.
Definition length (a : t) : Q := sqrt (x a * x a + y a * y a)%Q.
Definition normalize (a : t) : t :=
    mk (x a / length a)%Q (y a / length a)%Q.
End WithSqrt.
End Vector2.

(** ** Sprites *)

(** A reference to a sprite object: its index in the store. *)
Abbreviation ref := nat.
Definition Color := (Z * Z * Z)%type.

(** An image handle of the graphics backend. *)
Record Surface := { surf_data : nat; surf_size : Z * Z }.

(** [GameSprite]; [gravity], [on_ground] and [control_speed] are the
    attributes that [enable_gravity] and [control_arrows] attach to an
    instance, [None] while the attribute does not exist. *)
Record GameSprite := {
  image : option Surface;
  rect : Rect.t;
  color : Color;
  speed : Vector2.t;
  lifetime : option Q;
  _age : Q;
  _follow : option (ref * Q);
  bounce : bool;
  alive : bool;
  gravity : option Q;
  on_ground : option bool;
  control_speed : option Q
}.

Definition GameSprite_init (image : option Surface) (rect : Rect.t)
    (color : Color) (speed : Q * Q) (lifetime : option Q) : GameSprite :=
  {| image := image; rect := rect; color := color;
     speed := Vector2.mk (fst speed) (snd speed);
     lifetime := lifetime; _age := 0; _follow := None;
     bounce := false; alive := true;
     gravity := None; on_ground := None; control_speed := None |}.

Definition with_rect (r : Rect.t) (s : GameSprite) : GameSprite :=
  {| image := image s; rect := r; color := color s; speed := speed s;
     lifetime := lifetime s; _age := _age s; _follow := _follow s;
     bounce := bounce s; alive := alive s; gravity := gravity s;
     on_ground := on_ground s; control_speed := control_speed s |}.

Definition with_speed (v : Vector2.t) (s : GameSprite) : GameSprite :=
  {| image := image s; rect := rect s; color := color s; speed := v;
     lifetime := lifetime s; _age := _age s; _follow := _follow s;
     bounce := bounce s; alive := alive s; gravity := gravity s;
     on_ground := on_ground s; control_speed := control_speed s |}.

Definition with_age (a : Q) (s : GameSprite) : GameSprite :=
  {| image := image s; rect := rect s; color := color s; speed := speed s;
     lifetime := lifetime s; _age := a; _follow := _follow s;
     bounce := bounce s; alive := alive s; gravity := gravity s;
     on_ground := on_ground s; control_speed := control_speed s |}.

Definition with_on_ground (b : bool) (s : GameSprite) : GameSprite :=
  {| image := image s; rect := rect s; color := color s; speed := speed s;
     lifetime := lifetime s; _age := _age s; _follow := _follow s;
     bounce := bounce s; alive := alive s; gravity := gravity s;
     on_ground := Some b; control_speed := control_speed s |}.



Definition follow (target : ref) (spd : Q) (s : GameSprite) : GameSprite :=
  {| image := image s; rect := rect s; color := color s; speed := speed s;
     lifetime := lifetime s; _age := _age s; _follow := Some (target, spd);
     bounce := bounce s; alive := alive s; gravity := gravity s;
     on_ground := on_ground s; control_speed := control_speed s |}.

Definition set_bounce (enable : bool) (s : GameSprite) : GameSprite :=
  {| image := image s; rect := rect s; color := color s; speed := speed s;
     lifetime := lifetime s; _age := _age s; _follow := _follow s;
     bounce := enable; alive := alive s; gravity := gravity s;
     on_ground := on_ground s; control_speed := control_speed s |}.

Definition destroy (s : GameSprite) : GameSprite :=
  {| image := image s; rect := rect s; color := color s; speed := speed s;
     lifetime := lifetime s; _age := _age s; _follow := _follow s;
     bounce := bounce s; alive := false; gravity := gravity s;
     on_ground := on_ground s; control_speed := control_speed s |}.

(** The two assignments of [enable_gravity]. *)
Definition set_gravity (gr : Q) (s : GameSprite) : GameSprite :=
  {| image := image s; rect := rect s; color := color s; speed := speed s;
     lifetime := lifetime s; _age := _age s; _follow := _follow s;
     bounce := bounce s; alive := alive s; gravity := Some gr;
     on_ground := Some false; control_speed := control_speed s |}.

Definition set_control_speed (v : Q) (s : GameSprite) : GameSprite :=
  {| image := image s; rect := rect s; color := color s; speed := speed s;
     lifetime := lifetime s; _age := _age s; _follow := _follow s;
     bounce := bounce s; alive := alive s; gravity := gravity s;
     on_ground := on_ground s; control_speed := Some v |}.


(** ** Input events, screen output and the trace of a run *)

(** What [pygame.event.get()] yields, as far as [start] looks at it. *)
Inductive PgEvent :=
| QUIT
| KEYDOWN (key : Z)
| MOUSEBUTTONDOWN (pos : Z * Z)
| OTHER.

Definition K_SPACE : Z := 32.
Definition K_RIGHT : Z := 1073741903.
Definition K_LEFT : Z := 1073741904.
Definition K_DOWN : Z := 1073741905.
Definition K_UP : Z := 1073741906.

(** Calls made on the graphics backend. *)
Inductive DrawOp :=
| Fill (c : Color)
| Blit (s : Surface) (at_ : Z * Z)
| DrawRect (c : Color) (r : Rect.t)
| DrawCircle (c : Color) (center : Z * Z) (radius : Z)
| BlitText (text : string) (size : Z) (c : Color) (at_ : Z * Z)
| Flip.

Inductive BackgroundMode := stretch | tile.

(** The two messages the module prints. *)
Inductive Notice :=
| SpriteImageMissing (image_path : string)
| BackgroundImageMissing (image_path : string).

Inductive PyError :=
| RuntimeError_dict_changed_size
| ValueError_range_step_zero.

(** Result of running a piece of the loop: a value, a Python exception
    raised by the module itself, or fuel exhausted. *)
Inductive outcome (A : Type) :=
| Ret (a : A)
| Raise (e : PyError)
| Timeout.
Arguments Ret {A} a.
Arguments Raise {A} e.
Arguments Timeout {A}.

Definition bind {A B} (m : outcome A) (k : A -> outcome B) : outcome B :=
  match m with
  | Ret a => k a
  | Raise e => Raise e
  | Timeout => Timeout
  end.

Section Playkit.

(** User code: callback names, the user's own variables, and what a call
    of a callback does to the module state. *)
Context {Cb U : Type}.

(** The handler [control_arrows] registers is a closure of the module. *)
Inductive UpdateFn :=
| UserFn (fn : Cb)
| ArrowHandler (sprite : ref) (bounds : option (Q * Q * Q * Q)).

(** One entry per thing the loop does; sprite draws name the sprite. *)
Inductive Event :=
| EvStart (fn : Cb)
| EvClick (spr : ref) (fn : Cb)
| EvKey (code : Z) (fn : Cb)
| EvGameUpdate (fn : UpdateFn) (dt : Q)
| EvReap (spr : ref)
| EvPhysics (spr : ref)
| EvOverlap (i : nat) (a b : ref) (fn : Cb)
| EvUpdate (fn : Cb)
| EvDrawSprite (spr : ref) (op : DrawOp)
| EvDraw (op : DrawOp).

(** The module globals, the object store, the input backend's key state,
    the console and the user's variables. *)
Record Game := {
  heap : list GameSprite;
  _game_start_handlers : list Cb;
  _game_over_flag : bool;
  _game_over_msg : string;
  _overlap_handlers : list (ref * ref * Cb);
  _platforms : list ref;
  _screen : option (Z * Z);
  _sprites : list ref;
  _key_handlers : list (Z * list Cb);
  _click_handlers : list (ref * list Cb);
  _update_handlers : list Cb;
  _game_update_handlers : list UpdateFn;
  _draw_commands : list (Z * Z * Z);
  _text_commands : list (string * Z * Z * Z);
  _image_cache : list (string * Z * Z * Surface);
  _background_path : option string;
  _background_color : Color;
  _background_mode : BackgroundMode;
  _background_surface : option Surface;
  pressed : Z -> bool;
  console : list Notice;
  user : U
}.

(** The module as imported, before any call. *)
Definition initial (u : U) : Game :=
  {| heap := []; _game_start_handlers := []; _game_over_flag := false;
     _game_over_msg := EmptyString; _overlap_handlers := [];
     _platforms := []; _screen := None; _sprites := [];
     _key_handlers := []; _click_handlers := []; _update_handlers := [];
     _game_update_handlers := []; _draw_commands := [];
     _text_commands := []; _image_cache := [];
     _background_path := None; _background_color := (0, 0, 0);
     _background_mode := stretch; _background_surface := None;
     pressed := fun _ => false; console := []; user := u |}.

Definition set_heap (hp : list GameSprite) (g : Game) : Game :=
  {| heap := hp; _game_start_handlers := _game_start_handlers g;
     _game_over_flag := _game_over_flag g; _game_over_msg := _game_over_msg g;
     _overlap_handlers := _overlap_handlers g; _platforms := _platforms g;
     _screen := _screen g; _sprites := _sprites g;
     _key_handlers := _key_handlers g; _click_handlers := _click_handlers g;
     _update_handlers := _update_handlers g;
     _game_update_handlers := _game_update_handlers g;
     _draw_commands := _draw_commands g; _text_commands := _text_commands g;
     _image_cache := _image_cache g; _background_path := _background_path g;
     _background_color := _background_color g;
     _background_mode := _background_mode g;
     _background_surface := _background_surface g;
     pressed := pressed g; console := console g; user := user g |}.

Definition set_sprites (l : list ref) (g : Game) : Game :=
  {| heap := heap g; _game_start_handlers := _game_start_handlers g;
     _game_over_flag := _game_over_flag g; _game_over_msg := _game_over_msg g;
     _overlap_handlers := _overlap_handlers g; _platforms := _platforms g;
     _screen := _screen g; _sprites := l;
     _key_handlers := _key_handlers g; _click_handlers := _click_handlers g;
     _update_handlers := _update_handlers g;
     _game_update_handlers := _game_update_handlers g;
     _draw_commands := _draw_commands g; _text_commands := _text_commands g;
     _image_cache := _image_cache g; _background_path := _background_path g;
     _background_color := _background_color g;
     _background_mode := _background_mode g;
     _background_surface := _background_surface g;
     pressed := pressed g; console := console g; user := user g |}.

Definition set_user (u : U) (g : Game) : Game :=
  {| heap := heap g; _game_start_handlers := _game_start_handlers g;
     _game_over_flag := _game_over_flag g; _game_over_msg := _game_over_msg g;
     _overlap_handlers := _overlap_handlers g; _platforms := _platforms g;
     _screen := _screen g; _sprites := _sprites g;
     _key_handlers := _key_handlers g; _click_handlers := _click_handlers g;
     _update_handlers := _update_handlers g;
     _game_update_handlers := _game_update_handlers g;
     _draw_commands := _draw_commands g; _text_commands := _text_commands g;
     _image_cache := _image_cache g; _background_path := _background_path g;
     _background_color := _background_color g;
     _background_mode := _background_mode g;
     _background_surface := _background_surface g;
     pressed := pressed g; console := console g; user := u |}.

Definition set_pressed (p : Z -> bool) (g : Game) : Game :=
  {| heap := heap g; _game_start_handlers := _game_start_handlers g;
     _game_over_flag := _game_over_flag g; _game_over_msg := _game_over_msg g;
     _overlap_handlers := _overlap_handlers g; _platforms := _platforms g;
     _screen := _screen g; _sprites := _sprites g;
     _key_handlers := _key_handlers g; _click_handlers := _click_handlers g;
     _update_handlers := _update_handlers g;
     _game_update_handlers := _game_update_handlers g;
     _draw_commands := _draw_commands g; _text_commands := _text_commands g;
     _image_cache := _image_cache g; _background_path := _background_path g;
     _background_color := _background_color g;
     _background_mode := _background_mode g;
     _background_surface := _background_surface g;
     pressed := p; console := console g; user := user g |}.

(** An attribute write on the object behind [spr]. *)
Definition modify (spr : ref) (f : GameSprite -> GameSprite) (g : Game) : Game :=
  set_heap (alter f spr (heap g)) g.

(** Assignments to the other globals. *)
Definition set_game_start_handlers (v : list Cb) (g : Game) : Game :=
  {| heap := heap g; _game_start_handlers := v;
     _game_over_flag := _game_over_flag g;
     _game_over_msg := _game_over_msg g;
     _overlap_handlers := _overlap_handlers g; _platforms := _platforms g;
     _screen := _screen g; _sprites := _sprites g;
     _key_handlers := _key_handlers g; _click_handlers := _click_handlers g;
     _update_handlers := _update_handlers g;
     _game_update_handlers := _game_update_handlers g;
     _draw_commands := _draw_commands g; _text_commands := _text_commands g;
     _image_cache := _image_cache g; _background_path := _background_path g;
     _background_color := _background_color g;
     _background_mode := _background_mode g;
     _background_surface := _background_surface g; pressed := pressed g;
     console := console g; user := user g |}.

Definition set_game_over_flag (v : bool) (g : Game) : Game :=
  {| heap := heap g; _game_start_handlers := _game_start_handlers g;
     _game_over_flag := v; _game_over_msg := _game_over_msg g;
     _overlap_handlers := _overlap_handlers g; _platforms := _platforms g;
     _screen := _screen g; _sprites := _sprites g;
     _key_handlers := _key_handlers g; _click_handlers := _click_handlers g;
     _update_handlers := _update_handlers g;
     _game_update_handlers := _game_update_handlers g;
     _draw_commands := _draw_commands g; _text_commands := _text_commands g;
     _image_cache := _image_cache g; _background_path := _background_path g;
     _background_color := _background_color g;
     _background_mode := _background_mode g;
     _background_surface := _background_surface g; pressed := pressed g;
     console := console g; user := user g |}.

Definition set_game_over_msg (v : string) (g : Game) : Game :=
  {| heap := heap g; _game_start_handlers := _game_start_handlers g;
     _game_over_flag := _game_over_flag g; _game_over_msg := v;
     _overlap_handlers := _overlap_handlers g; _platforms := _platforms g;
     _screen := _screen g; _sprites := _sprites g;
     _key_handlers := _key_handlers g; _click_handlers := _click_handlers g;
     _update_handlers := _update_handlers g;
     _game_update_handlers := _game_update_handlers g;
     _draw_commands := _draw_commands g; _text_commands := _text_commands g;
     _image_cache := _image_cache g; _background_path := _background_path g;
     _background_color := _background_color g;
     _background_mode := _background_mode g;
     _background_surface := _background_surface g; pressed := pressed g;
     console := console g; user := user g |}.

Definition set_overlap_handlers (v : list (ref * ref * Cb)) (g : Game) : Game :=
  {| heap := heap g; _game_start_handlers := _game_start_handlers g;
     _game_over_flag := _game_over_flag g;
     _game_over_msg := _game_over_msg g; _overlap_handlers := v;
     _platforms := _platforms g; _screen := _screen g;
     _sprites := _sprites g; _key_handlers := _key_handlers g;
     _click_handlers := _click_handlers g;
     _update_handlers := _update_handlers g;
     _game_update_handlers := _game_update_handlers g;
     _draw_commands := _draw_commands g; _text_commands := _text_commands g;
     _image_cache := _image_cache g; _background_path := _background_path g;
     _background_color := _background_color g;
     _background_mode := _background_mode g;
     _background_surface := _background_surface g; pressed := pressed g;
     console := console g; user := user g |}.

Definition set_platforms (v : list ref) (g : Game) : Game :=
  {| heap := heap g; _game_start_handlers := _game_start_handlers g;
     _game_over_flag := _game_over_flag g;
     _game_over_msg := _game_over_msg g;
     _overlap_handlers := _overlap_handlers g; _platforms := v;
     _screen := _screen g; _sprites := _sprites g;
     _key_handlers := _key_handlers g; _click_handlers := _click_handlers g;
     _update_handlers := _update_handlers g;
     _game_update_handlers := _game_update_handlers g;
     _draw_commands := _draw_commands g; _text_commands := _text_commands g;
     _image_cache := _image_cache g; _background_path := _background_path g;
     _background_color := _background_color g;
     _background_mode := _background_mode g;
     _background_surface := _background_surface g; pressed := pressed g;
     console := console g; user := user g |}.

Definition set_screen (v : option (Z * Z)) (g : Game) : Game :=
  {| heap := heap g; _game_start_handlers := _game_start_handlers g;
     _game_over_flag := _game_over_flag g;
     _game_over_msg := _game_over_msg g;
     _overlap_handlers := _overlap_handlers g; _platforms := _platforms g;
     _screen := v; _sprites := _sprites g; _key_handlers := _key_handlers g;
     _click_handlers := _click_handlers g;
     _update_handlers := _update_handlers g;
     _game_update_handlers := _game_update_handlers g;
     _draw_commands := _draw_commands g; _text_commands := _text_commands g;
     _image_cache := _image_cache g; _background_path := _background_path g;
     _background_color := _background_color g;
     _background_mode := _background_mode g;
     _background_surface := _background_surface g; pressed := pressed g;
     console := console g; user := user g |}.

Definition set_key_handlers (v : list (Z * list Cb)) (g : Game) : Game :=
  {| heap := heap g; _game_start_handlers := _game_start_handlers g;
     _game_over_flag := _game_over_flag g;
     _game_over_msg := _game_over_msg g;
     _overlap_handlers := _overlap_handlers g; _platforms := _platforms g;
     _screen := _screen g; _sprites := _sprites g; _key_handlers := v;
     _click_handlers := _click_handlers g;
     _update_handlers := _update_handlers g;
     _game_update_handlers := _game_update_handlers g;
     _draw_commands := _draw_commands g; _text_commands := _text_commands g;
     _image_cache := _image_cache g; _background_path := _background_path g;
     _background_color := _background_color g;
     _background_mode := _background_mode g;
     _background_surface := _background_surface g; pressed := pressed g;
     console := console g; user := user g |}.

Definition set_click_handlers (v : list (ref * list Cb)) (g : Game) : Game :=
  {| heap := heap g; _game_start_handlers := _game_start_handlers g;
     _game_over_flag := _game_over_flag g;
     _game_over_msg := _game_over_msg g;
     _overlap_handlers := _overlap_handlers g; _platforms := _platforms g;
     _screen := _screen g; _sprites := _sprites g;
     _key_handlers := _key_handlers g; _click_handlers := v;
     _update_handlers := _update_handlers g;
     _game_update_handlers := _game_update_handlers g;
     _draw_commands := _draw_commands g; _text_commands := _text_commands g;
     _image_cache := _image_cache g; _background_path := _background_path g;
     _background_color := _background_color g;
     _background_mode := _background_mode g;
     _background_surface := _background_surface g; pressed := pressed g;
     console := console g; user := user g |}.

Definition set_update_handlers (v : list Cb) (g : Game) : Game :=
  {| heap := heap g; _game_start_handlers := _game_start_handlers g;
     _game_over_flag := _game_over_flag g;
     _game_over_msg := _game_over_msg g;
     _overlap_handlers := _overlap_handlers g; _platforms := _platforms g;
     _screen := _screen g; _sprites := _sprites g;
     _key_handlers := _key_handlers g; _click_handlers := _click_handlers g;
     _update_handlers := v; _game_update_handlers := _game_update_handlers g;
     _draw_commands := _draw_commands g; _text_commands := _text_commands g;
     _image_cache := _image_cache g; _background_path := _background_path g;
     _background_color := _background_color g;
     _background_mode := _background_mode g;
     _background_surface := _background_surface g; pressed := pressed g;
     console := console g; user := user g |}.

Definition set_game_update_handlers (v : list UpdateFn) (g : Game) : Game :=
  {| heap := heap g; _game_start_handlers := _game_start_handlers g;
     _game_over_flag := _game_over_flag g;
     _game_over_msg := _game_over_msg g;
     _overlap_handlers := _overlap_handlers g; _platforms := _platforms g;
     _screen := _screen g; _sprites := _sprites g;
     _key_handlers := _key_handlers g; _click_handlers := _click_handlers g;
     _update_handlers := _update_handlers g; _game_update_handlers := v;
     _draw_commands := _draw_commands g; _text_commands := _text_commands g;
     _image_cache := _image_cache g; _background_path := _background_path g;
     _background_color := _background_color g;
     _background_mode := _background_mode g;
     _background_surface := _background_surface g; pressed := pressed g;
     console := console g; user := user g |}.

Definition set_draw_commands (v : list (Z * Z * Z)) (g : Game) : Game :=
  {| heap := heap g; _game_start_handlers := _game_start_handlers g;
     _game_over_flag := _game_over_flag g;
     _game_over_msg := _game_over_msg g;
     _overlap_handlers := _overlap_handlers g; _platforms := _platforms g;
     _screen := _screen g; _sprites := _sprites g;
     _key_handlers := _key_handlers g; _click_handlers := _click_handlers g;
     _update_handlers := _update_handlers g;
     _game_update_handlers := _game_update_handlers g; _draw_commands := v;
     _text_commands := _text_commands g; _image_cache := _image_cache g;
     _background_path := _background_path g;
     _background_color := _background_color g;
     _background_mode := _background_mode g;
     _background_surface := _background_surface g; pressed := pressed g;
     console := console g; user := user g |}.

Definition set_text_commands (v : list (string * Z * Z * Z)) (g : Game) : Game :=
  {| heap := heap g; _game_start_handlers := _game_start_handlers g;
     _game_over_flag := _game_over_flag g;
     _game_over_msg := _game_over_msg g;
     _overlap_handlers := _overlap_handlers g; _platforms := _platforms g;
     _screen := _screen g; _sprites := _sprites g;
     _key_handlers := _key_handlers g; _click_handlers := _click_handlers g;
     _update_handlers := _update_handlers g;
     _game_update_handlers := _game_update_handlers g;
     _draw_commands := _draw_commands g; _text_commands := v;
     _image_cache := _image_cache g; _background_path := _background_path g;
     _background_color := _background_color g;
     _background_mode := _background_mode g;
     _background_surface := _background_surface g; pressed := pressed g;
     console := console g; user := user g |}.

Definition set_image_cache (v : list (string * Z * Z * Surface)) (g : Game) : Game :=
  {| heap := heap g; _game_start_handlers := _game_start_handlers g;
     _game_over_flag := _game_over_flag g;
     _game_over_msg := _game_over_msg g;
     _overlap_handlers := _overlap_handlers g; _platforms := _platforms g;
     _screen := _screen g; _sprites := _sprites g;
     _key_handlers := _key_handlers g; _click_handlers := _click_handlers g;
     _update_handlers := _update_handlers g;
     _game_update_handlers := _game_update_handlers g;
     _draw_commands := _draw_commands g; _text_commands := _text_commands g;
     _image_cache := v; _background_path := _background_path g;
     _background_color := _background_color g;
     _background_mode := _background_mode g;
     _background_surface := _background_surface g; pressed := pressed g;
     console := console g; user := user g |}.

Definition set_background_path (v : option string) (g : Game) : Game :=
  {| heap := heap g; _game_start_handlers := _game_start_handlers g;
     _game_over_flag := _game_over_flag g;
     _game_over_msg := _game_over_msg g;
     _overlap_handlers := _overlap_handlers g; _platforms := _platforms g;
     _screen := _screen g; _sprites := _sprites g;
     _key_handlers := _key_handlers g; _click_handlers := _click_handlers g;
     _update_handlers := _update_handlers g;
     _game_update_handlers := _game_update_handlers g;
     _draw_commands := _draw_commands g; _text_commands := _text_commands g;
     _image_cache := _image_cache g; _background_path := v;
     _background_color := _background_color g;
     _background_mode := _background_mode g;
     _background_surface := _background_surface g; pressed := pressed g;
     console := console g; user := user g |}.

Definition set_background_color (v : Color) (g : Game) : Game :=
  {| heap := heap g; _game_start_handlers := _game_start_handlers g;
     _game_over_flag := _game_over_flag g;
     _game_over_msg := _game_over_msg g;
     _overlap_handlers := _overlap_handlers g; _platforms := _platforms g;
     _screen := _screen g; _sprites := _sprites g;
     _key_handlers := _key_handlers g; _click_handlers := _click_handlers g;
     _update_handlers := _update_handlers g;
     _game_update_handlers := _game_update_handlers g;
     _draw_commands := _draw_commands g; _text_commands := _text_commands g;
     _image_cache := _image_cache g; _background_path := _background_path g;
     _background_color := v; _background_mode := _background_mode g;
     _background_surface := _background_surface g; pressed := pressed g;
     console := console g; user := user g |}.

Definition set_background_mode (v : BackgroundMode) (g : Game) : Game :=
  {| heap := heap g; _game_start_handlers := _game_start_handlers g;
     _game_over_flag := _game_over_flag g;
     _game_over_msg := _game_over_msg g;
     _overlap_handlers := _overlap_handlers g; _platforms := _platforms g;
     _screen := _screen g; _sprites := _sprites g;
     _key_handlers := _key_handlers g; _click_handlers := _click_handlers g;
     _update_handlers := _update_handlers g;
     _game_update_handlers := _game_update_handlers g;
     _draw_commands := _draw_commands g; _text_commands := _text_commands g;
     _image_cache := _image_cache g; _background_path := _background_path g;
     _background_color := _background_color g; _background_mode := v;
     _background_surface := _background_surface g; pressed := pressed g;
     console := console g; user := user g |}.

Definition set_background_surface (v : option Surface) (g : Game) : Game :=
  {| heap := heap g; _game_start_handlers := _game_start_handlers g;
     _game_over_flag := _game_over_flag g;
     _game_over_msg := _game_over_msg g;
     _overlap_handlers := _overlap_handlers g; _platforms := _platforms g;
     _screen := _screen g; _sprites := _sprites g;
     _key_handlers := _key_handlers g; _click_handlers := _click_handlers g;
     _update_handlers := _update_handlers g;
     _game_update_handlers := _game_update_handlers g;
     _draw_commands := _draw_commands g; _text_commands := _text_commands g;
     _image_cache := _image_cache g; _background_path := _background_path g;
     _background_color := _background_color g;
     _background_mode := _background_mode g; _background_surface := v;
     pressed := pressed g; console := console g; user := user g |}.

Definition set_console (v : list Notice) (g : Game) : Game :=
  {| heap := heap g; _game_start_handlers := _game_start_handlers g;
     _game_over_flag := _game_over_flag g;
     _game_over_msg := _game_over_msg g;
     _overlap_handlers := _overlap_handlers g; _platforms := _platforms g;
     _screen := _screen g; _sprites := _sprites g;
     _key_handlers := _key_handlers g; _click_handlers := _click_handlers g;
     _update_handlers := _update_handlers g;
     _game_update_handlers := _game_update_handlers g;
     _draw_commands := _draw_commands g; _text_commands := _text_commands g;
     _image_cache := _image_cache g; _background_path := _background_path g;
     _background_color := _background_color g;
     _background_mode := _background_mode g;
     _background_surface := _background_surface g; pressed := pressed g;
     console := v; user := user g |}.

(** ** Backends and user code *)

(** [pygame.image.load(path).convert...()]: [None] when it raises. *)
Variable image_load : string -> option Surface.
(** [pygame.transform.smoothscale(img, size)]: [None] when it raises. *)
Variable smoothscale : Surface -> Z * Z -> option Surface.
(** Square root used by [Vector2.length] and [Vector2.normalize]. *)
Variable sqrt : Q -> Q.
(** Width in pixels of a text rendered at the given font size. *)
Variable text_width : string -> Z -> Z.
(** [pygame.key.key_code]. *)
Variable key_code : string -> Z.
(** A callback called with no argument, with [dt], with two sprites. *)
Variable call0 : Cb -> Game -> Game.
Variable call1 : Cb -> Q -> Game -> Game.
Variable call2 : Cb -> ref -> ref -> Game -> Game.

(** ** Public API *)

Definition on_game_start (fn : Cb) (g : Game) : Game :=
  set_game_start_handlers (_game_start_handlers g ++ [fn]) g.

Definition game_over (message : string) (g : Game) : Game :=
  set_game_over_msg message (set_game_over_flag true g).

Definition when_overlap (a b : ref) (fn : Cb) (g : Game) : Game :=
  set_overlap_handlers (_overlap_handlers g ++ [(a, b, fn)]) g.

(** Truth value of an [image_path] argument: [None] and the empty string
    are false. *)
Definition truthy (p : option string) : option string :=
  match p with
  | Some EmptyString => None
  | other => other
  end.

Definition key_eqb (a b : string * Z * Z) : bool :=
  String.eqb (fst (fst a)) (fst (fst b))
  && (snd (fst a) =? snd (fst b)) && (snd a =? snd b).

(** [_image_cache.get(key)]. *)
Fixpoint cache_get (key : string * Z * Z)
    (c : list (string * Z * Z * Surface)) : option Surface :=
  match c with
  | [] => None
  | (k, img) :: rest => if key_eqb k key then Some img else cache_get key rest
  end.

(** [_image_cache[key] = image]. *)
Fixpoint cache_set (key : string * Z * Z) (img : Surface)
    (c : list (string * Z * Z * Surface)) : list (string * Z * Z * Surface) :=
  match c with
  | [] => [(key, img)]
  | (k, old) :: rest =>
      if key_eqb k key then (k, img) :: rest
      else (k, old) :: cache_set key img rest
  end.

(** The [try] block of [sprite]: the image to use, and the module state
    after the cache update or the printed notice. *)
Definition load_sprite_image (image_path : string) (width height : Z)
    (g : Game) : option Surface * Game :=
  match cache_get (image_path, width, height) (_image_cache g) with
  | Some img => (Some img, g)
  | None =>
      match image_load image_path with
      | None => (None, set_console (console g ++ [SpriteImageMissing image_path]) g)
      | Some raw =>
          match smoothscale raw (width, height) with
          | None =>
              (None, set_console (console g ++ [SpriteImageMissing image_path]) g)
          | Some img =>
              (Some img,
               set_image_cache
                 (cache_set (image_path, width, height) img (_image_cache g)) g)
          end
      end
  end.

Definition sprite (image_path : option string) (x y width height : Z)
    (color : Color) (speed : Q * Q) (lifetime : option Q) (g : Game)
    : ref * Game :=
  let '(image, g1) :=
    match truthy image_path with
    | Some p => load_sprite_image p width height g
    | None => (None, g)
    end in
  let rect := Rect.mk x y width height in
  let spr := GameSprite_init image rect color speed lifetime in
  let r := length (heap g1) in
  (r, set_sprites (_sprites g1 ++ [r]) (set_heap (heap g1 ++ [spr]) g1)).

Definition platform (x y width height : Z) (color : Color) (g : Game)
    : ref * Game :=
  let '(plat, g1) := sprite None x y width height color (0, 0)%Q None g in
  (plat, set_platforms (_platforms g1 ++ [plat]) g1).

Definition enable_gravity (sprite : ref) (gravity : Q) (g : Game) : Game :=
  modify sprite (set_gravity gravity) g.

Definition _prepare_background (width height : Z) (g : Game) : Game :=
  let g := set_background_surface None g in
  match truthy (_background_path g) with
  | None => g
  | Some p =>
      let failed :=
        set_background_surface None
          (set_console (console g ++ [BackgroundImageMissing p]) g) in
      match image_load p with
      | None => failed
      | Some img =>
          match _background_mode g with
          | stretch =>
              match smoothscale img (width, height) with
              | None => failed
              | Some s => set_background_surface (Some s) g
              end
          | tile => set_background_surface (Some img) g
          end
      end
  end.

Definition set_background (image_path : option string) (color : Color)
    (mode : BackgroundMode) (g : Game) : Game :=
  let g := set_background_mode mode
             (set_background_color color (set_background_path image_path g)) in
  match _screen g with
  | Some (w, h) => _prepare_background w h g
  | None => g
  end.

(** [d.setdefault(k, []).append(fn)] on an insertion-ordered dict. *)
Fixpoint setdefault_append {K : Type} (eqb : K -> K -> bool) (k : K) (fn : Cb)
    (d : list (K * list Cb)) : list (K * list Cb) :=
  match d with
  | [] => [(k, [fn])]
  | (k', fns) :: rest =>
      if eqb k' k then (k', fns ++ [fn]) :: rest
      else (k', fns) :: setdefault_append eqb k fn rest
  end.

Definition when_key (key_name : string) (fn : Cb) (g : Game) : Game :=
  let code := key_code key_name in
  set_key_handlers (setdefault_append Z.eqb code fn (_key_handlers g)) g.

Definition when_click (sprite_obj : ref) (fn : Cb) (g : Game) : Game :=
  set_click_handlers
    (setdefault_append Nat.eqb sprite_obj fn (_click_handlers g)) g.

Definition when_update (fn : Cb) (g : Game) : Game :=
  set_update_handlers (_update_handlers g ++ [fn]) g.

Definition on_game_update (fn : UpdateFn) (g : Game) : Game :=
  set_game_update_handlers (_game_update_handlers g ++ [fn]) g.

Definition draw_circle (x y radius : Z) (g : Game) : Game :=
  set_draw_commands (_draw_commands g ++ [(x, y, radius)]) g.

Definition write (text : string) (x y size : Z) (g : Game) : Game :=
  set_text_commands (_text_commands g ++ [(text, x, y, size)]) g.

Definition control_arrows (sprite : ref) (speed : Q)
    (bounds : option (Q * Q * Q * Q)) (g : Game) : Game :=
  on_game_update (ArrowHandler sprite bounds)
    (modify sprite (set_control_speed speed) g).

(** The closure [handler(dt)] of [control_arrows]. *)
Definition arrow_handler (sprite : ref) (bounds : option (Q * Q * Q * Q))
    (dt : Q) (g : Game) : Game :=
  match heap g !! sprite with
  | None => g
  | Some s =>
      let spd := default 0%Q (control_speed s) in
      let dx := 0%Q in
      let dy := 0%Q in
      let dx := if pressed g K_LEFT then (dx - spd * dt)%Q else dx in
      let dx := if pressed g K_RIGHT then (dx + spd * dt)%Q else dx in
      let dy := if pressed g K_UP then (dy - spd * dt)%Q else dy in
      let dy := if pressed g K_DOWN then (dy + spd * dt)%Q else dy in
      let r := Rect.iadd_y dy (Rect.iadd_x dx (rect s)) in
      let r :=
        match bounds with
        | None => r
        | Some (x0, y0, x1, y1) =>
            let r :=
              Rect.set_x
                (Qmax x0 (Qmin (inject_Z (Rect.x r))
                               (x1 - inject_Z (Rect.width r)))) r in
            Rect.set_y
              (Qmax y0 (Qmin (inject_Z (Rect.y r))
                             (y1 - inject_Z (Rect.height r)))) r
        end in
      modify sprite (with_rect r) g
  end.

Definition projectile_from (sprite_obj : ref) (vx vy : Q)
    (image_path : option string) (width height : Z) (color : Color)
    (lifetime : option Q) (g : Game) : ref * Game :=
  let r := match heap g !! sprite_obj with
           | Some s => rect s
           | None => Rect.mk 0 0 0 0
           end in
  let x := Rect.centerx r - width / 2 in
  let y := Rect.centery r - height / 2 in
  sprite image_path x y width height color (vx, vy) lifetime g.

(** Calling a registered [on_game_update] handler. *)
Definition call_update (fn : UpdateFn) (dt : Q) (g : Game) : Game :=
  match fn with
  | UserFn f => call1 f dt g
  | ArrowHandler spr bounds => arrow_handler spr bounds dt g
  end.

(** ** Iteration *)

(** A pass of the loop: the new module state and what was done. *)
Definition Pass := Game -> outcome (Game * list Event).

Definition andthen (p q : Pass) : Pass :=
  fun g =>
    bind (p g) (fun '(g1, t1) =>
    bind (q g1) (fun '(g2, t2) => Ret (g2, t1 ++ t2))).

(** Calling a callback is a pass that cannot fail. *)
Definition invoke (ev : Event) (f : Game -> Game) : Pass :=
  fun g => Ret (f g, [ev]).

Definition skip : Pass := fun g => Ret (g, []).

(** [for a in lst: body(a)] where [lst] is a module-level list that the
    body may change: the iterator holds an index and re-reads the list at
    every step. *)
Fixpoint for_live {A : Type} (lst : Game -> list A) (body : nat -> A -> Pass)
    (fuel i : nat) : Pass :=
  fun g =>
    match lst g !! i with
    | None => skip g
    | Some a =>
        match fuel with
        | O => Timeout
        | S fuel' => andthen (body i a) (for_live lst body fuel' (S i)) g
        end
    end.

(** [for k, v in d.items(): body(k, v)]: the iterator raises when the
    number of keys differs from what it was at the start, checked at
    every step and once more at the end; [n] entries remain to visit. *)
Fixpoint for_items {K V : Type} (d : Game -> list (K * V)) (size : nat)
    (body : nat -> K -> Pass) (n i : nat) : Pass :=
  fun g =>
    if negb (length (d g) =? size)%nat then Raise RuntimeError_dict_changed_size
    else
      match n with
      | O => skip g
      | S n' =>
          match d g !! i with
          | None => skip g
          | Some (k, _) =>
              andthen (body i k) (for_items d size body n' (S i)) g
          end
      end.

(** The list object stored under the [i]-th key. *)
Definition value_at {K : Type} (d : Game -> list (K * list Cb)) (i : nat)
    (g : Game) : list Cb :=
  match d g !! i with
  | Some (_, fns) => fns
  | None => []
  end.

(** ** The passes of the main loop *)

(** [for fn in _game_start_handlers: fn()]. *)
Definition run_start_handlers (fuel : nat) : Pass :=
  for_live _game_start_handlers (fun _ fn => invoke (EvStart fn) (call0 fn))
    fuel 0.

(** The body of the restart branch, up to its [break]. *)
Definition reset_state (g : Game) : Game :=
  set_game_over_flag false
    (set_text_commands [] (set_draw_commands [] (set_sprites [] g))).

Definition restart (fuel : nat) : Pass :=
  fun g => run_start_handlers fuel (reset_state g).

(** The [MOUSEBUTTONDOWN] branch. *)
Definition click_dispatch (fuel : nat) (pos : Z * Z) : Pass :=
  fun g =>
    for_items _click_handlers (length (_click_handlers g))
      (fun i spr g1 =>
         match heap g1 !! spr with
         | Some s =>
             if Rect.collidepoint (rect s) pos
             then for_live (value_at _click_handlers i)
                    (fun _ fn => invoke (EvClick spr fn) (call0 fn)) fuel 0 g1
             else skip g1
         | None => skip g1
         end)
      (length (_click_handlers g)) 0 g.

(** [for event in pygame.event.get(): ...]; the value carried along is
    [running]. *)
Fixpoint event_loop (fuel : nat) (events : list PgEvent) (running : bool)
    (g : Game) : outcome (bool * Game * list Event) :=
  match events with
  | [] => Ret (running, g, [])
  | QUIT :: rest => event_loop fuel rest false g
  | KEYDOWN key :: rest =>
      if _game_over_flag g && (key =? K_SPACE)
      then bind (restart fuel g) (fun '(g1, t1) => Ret (running, g1, t1))
      else event_loop fuel rest running g
  | MOUSEBUTTONDOWN pos :: rest =>
      if negb (_game_over_flag g)
      then bind (click_dispatch fuel pos g) (fun '(g1, t1) =>
           bind (event_loop fuel rest running g1) (fun '(r, g2, t2) =>
           Ret (r, g2, t1 ++ t2)))
      else event_loop fuel rest running g
  | OTHER :: rest => event_loop fuel rest running g
  end.

(** [range(0, stop, step)]. *)
Fixpoint range_from (n : nat) (start step : Z) : list Z :=
  match n with
  | O => []
  | S n' => start :: range_from n' (start + step) step
  end.

Definition range0 (stop step : Z) : outcome (list Z) :=
  if step =? 0 then Raise ValueError_range_step_zero
  else if (step <? 0) || (stop <=? 0) then Ret []
  else Ret (range_from (Z.to_nat ((stop + step - 1) / step)) 0 step).

(** The background, drawn the same way on the game-over screen and on a
    simulated frame. *)
Definition draw_background (width height : Z) (g : Game)
    : outcome (list DrawOp) :=
  match _background_surface g with
  | Some s =>
      match _background_mode g with
      | stretch => Ret [Blit s (0, 0)]
      | tile =>
          let '(iw, ih) := surf_size s in
          bind (range0 height ih) (fun ys =>
            fold_right
              (fun yy acc =>
                 bind (range0 width iw) (fun xs =>
                 bind acc (fun ops =>
                 Ret (map (fun xx => Blit s (xx, yy)) xs ++ ops))))
              (Ret []) ys)
      end
  | None => Ret [Fill (_background_color g)]
  end.

(** The [if _game_over_flag:] block, up to its [continue]. *)
Definition game_over_screen (width height : Z) : Pass :=
  fun g =>
    bind (draw_background width height g) (fun bg =>
    let w1 := text_width (_game_over_msg g) 64 in
    let w2 := text_width "Press SPACE to Restart" 32 in
    Ret (g, map EvDraw
              (bg ++ [BlitText (_game_over_msg g) 64 (255, 50, 50)
                        ((width - w1) / 2, height / 2 - 80);
                      BlitText "Press SPACE to Restart" 32 (200, 200, 200)
                        ((width - w2) / 2, height / 2 + 10);
                      Flip]))).

(** Continuous key handlers. *)
Definition key_dispatch (fuel : nat) : Pass :=
  fun g =>
    let pressed := pressed g in
    for_items _key_handlers (length (_key_handlers g))
      (fun i code g1 =>
         if pressed code
         then for_live (value_at _key_handlers i)
                (fun _ fn => invoke (EvKey code fn) (call0 fn)) fuel 0 g1
         else skip g1)
      (length (_key_handlers g)) 0 g.

(** [on_game_update] hooks. *)
Definition game_update_dispatch (fuel : nat) (dt : Q) : Pass :=
  for_live _game_update_handlers
    (fun _ fn => invoke (EvGameUpdate fn dt) (call_update fn dt)) fuel 0.

(** *** Physics: follow, gravity, movement, bounce, platforms, lifetime *)

Definition step_follow (dt : Q) (spr : ref) (g : Game) : Game :=
  match heap g !! spr with
  | None => g
  | Some s =>
      match _follow s with
      | None => g
      | Some (targ, spd) =>
          match heap g !! targ with
          | None => g
          | Some t =>
              let dirv :=
                Vector2.sub (Vector2.of_ints (Rect.center (rect t)))
                            (Vector2.of_ints (Rect.center (rect s))) in
              if Qltb 0 (Vector2.length sqrt dirv)
              then
                let vel :=
                  Vector2.scale
                    (Vector2.scale (Vector2.normalize sqrt dirv) spd) dt in
                modify spr
                  (fun s =>
                     with_rect
                       (Rect.iadd_y (Vector2.y vel)
                          (Rect.iadd_x (Vector2.x vel) (rect s))) s) g
              else g
          end
      end
  end.

Definition step_gravity (dt : Q) (s : GameSprite) : GameSprite :=
  match gravity s with
  | Some gr =>
      with_speed
        (Vector2.mk (Vector2.x (speed s)) (Vector2.y (speed s) + gr * dt)%Q) s
  | None => s
  end.

Definition step_move (dt : Q) (s : GameSprite) : GameSprite :=
  with_rect
    (Rect.iadd_y (Vector2.y (speed s) * dt)%Q
       (Rect.iadd_x (Vector2.x (speed s) * dt)%Q (rect s))) s.

Definition bounce_x (width : Z) (s : GameSprite) : GameSprite :=
  if (Rect.left (rect s) <? 0) || (Rect.right (rect s) >? width)
  then
    let s := with_speed (Vector2.mk (Vector2.x (speed s) * (-1))%Q
                                    (Vector2.y (speed s))) s in
    with_rect
      (Rect.set_x
         (inject_Z
            (Z.max 0 (Z.min (Rect.x (rect s)) (width - Rect.width (rect s)))))
         (rect s)) s
  else s.

Definition bounce_y (height : Z) (s : GameSprite) : GameSprite :=
  if (Rect.top (rect s) <? 0) || (Rect.bottom (rect s) >? height)
  then
    let s := with_speed (Vector2.mk (Vector2.x (speed s))
                                    (Vector2.y (speed s) * (-1))%Q) s in
    with_rect
      (Rect.set_y
         (inject_Z
            (Z.max 0 (Z.min (Rect.y (rect s)) (height - Rect.height (rect s)))))
         (rect s)) s
  else s.

Definition step_bounce (width height : Z) (s : GameSprite) : GameSprite :=
  if bounce s then bounce_y height (bounce_x width s) else s.

(** Does the rectangle [r] collide with the rectangle of [plat]? *)
Definition hits (hp : list GameSprite) (r : Rect.t) (plat : ref) : bool :=
  match hp !! plat with
  | Some p => Rect.colliderect r (rect p)
  | None => false
  end.

(** The three assignments made on the first platform hit. *)
Definition land (platform_top : Z) (s : GameSprite) : GameSprite :=
  with_on_ground true
    (with_speed (Vector2.mk (Vector2.x (speed s)) 0)
       (with_rect (Rect.set_bottom platform_top (rect s)) s)).

Definition step_platforms (spr : ref) (g : Game) : Game :=
  match heap g !! spr with
  | None => g
  | Some s =>
      match gravity s with
      | None => g
      | Some _ =>
          if Qleb 0 (Vector2.y (speed s))
          then
            let g1 := modify spr (with_on_ground false) g in
            match find (hits (heap g1) (rect s)) (_platforms g1) with
            | Some plat =>
                match heap g1 !! plat with
                | Some p => modify spr (land (Rect.top (rect p))) g1
                | None => g1
                end
            | None => g1
            end
          else g
      end
  end.

Definition step_lifetime (dt : Q) (s : GameSprite) : GameSprite :=
  match lifetime s with
  | None => s
  | Some l =>
      let s := with_age (fadd (_age s) dt) s in
      if Qleb l (_age s) then destroy s else s
  end.

(** The body of the physics loop for a live sprite. *)
Definition physics_sprite (dt : Q) (width height : Z) (spr : ref) (g : Game)
    : Game :=
  let g := step_follow dt spr g in
  let g := modify spr (step_gravity dt) g in
  let g := modify spr (step_move dt) g in
  let g := modify spr (step_bounce width height) g in
  let g := step_platforms spr g in
  modify spr (step_lifetime dt) g.

(** [lst.remove(x)]: the first occurrence goes. *)
Fixpoint list_remove (x : ref) (l : list ref) : list ref :=
  match l with
  | [] => []
  | y :: rest => if (y =? x)%nat then rest else y :: list_remove x rest
  end.

(** [for spr in list(_sprites): ...] over the copy [snapshot]; every
    object in [_sprites] is a [GameSprite]. *)
Fixpoint physics_loop (dt : Q) (width height : Z) (snapshot : list ref)
    (g : Game) : Game * list Event :=
  match snapshot with
  | [] => (g, [])
  | spr :: rest =>
      match heap g !! spr with
      | None => physics_loop dt width height rest g
      | Some s =>
          if negb (alive s)
          then
            let '(g', t) :=
              physics_loop dt width height rest
                (set_sprites (list_remove spr (_sprites g)) g) in
            (g', EvReap spr :: t)
          else
            let '(g', t) :=
              physics_loop dt width height rest
                (physics_sprite dt width height spr g) in
            (g', EvPhysics spr :: t)
      end
  end.

Definition physics (dt : Q) (width height : Z) : Pass :=
  fun g => Ret (physics_loop dt width height (_sprites g) g).

(** *** Overlap events *)

Definition overlapping (a b : ref) (g : Game) : bool :=
  match heap g !! a, heap g !! b with
  | Some sa, Some sb =>
      alive sa && alive sb && Rect.colliderect (rect sa) (rect sb)
  | _, _ => false
  end.

Definition overlap_body (i : nat) (h : ref * ref * Cb) : Pass :=
  let '(a, b, fn) := h in
  fun g =>
    if overlapping a b g
    then invoke (EvOverlap i a b fn) (call2 fn a b) g
    else skip g.

Definition overlap_dispatch (fuel : nat) : Pass :=
  for_live _overlap_handlers overlap_body fuel 0.

(** *** [when_update] hooks *)

Definition update_dispatch (fuel : nat) : Pass :=
  for_live _update_handlers (fun _ fn => invoke (EvUpdate fn) (call0 fn))
    fuel 0.

(** *** Drawing *)

Definition draw_sprite (hp : list GameSprite) (spr : ref) : list Event :=
  match hp !! spr with
  | Some s =>
      match image s with
      | Some img =>
          [EvDrawSprite spr (Blit img (Rect.x (rect s), Rect.y (rect s)))]
      | None => [EvDrawSprite spr (DrawRect (color s) (rect s))]
      end
  | None => []
  end.

Definition white : Color := (255, 255, 255).

Definition draw (width height : Z) : Pass :=
  fun g =>
    bind (draw_background width height g) (fun bg =>
    Ret (set_text_commands [] (set_draw_commands [] g),
         map EvDraw bg
         ++ flat_map (draw_sprite (heap g)) (_sprites g)
         ++ map (fun '(x, y, r) => EvDraw (DrawCircle white (x, y) r))
              (_draw_commands g)
         ++ map (fun '(text, x, y, size) =>
                   EvDraw (BlitText text size white (x, y)))
              (_text_commands g)
         ++ [EvDraw Flip])).

(** *** One iteration of [while running] *)

(** What the platform hands to one iteration: the milliseconds returned by
    [_clock.tick(60)], the drained events and the key state. *)
Record FrameInput := {
  ticks : Z;
  events : list PgEvent;
  keys : Z -> bool
}.

(** Everything after the game-over block. *)
Definition simulate (fuel : nat) (dt : Q) (width height : Z) : Pass :=
  andthen (key_dispatch fuel)
 (andthen (game_update_dispatch fuel dt)
 (andthen (physics dt width height)
 (andthen (overlap_dispatch fuel)
 (andthen (update_dispatch fuel)
          (draw width height))))).

Definition after_events (fuel : nat) (dt : Q) (width height : Z) : Pass :=
  fun g =>
    if _game_over_flag g then game_over_screen width height g
    else simulate fuel dt width height g.

Definition frame (fuel : nat) (width height : Z) (inp : FrameInput)
    (g : Game) : outcome (bool * Game * list Event) :=
  let dt := (inject_Z (ticks inp) / 1000)%Q in
  let g := set_pressed (keys inp) g in
  bind (event_loop fuel (events inp) true g) (fun '(running, g1, t1) =>
  bind (after_events fuel dt width height g1) (fun '(g2, t2) =>
  Ret (running, g2, t1 ++ t2))).

Fixpoint main_loop (fuel : nat) (width height : Z) (inputs : list FrameInput)
    (g : Game) : outcome (Game * list Event) :=
  match inputs with
  | [] => Ret (g, [])
  | inp :: rest =>
      bind (frame fuel width height inp g) (fun '(running, g1, t1) =>
      if running
      then bind (main_loop fuel width height rest g1) (fun '(g2, t2) =>
           Ret (g2, t1 ++ t2))
      else Ret (g1, t1))
  end.

(** [start(width, height, title)], run on the frames [inputs]. *)
Definition start (fuel : nat) (width height : Z) (title : string)
    (inputs : list FrameInput) : Pass :=
  fun g =>
    let g := set_screen (Some (width, height)) g in
    let g := _prepare_background width height g in
    andthen (run_start_handlers fuel) (main_loop fuel width height inputs) g.

End Playkit.

(** ** Concrete games

    A small family of callbacks and fixed backends, used to run the loop
    on explicit inputs. *)

Inductive DemoCb :=
| CbNop
| CbCount
| CbSpawn
| CbDestroy (spr : ref).

Definition DemoGame := @Game DemoCb Z.

Definition demo_image_load (path : string) : option Surface := None.
Definition demo_smoothscale (s : Surface) (size : Z * Z) : option Surface :=
  Some {| surf_data := surf_data s; surf_size := size |}.
Definition demo_sqrt (q : Q) : Q := inject_Z (Z.sqrt (Qceiling q)).
Definition demo_text_width (text : string) (size : Z) : Z :=
  Z.of_nat (String.length text) * size / 2.

Definition blue : Color := (0, 0, 255).

(** [CbCount] adds one to the user's counter, [CbSpawn] creates a sprite
    the way a setup function does, [CbDestroy] calls [destroy]. *)
Definition demo_call0 (fn : DemoCb) (g : DemoGame) : DemoGame :=
  match fn with
  | CbNop => g
  | CbCount => set_user (user g + 1) g
  | CbSpawn =>
      snd (sprite demo_image_load demo_smoothscale None 0 0 10 10 blue
             (60, 0)%Q None g)
  | CbDestroy spr => modify spr destroy g
  end.

Definition demo_call1 (fn : DemoCb) (dt : Q) (g : DemoGame) : DemoGame :=
  demo_call0 fn g.

Definition demo_call2 (fn : DemoCb) (a b : ref) (g : DemoGame) : DemoGame :=
  demo_call0 fn g.

Definition no_input (ms : Z) : FrameInput :=
  {| ticks := ms; events := []; keys := fun _ => false |}.

(** A sprite at x = 5 drifting left at 3 px/s and down at 2 px/s. *)
Definition drift_game : DemoGame :=
  snd (sprite demo_image_load demo_smoothscale None 5 7 10 10 blue
         (-3, 2)%Q None (initial 0)).

(** ** Vocabulary of the statements *)



(** The sprite of the bounce scenario: at (0,0), 10 by 10, moving right at
    100 px/s, bounce enabled. *)
Definition bounce_game : DemoGame :=
  modify 0%nat (set_bounce true)
    (snd (sprite demo_image_load demo_smoothscale None 0 0 10 10 blue
            (100, 0)%Q None (initial 0))).

(** The same with a sprite 60 wide. *)
Definition wide_bounce_game : DemoGame :=
  modify 0%nat (set_bounce true)
    (snd (sprite demo_image_load demo_smoothscale None 0 0 60 10 blue
            (100, 0)%Q None (initial 0))).

(** The rectangle lies inside the window on an axis. *)
Definition inside_x (width : Z) (r : Rect.t) : Prop :=
  0 <= Rect.left r /\ Rect.right r <= width.

Definition inside_y (height : Z) (r : Rect.t) : Prop :=
  0 <= Rect.top r /\ Rect.bottom r <= height.

Definition crosses_x (width : Z) (r : Rect.t) : Prop :=
  Rect.left r < 0 \/ Rect.right r > width.

Definition crosses_y (height : Z) (r : Rect.t) : Prop :=
  Rect.top r < 0 \/ Rect.bottom r > height.

(** ** The physics step seen from the sprite

    [step_follow] and [step_platforms] read other objects of the store;
    these are the functions they apply to the sprite itself. *)

Definition follow_sprite (sqrt : Q -> Q) (hp : list GameSprite) (dt : Q)
    (s : GameSprite) : GameSprite :=
  match _follow s with
  | None => s
  | Some (targ, spd) =>
      match hp !! targ with
      | None => s
      | Some t =>
          let dirv :=
            Vector2.sub (Vector2.of_ints (Rect.center (rect t)))
                        (Vector2.of_ints (Rect.center (rect s))) in
          if Qltb 0 (Vector2.length sqrt dirv)
          then
            let vel :=
              Vector2.scale
                (Vector2.scale (Vector2.normalize sqrt dirv) spd) dt in
            with_rect
              (Rect.iadd_y (Vector2.y vel)
                 (Rect.iadd_x (Vector2.x vel) (rect s))) s
          else s
      end
  end.

(** The platform the landing test settles on, if it runs and finds one. *)
Definition landing_platform (hp : list GameSprite) (plats : list ref)
    (s : GameSprite) : option ref :=
  match gravity s with
  | None => None
  | Some _ =>
      if Qleb 0 (Vector2.y (speed s)) then find (hits hp (rect s)) plats
      else None
  end.

Definition platforms_sprite (hp : list GameSprite) (plats : list ref)
    (s : GameSprite) : GameSprite :=
  match gravity s with
  | None => s
  | Some _ =>
      if Qleb 0 (Vector2.y (speed s))
      then
        match find (hits hp (rect s)) plats with
        | Some plat =>
            match hp !! plat with
            | Some p => land (Rect.top (rect p)) (with_on_ground false s)
            | None => with_on_ground false s
            end
        | None => with_on_ground false s
        end
      else s
  end.

(** The sprite as the landing test finds it: after follow, gravity,
    movement and bounce. *)
Definition before_landing (sqrt : Q -> Q) (hp : list GameSprite) (dt : Q)
    (width height : Z) (s : GameSprite) : GameSprite :=
  step_bounce width height
    (step_move dt (step_gravity dt (follow_sprite sqrt hp dt s))).

(** The attributes that only user code and [step_lifetime] write. *)
Definition same_settings (s s' : GameSprite) : Prop :=
  image s' = image s /\ color s' = color s /\ lifetime s' = lifetime s
  /\ _follow s' = _follow s /\ bounce s' = bounce s
  /\ gravity s' = gravity s /\ control_speed s' = control_speed s.



(** A falling sprite above a platform: sprite 0 at (0,0), 10 by 10, with
    gravity 800; platform 1 at (0,5), 100 by 10; a second platform 2 at
    (0,8) that the sprite also overlaps. *)
Definition landing_game : DemoGame :=
  let '(spr, g) := sprite demo_image_load demo_smoothscale None 0 0 10 10 blue
                     (0, 0)%Q None (initial 0) in
  let g := enable_gravity spr 800 g in
  let '(_, g) := platform demo_image_load demo_smoothscale 0 5 100 10
                   (100, 100, 100) g in
  let '(_, g) := platform demo_image_load demo_smoothscale 0 8 100 10
                   (100, 100, 100) g in
  g.

(** One physics pass at 60 frames a second: the sprite lands.  Then the
    game makes it jump, and a second pass runs. *)
Definition landed_game : DemoGame :=
  fst (physics_loop demo_sqrt (1 # 60) 640 480
         (_sprites landing_game) landing_game).





(** What one physics step does to age, liveness and lifetime of a
    sprite: exactly what [step_lifetime] does. *)
Definition aged (dt : Q) (s s' : GameSprite) : Prop :=
  lifetime s' = lifetime s
  /\ _age s' = _age (step_lifetime dt s)
  /\ alive s' = alive (step_lifetime dt s).

(** The object behind [r] exists and is marked not alive. *)
Definition dead {Cb U : Type} (g : @Game Cb U) (r : ref) : Prop :=
  exists s, heap g !! r = Some s /\ alive s = false.

(** The physics pass of one frame, and of several frames in a row with
    nothing else in between. *)
Definition physics_pass {Cb U : Type} (sqrt : Q -> Q) (width height : Z)
    (dt : Q) (g : @Game Cb U) : @Game Cb U :=
  fst (physics_loop sqrt dt width height (_sprites g) g).

Definition physics_frames {Cb U : Type} (sqrt : Q -> Q) (width height : Z)
    (dts : list Q) (g : @Game Cb U) : @Game Cb U :=
  fold_left (fun g dt => physics_pass sqrt width height dt g) dts g.

(** The ages a sprite goes through, frame after frame. *)
Fixpoint ages (a : Q) (dts : list Q) : list Q :=
  match dts with
  | [] => []
  | dt :: rest => fadd a dt :: ages (fadd a dt) rest
  end.

(** A projectile with a lifetime of 3/100 s, as [projectile_from] makes
    them, next to the sprite that fired it. *)
Definition bullet_game : DemoGame :=
  let '(player, g) := sprite demo_image_load demo_smoothscale None 300 430 40 40
                        blue (0, 0)%Q None (initial 0) in
  snd (projectile_from demo_image_load demo_smoothscale player 0 (-450) None
         6 14 (255, 255, 0) (Some (3 # 100)) g).

Definition bullet : GameSprite :=
  GameSprite_init None (Rect.mk 317 443 6 14) (255, 255, 0) (0, -450)%Q
    (Some (3 # 100)).

(** The same with the lifetime of two seconds that [projectile_from]
    gives by default, and a second of frames of 25 ms. *)
Definition shot_game : DemoGame :=
  let '(player, g) := sprite demo_image_load demo_smoothscale None 300 430 40 40
                        blue (0, 0)%Q None (initial 0) in
  snd (projectile_from demo_image_load demo_smoothscale player 0 (-450) None
         6 14 (255, 255, 0) (Some 2%Q) g).

Definition shot : GameSprite :=
  GameSprite_init None (Rect.mk 317 443 6 14) (255, 255, 0) (0, -450)%Q
    (Some 2%Q).

Definition eighty_frames : list Q := replicate 80 (25 # 1000).

(** Backends for which loading succeeds and scaling raises. *)
Definition raw_image : Surface := {| surf_data := 7; surf_size := (32, 32) |}.
Definition loading_ok (path : string) : option Surface := Some raw_image.
Definition scaling_fails (s : Surface) (size : Z * Z) : option Surface := None.

(** ** Iteration over a list that does not change

    [for a in lst: body(a)] over a fixed list; the loops of the module
    are compared with it. *)
Fixpoint for_each {Cb U A : Type} (body : nat -> A -> @Pass Cb U) (i : nat)
    (l : list A) : @Pass Cb U :=
  match l with
  | [] => skip
  | a :: rest => andthen (body i a) (for_each body (S i) rest)
  end.

Definition demo_key_code (key_name : string) : Z := K_SPACE.

(** A game that has been lost: two on-start callbacks (one spawns a sprite
    moving right at 60 px/s, one counts), a [when_update] hook, an
    [on_game_update] hook, a handler on the space key, a pending circle, and
    the game-over flag set. *)
Definition lost_game : DemoGame :=
  game_over "You Lose!"
    (draw_circle 1 2 3
       (demo_call0 CbCount
          (demo_call0 CbSpawn
             (when_key demo_key_code "space" CbNop
                (on_game_update (UserFn CbNop)
                   (when_update CbCount
                      (on_game_start CbCount
                         (on_game_start CbSpawn (initial 0))))))))).

Definition no_keys : Z -> bool := fun _ => false.
Definition space_held : Z -> bool := fun key => key =? K_SPACE.

Definition is_quit (e : PgEvent) : bool :=
  match e with
  | QUIT => true
  | _ => false
  end.

Definition is_restart_key (e : PgEvent) : bool :=
  match e with
  | KEYDOWN key => key =? K_SPACE
  | _ => false
  end.

(** ** Overlap notifications in a trace *)

(** Number of calls recorded for the triple registered at position [i]. *)
Fixpoint calls_of {Cb : Type} (i : nat) (t : list (@Event Cb)) : nat :=
  match t with
  | [] => O
  | EvOverlap j _ _ _ :: rest =>
      if (j =? i)%nat then S (calls_of i rest) else calls_of i rest
  | _ :: rest => calls_of i rest
  end.

(** The event is an overlap call for a position in [lo, hi). *)
Definition index_in {Cb : Type} (lo hi : nat) (ev : @Event Cb) : Prop :=
  match ev with
  | EvOverlap j _ _ _ => (lo <= j < hi)%nat
  | _ => False
  end.

(** An object that the physics step leaves where it is. *)
Definition stationary (s : GameSprite) : Prop :=
  _follow s = None /\ gravity s = None /\ lifetime s = None
  /\ bounce s = false
  /\ (Vector2.x (speed s) == 0)%Q /\ (Vector2.y (speed s) == 0)%Q.

(** Two sprites A (0,0,10,10) and B (5,5,10,10) that do not move, and one
    overlap triple whose callback counts. *)
Definition overlap_game : DemoGame :=
  let '(a, g) := sprite demo_image_load demo_smoothscale None 0 0 10 10 blue
                   (0, 0)%Q None (initial 0) in
  let '(b, g) := sprite demo_image_load demo_smoothscale None 5 5 10 10 blue
                   (0, 0)%Q None g in
  when_overlap a b CbCount g.

(** The pixels of a rectangle, as pygame reads one: on each axis from
    the smaller of its two edges to the larger, the larger left out.  A
    rectangle of zero width or height has none. *)
Definition covers (r : Rect.t) (px py : Z) : Prop :=
  Z.min (Rect.x r) (Rect.x r + Rect.width r) <= px
  /\ px < Z.max (Rect.x r) (Rect.x r + Rect.width r)
  /\ Z.min (Rect.y r) (Rect.y r + Rect.height r) <= py
  /\ py < Z.max (Rect.y r) (Rect.y r + Rect.height r).

(** Two rectangles overlap: some pixel is in both. *)
Definition share_pixel (ra rb : Rect.t) : Prop :=
  exists px py, covers ra px py /\ covers rb px py.

(** The condition of the overlap notifier for the sprites [a] and [b]:
    both are alive and their rectangles overlap. *)
Definition in_contact {Cb U : Type} (g : @Game Cb U) (a b : ref) : Prop :=
  exists sa sb,
    heap g !! a = Some sa /\ heap g !! b = Some sb
    /\ alive sa = true /\ alive sb = true
    /\ share_pixel (rect sa) (rect sb).

(** Two sprites with the rectangles [ra] and [rb] that do not move, and
    one overlap triple whose callback counts; [overlap_game] is the case of
    (0,0,10,10) and (5,5,10,10). *)
Definition pair_game (ra rb : Rect.t) : DemoGame :=
  let '(a, g) := sprite demo_image_load demo_smoothscale None
                   (Rect.x ra) (Rect.y ra) (Rect.width ra) (Rect.height ra)
                   blue (0, 0)%Q None (initial 0) in
  let '(b, g) := sprite demo_image_load demo_smoothscale None
                   (Rect.x rb) (Rect.y rb) (Rect.width rb) (Rect.height rb)
                   blue (0, 0)%Q None g in
  when_overlap a b CbCount g.

(** The same pair once the second sprite has been destroyed. *)
Definition widowed_game (ra rb : Rect.t) : DemoGame :=
  modify 1%nat destroy (pair_game ra rb).

(** ** Events that name a sprite *)

Definition simulates {Cb : Type} (spr : ref) (ev : @Event Cb) : Prop :=
  match ev with
  | EvPhysics r => r = spr
  | _ => False
  end.

Definition overlap_names {Cb : Type} (spr : ref) (ev : @Event Cb) : Prop :=
  match ev with
  | EvOverlap _ a b _ => a = spr \/ b = spr
  | _ => False
  end.

Definition draws {Cb : Type} (spr : ref) (ev : @Event Cb) : Prop :=
  match ev with
  | EvDrawSprite r _ => r = spr
  | _ => False
  end.

(** One sprite at (0,0), 10 by 10, with a click handler that counts and a
    [when_update] hook that destroys it. *)
Definition ghost_game : DemoGame :=
  when_update (CbDestroy 0%nat)
    (when_click 0%nat CbCount
       (snd (sprite demo_image_load demo_smoothscale None 0 0 10 10 blue
               (0, 0)%Q None (initial 0)))).

(** The same once the sprite has been destroyed. *)
Definition haunted_game : DemoGame := modify 0%nat destroy ghost_game.

(** ** Well-formed registries *)

(** The registry holds each sprite once, and only objects that exist. *)
Definition registry_ok {Cb U : Type} (g : @Game Cb U) : Prop :=
  NoDup (_sprites g)
  /\ Forall (fun r => (r < length (heap g))%nat) (_sprites g).

(** Everything of the module state that is neither the object store nor
    the sprite registry. *)
Definition same_globals {Cb U : Type} (g g' : @Game Cb U) : Prop :=
  _game_start_handlers g' = _game_start_handlers g
  /\ _game_over_flag g' = _game_over_flag g
  /\ _game_over_msg g' = _game_over_msg g
  /\ _overlap_handlers g' = _overlap_handlers g
  /\ _platforms g' = _platforms g
  /\ _key_handlers g' = _key_handlers g
  /\ _click_handlers g' = _click_handlers g
  /\ _update_handlers g' = _update_handlers g
  /\ _game_update_handlers g' = _game_update_handlers g
  /\ _draw_commands g' = _draw_commands g
  /\ _text_commands g' = _text_commands g
  /\ _image_cache g' = _image_cache g
  /\ _screen g' = _screen g
  /\ _background_path g' = _background_path g
  /\ _background_color g' = _background_color g
  /\ _background_mode g' = _background_mode g
  /\ _background_surface g' = _background_surface g
  /\ pressed g' = pressed g
  /\ console g' = console g
  /\ user g' = user g.

(** ** Handler tables *)

(** [d.get(k, [])] on an insertion-ordered dict. *)
Fixpoint handlers_of {K Cb : Type} (eqb : K -> K -> bool) (k : K)
    (d : list (K * list Cb)) : list Cb :=
  match d with
  | [] => []
  | (k', fns) :: rest => if eqb k' k then fns else handlers_of eqb k rest
  end.

(** The callbacks that held-key dispatch has to call, in order: for every
    registered key that is down, its callbacks. *)
Definition held_callbacks {Cb : Type} (pressed : Z -> bool)
    (d : list (Z * list Cb)) : list (Z * Cb) :=
  flat_map (fun '(code, fns) =>
              if pressed code then map (pair code) fns else []) d.

(** The rectangle of the object behind [spr] contains [pos]. *)
Definition under_pointer (hp : list GameSprite) (pos : Z * Z) (spr : ref)
    : bool :=
  match hp !! spr with
  | Some s => Rect.collidepoint (rect s) pos
  | None => false
  end.

(** The callbacks that a click at [pos] has to call: for every registered
    sprite, in order, whose rectangle contains [pos], its callbacks. *)
Definition clicked_callbacks {Cb : Type} (hp : list GameSprite) (pos : Z * Z)
    (d : list (ref * list Cb)) : list (ref * Cb) :=
  flat_map (fun '(spr, fns) =>
              if under_pointer hp pos spr then map (pair spr) fns else []) d.

(** Key names of the concrete games. *)
Definition named_key_code (key_name : string) : Z :=
  if String.eqb key_name "left" then K_LEFT else K_SPACE.

(** Two handlers on the space key, registered before and after one on the
    left arrow; space is down. *)
Definition keys_game : DemoGame :=
  set_pressed space_held
    (when_key named_key_code "space" CbCount
       (when_key named_key_code "left" CbNop
          (when_key named_key_code "space" CbNop (initial 0)))).

(** A sprite at (100,100), 10 by 10, whose click handlers destroy it and
    count. *)
Definition button_game : DemoGame :=
  when_click 0%nat CbCount
    (when_click 0%nat (CbDestroy 0%nat)
       (snd (sprite demo_image_load demo_smoothscale None 100 100 10 10 blue
               (0, 0)%Q None (initial 0)))).

(** A callback that registers a key handler, as a game that binds keys
    late would. *)
Inductive KeyCb :=
| KcNop
| KcBindLeft.

Definition key_call0 (fn : KeyCb) (g : @Game KeyCb Z) : @Game KeyCb Z :=
  match fn with
  | KcNop => g
  | KcBindLeft => when_key named_key_code "left" KcNop g
  end.

(** Space is down, and its handler binds the left arrow. *)
Definition late_binding_game : @Game KeyCb Z :=
  set_pressed space_held
    (when_key named_key_code "space" KcBindLeft (initial 0)).

(** The first lines of [start]: the window is created and the background
    prepared for its size. *)
Definition open_window {Cb U : Type} (image_load : string -> option Surface)
    (smoothscale : Surface -> Z * Z -> option Surface) (width height : Z)
    (g : @Game Cb U) : @Game Cb U :=
  _prepare_background image_load smoothscale width height
    (set_screen (Some (width, height)) g).

(** Callbacks that register callbacks: a hook that installs another
    [when_update] hook, and a setup function that registers itself with
    [on_game_start] again each time it runs. *)
Inductive HookCb :=
| HkNop
| HkHook
| HkSetup.

Definition hook_call0 (fn : HookCb) (g : @Game HookCb Z) : @Game HookCb Z :=
  match fn with
  | HkNop => g
  | HkHook => when_update HkNop g
  | HkSetup => on_game_start HkSetup g
  end.

Definition hooking_game : @Game HookCb Z := when_update HkHook (initial 0).

Definition self_registering_game : @Game HookCb Z :=
  on_game_start HkSetup (on_game_start HkNop (initial 0)).

(** * example.py: a game written with the module

    The functions of [example.py] read and assign five globals of their
    own ([player], [bullets], [rocks], [score], [timer]).  [setup] binds
    all five in a row; until it has run, reading one of them raises
    [NameError].  The user state is therefore [None] before the first
    [setup] and a record afterwards, and [shoot] and [step] answer [None]
    for that exception. *)

(** [spr.alive] and [spr.rect] for a reference. *)
Definition is_alive {Cb U : Type} (g : @Game Cb U) (spr : ref) : bool :=
  match heap g !! spr with
  | Some s => alive s
  | None => false
  end.

Definition rect_of {Cb U : Type} (g : @Game Cb U) (spr : ref) : Rect.t :=
  match heap g !! spr with
  | Some s => rect s
  | None => Rect.mk 0 0 0 0
  end.

(** [str(n)] for an integer, as an f-string formats it. *)
Definition str (n : Z) : string := NilZero.string_of_int (Z.to_int n).

Module example.

Inductive Callback := Setup | Shoot | Step.

Record Globals := {
  player : ref;
  bullets : list ref;
  rocks : list ref;
  score : Z;
  timer : Q
}.

Abbreviation ExGame := (@Game Callback (option Globals)).

Section Backend.
Variable image_load : string -> option Surface.
Variable smoothscale : Surface -> Z * Z -> option Surface.

Definition setup (g : ExGame) : ExGame :=
  let '(p, g) := sprite image_load smoothscale None 300 430 40 40
                   (0, 200, 255) (0, 0)%Q None g in
  let g := control_arrows p 220 (Some (0, 0, 640, 480)%Q) g in
  set_user (Some {| player := p; bullets := []; rocks := [];
                    score := 0; timer := 0 |}) g.

Definition shoot (g : ExGame) : option ExGame :=
  match user g with
  | None => None
  | Some u =>
      let '(b, g) := projectile_from image_load smoothscale (player u)
                       0 (-450) None 6 14 (255, 255, 0) (Some 2%Q) g in
      Some (set_user (Some {| player := player u;
                              bullets := bullets u ++ [b];
                              rocks := rocks u; score := score u;
                              timer := timer u |}) g)
  end.

(** [for b in bullets: ...] for the rock [r]: the first live bullet that
    touches the rock scores, both are destroyed, and the loop breaks. *)
Fixpoint bullets_loop (r : ref) (bs : list ref) (sc : Z) (g : ExGame)
    : Z * ExGame :=
  match bs with
  | [] => (sc, g)
  | b :: rest =>
      if negb (is_alive g b) then bullets_loop r rest sc g
      else if Rect.colliderect (rect_of g b) (rect_of g r)
      then (sc + 1, modify b destroy (modify r destroy g))
      else bullets_loop r rest sc g
  end.

(** The body of [for r in rocks: ...]. *)
Definition rock_body (p : ref) (bs : list ref) (r : ref) (sc : Z)
    (g : ExGame) : Z * ExGame :=
  if negb (is_alive g r) then (sc, g)
  else
    let g := if Rect.colliderect (rect_of g r) (rect_of g p)
             then game_over "You Lose!" g else g in
    bullets_loop r bs sc g.

Fixpoint rocks_loop (p : ref) (bs rs : list ref) (sc : Z) (g : ExGame)
    : Z * ExGame :=
  match rs with
  | [] => (sc, g)
  | r :: rest =>
      let '(sc, g) := rock_body p bs r sc g in
      rocks_loop p bs rest sc g
  end.

(** [step(dt)]; [randint] is what [random.randint(0, 620)] answers if it
    is called. *)
Definition step (randint : Z) (dt : Q) (g : ExGame) : option ExGame :=
  match user g with
  | None => None
  | Some u =>
      let t := fadd (timer u) dt in
      let '(t, rs, g) :=
        if Qleb 1 t then
          let '(r, g) := sprite image_load smoothscale None randint (-30)
                           26 26 (180, 180, 180) (0, 170)%Q (Some 6%Q) g in
          (0%Q, rocks u ++ [r], g)
        else (t, rocks u, g) in
      let '(sc, g) := rocks_loop (player u) (bullets u) rs (score u) g in
      let g := write (String.append "Score: " (str sc)) 10 10 24 g in
      Some (set_user (Some {| player := player u; bullets := bullets u;
                              rocks := rs; score := sc; timer := t |}) g)
  end.

(** The three registrations at the top level of the file. *)
Definition registered (key_code : string -> Z) (g : ExGame) : ExGame :=
  on_game_update (UserFn Step)
    (when_key key_code "space" Shoot (on_game_start Setup g)).

End Backend.

(** The globals name distinct objects that exist. *)
Definition consistent (g : ExGame) (u : Globals) : Prop :=
  user g = Some u
  /\ (player u < length (heap g))%nat
  /\ Forall (fun r => (r < length (heap g))%nat) (rocks u ++ bullets u)
  /\ NoDup (player u :: rocks u ++ bullets u).

(** The number of live sprites of a list. *)
Definition live (g : ExGame) (l : list ref) : nat :=
  length (List.filter (is_alive g) l).

(** A live rock touches the player. *)
Definition touches (g : ExGame) (p r : ref) : bool :=
  is_alive g r && Rect.colliderect (rect_of g r) (rect_of g p).

(** The state after a loop differs from the state before it by the store
    and, when [lost] holds, by the call of [game_over]. *)
Definition marked (lost : bool) (g : ExGame) : ExGame :=
  if lost then game_over "You Lose!" g else g.

(** What the body of the rock loop does for the rock [r], [k] being the
    number of hits it scores. *)
Record body_effect (p : ref) (bs : list ref) (r : ref) (k : nat)
    (g g' : ExGame) : Prop := {
  be_k : (k <= 1)%nat;
  be_bullets : (live g' bs + k = live g bs)%nat;
  be_rock : is_alive g' r = is_alive g r && (k =? 0)%nat;
  be_hit : k = 1%nat -> is_alive g r = true;
  be_others : forall x, x <> r -> x ∉ bs -> heap g' !! x = heap g !! x;
  be_rects : forall x, rect_of g' x = rect_of g x;
  be_length : length (heap g') = length (heap g);
  be_dead : forall x, is_alive g' x = true -> is_alive g x = true;
  be_globals : g' = set_heap (heap g') (marked (touches g p r) g)
}.

(** The same for the whole rock loop over [rs]. *)
Record loop_effect (p : ref) (bs rs : list ref) (k : nat)
    (g g' : ExGame) : Prop := {
  le_bullets : (live g' bs + k = live g bs)%nat;
  le_rocks : (live g' rs + k = live g rs)%nat;
  le_others : forall x, x ∉ rs -> x ∉ bs -> heap g' !! x = heap g !! x;
  le_rects : forall x, rect_of g' x = rect_of g x;
  le_length : length (heap g') = length (heap g);
  le_dead : forall x, is_alive g' x = true -> is_alive g x = true;
  le_globals : g' = set_heap (heap g') (marked (existsb (touches g p) rs) g)
}.

(** The callbacks called with no argument.  The module runs the on-start
    callbacks before anything else, so that [shoot] is not reached with the
    globals unbound; were it, the state is left as it is. *)
Definition call0 (image_load : string -> option Surface)
    (smoothscale : Surface -> Z * Z -> option Surface) (fn : Callback)
    (g : ExGame) : ExGame :=
  match fn with
  | Setup => setup image_load smoothscale g
  | Shoot => default g (shoot image_load smoothscale g)
  | Step => g
  end.

(** The game after the registrations of the file and the first [setup]. *)
Definition new_game : ExGame :=
  setup demo_image_load demo_smoothscale
    (registered named_key_code (initial None)).

(** One shot, then a step of one second, which spawns a rock; the rock is
    then brought down onto the bullet and the player, where some frames of
    physics would take it. *)
Definition battle_game : ExGame :=
  match shoot demo_image_load demo_smoothscale new_game with
  | Some g1 =>
      match step demo_image_load demo_smoothscale 315 1 g1 with
      | Some g2 => modify 2%nat (with_rect (Rect.mk 315 440 26 26)) g2
      | None => new_game
      end
  | None => new_game
  end.

(** The globals of that game: the player, one bullet, one rock. *)
Definition battle_globals : Globals :=
  {| player := 0%nat; bullets := [1%nat]; rocks := [2%nat];
     score := 0; timer := 0 |}.

(** The same once it is lost. *)
Definition lost_battle : ExGame := game_over "You Lose!" battle_game.

End example.

(** * Properties *)

(** ** Truncation *)

Lemma Qtrunc_inject_Z (n : Z) : Qtrunc (inject_Z n) = n.
Proof. unfold Qtrunc; simpl. apply Z.quot_1_r. Qed.

Lemma Qtrunc_nonneg (q : Q) : (0 <= q)%Q -> Qtrunc q = Qfloor q.
Proof.
  destruct q as [n d]. unfold Qle, Qtrunc, Qfloor; simpl. intros H.
  apply Z.quot_div_nonneg; lia.
Qed.

Lemma Qtrunc_opp (q : Q) : Qtrunc (- q) = - Qtrunc q.
Proof. destruct q as [n d]. unfold Qtrunc; simpl. apply Z.quot_opp_l. lia. Qed.

Lemma Qtrunc_nonpos (q : Q) : (q <= 0)%Q -> Qtrunc q = - Qfloor (- q).
Proof.
  intros H. rewrite <- Qtrunc_nonneg by lra. rewrite Qtrunc_opp. lia.
Qed.

(** Truncation depends on the rational, not on how it is written. *)
Lemma Qtrunc_comp (p q : Q) : (p == q)%Q -> Qtrunc p = Qtrunc q.
Proof.
  intros E. destruct (Qlt_le_dec p 0) as [Hn|Hp].
  - rewrite (Qtrunc_nonpos p), (Qtrunc_nonpos q) by lra.
    f_equal. apply Qfloor_comp. lra.
  - rewrite (Qtrunc_nonneg p), (Qtrunc_nonneg q) by lra.
    apply Qfloor_comp. exact E.
Qed.






Lemma Qtrunc_add_zero (n : Z) (d : Q) :
  (d == 0)%Q -> Qtrunc (inject_Z n + d) = n.
Proof.
  intros E. rewrite <- (Qtrunc_inject_Z n) at 2. apply Qtrunc_comp. lra.
Qed.

(** ** The object store *)

Section Store.
Context {Cb U : Type}.
Implicit Types (g : @Game Cb U) (s : GameSprite) (spr r : ref).

Lemma set_heap_id g : set_heap (heap g) g = g.
Proof. destruct g; reflexivity. Qed.

Lemma set_heap_set_heap (h1 h2 : list GameSprite) g :
  set_heap h2 (set_heap h1 g) = set_heap h2 g.
Proof. reflexivity. Qed.

Lemma modify_insert spr f g s :
  heap g !! spr = Some s ->
  modify spr f g = set_heap (<[spr := f s]> (heap g)) g.
Proof.
  intros H. unfold modify. f_equal.
  apply list_eq. intros i. destruct (decide (i = spr)) as [->|Hne].
  - rewrite list_lookup_alter_eq, H. simpl.
    rewrite list_lookup_insert_eq; [reflexivity|]. now apply lookup_lt_Some in H.
  - rewrite list_lookup_alter_ne, list_lookup_insert_ne by congruence. reflexivity.
Qed.

Lemma modify_dangling spr f g : heap g !! spr = None -> modify spr f g = g.
Proof.
  intros H. transitivity (set_heap (heap g) g); [|apply set_heap_id].
  unfold modify. f_equal.
  apply list_eq. intros i. destruct (decide (i = spr)) as [->|Hne].
  - rewrite list_lookup_alter_eq, H. reflexivity.
  - now rewrite list_lookup_alter_ne by congruence.
Qed.

Lemma insert_same (hp : list GameSprite) spr s :
  hp !! spr = Some s -> <[spr := s]> hp = hp.
Proof. apply list_insert_id. Qed.

Lemma lookup_set_heap_insert spr s' g s :
  heap g !! spr = Some s ->
  heap (set_heap (<[spr := s']> (heap g)) g) !! spr = Some s'.
Proof.
  intros H. simpl. apply list_lookup_insert_eq. now apply lookup_lt_Some in H.
Qed.

Lemma hits_insert_same_rect (hp : list GameSprite) spr s s' (r : Rect.t) plat :
  hp !! spr = Some s -> rect s' = rect s ->
  hits (<[spr := s']> hp) r plat = hits hp r plat.
Proof.
  intros H E. unfold hits. destruct (decide (plat = spr)) as [->|Hne].
  - rewrite list_lookup_insert_eq by (now apply lookup_lt_Some in H).
    rewrite H, E. reflexivity.
  - now rewrite list_lookup_insert_ne by congruence.
Qed.

Section WithSqrt.
Variable sqrt : Q -> Q.

Lemma step_follow_insert dt spr g s :
  heap g !! spr = Some s ->
  step_follow sqrt dt spr g
  = set_heap (<[spr := follow_sprite sqrt (heap g) dt s]> (heap g)) g.
Proof.
  intros H. unfold step_follow, follow_sprite. rewrite H.
  assert (Same : g = set_heap (<[spr := s]> (heap g)) g).
  { rewrite insert_same by exact H. now rewrite set_heap_id. }
  destruct (_follow s) as [[targ spd]|]; [|exact Same].
  destruct (heap g !! targ) as [t|]; [|exact Same].
  match goal with |- context [Qltb ?a ?b] => destruct (Qltb a b) end;
    [|exact Same].
  rewrite (modify_insert spr _ g s H). reflexivity.
Qed.

Lemma step_platforms_insert spr g s :
  heap g !! spr = Some s ->
  step_platforms spr g
  = set_heap (<[spr := platforms_sprite (heap g) (_platforms g) s]> (heap g)) g.
Proof.
  intros H. unfold step_platforms, platforms_sprite. rewrite H.
  assert (Same : g = set_heap (<[spr := s]> (heap g)) g).
  { rewrite insert_same by exact H. now rewrite set_heap_id. }
  destruct (gravity s); [|exact Same].
  destruct (Qleb 0 (Vector2.y (speed s))); [|exact Same].
  rewrite (modify_insert spr (with_on_ground false) g s H).
  cbn [_platforms set_heap heap].
  assert (F : find (hits (<[spr := with_on_ground false s]> (heap g)) (rect s))
                (_platforms g)
              = find (hits (heap g) (rect s)) (_platforms g)).
  { induction (_platforms g) as [|p ps IH]; [reflexivity|]. simpl.
    rewrite (hits_insert_same_rect (heap g) spr s) by (exact H || reflexivity).
    destruct (hits (heap g) (rect s) p); [reflexivity|exact IH]. }
  rewrite F. destruct (find (hits (heap g) (rect s)) (_platforms g)) as [plat|];
    [|reflexivity].
  assert (L : forall p, heap g !! plat = Some p ->
                exists p', <[spr := with_on_ground false s]> (heap g) !! plat = Some p'
                           /\ rect p' = rect p).
  { intros p Hp. destruct (decide (plat = spr)) as [->|Hne].
    - exists (with_on_ground false s).
      rewrite list_lookup_insert_eq by (now apply lookup_lt_Some in H).
      split; [reflexivity|]. rewrite H in Hp. now inversion Hp.
    - exists p. now rewrite list_lookup_insert_ne by congruence. }
  destruct (heap g !! plat) as [p|] eqn:Hp.
  - destruct (L p eq_refl) as (p' & Hp' & Er). rewrite Hp', Er.
    erewrite modify_insert; [|eapply lookup_set_heap_insert; exact H].
    cbn [heap set_heap]. rewrite list_insert_insert_eq. reflexivity.
  - assert (N : <[spr := with_on_ground false s]> (heap g) !! plat = None).
    { apply lookup_ge_None. rewrite length_insert. now apply lookup_ge_None. }
    rewrite N. reflexivity.
Qed.

Lemma modify_after_insert spr f g s s' :
  heap g !! spr = Some s ->
  modify spr f (set_heap (<[spr := s']> (heap g)) g)
  = set_heap (<[spr := f s']> (heap g)) g.
Proof.
  intros H. erewrite modify_insert; [|eapply lookup_set_heap_insert; exact H].
  cbn [heap set_heap]. now rewrite list_insert_insert_eq.
Qed.

Lemma step_platforms_after_insert spr g s s' :
  heap g !! spr = Some s ->
  step_platforms spr (set_heap (<[spr := s']> (heap g)) g)
  = set_heap
      (<[spr := platforms_sprite (<[spr := s']> (heap g)) (_platforms g) s']>
         (heap g)) g.
Proof.
  intros H.
  erewrite step_platforms_insert; [|eapply lookup_set_heap_insert; exact H].
  cbn [heap set_heap _platforms]. now rewrite list_insert_insert_eq.
Qed.

(** The whole body of the physics loop rewrites one cell of the store. *)
Lemma physics_sprite_insert dt width height spr g s :
  heap g !! spr = Some s ->
  let s1 := before_landing sqrt (heap g) dt width height s in
  physics_sprite sqrt dt width height spr g
  = set_heap
      (<[spr := step_lifetime dt
                  (platforms_sprite (<[spr := s1]> (heap g)) (_platforms g) s1)]>
         (heap g)) g.
Proof.
  intros H s1. unfold physics_sprite.
  rewrite (step_follow_insert dt spr g s H).
  rewrite (modify_after_insert spr (step_gravity dt) g s _ H).
  rewrite (modify_after_insert spr (step_move dt) g s _ H).
  rewrite (modify_after_insert spr (step_bounce width height) g s _ H).
  rewrite (step_platforms_after_insert spr g s _ H).
  rewrite (modify_after_insert spr (step_lifetime dt) g s _ H).
  reflexivity.
Qed.

End WithSqrt.
End Store.

(** ** What each sub-step leaves alone *)

Lemma same_settings_refl s : same_settings s s.
Proof. repeat split. Qed.

Lemma same_settings_trans s1 s2 s3 :
  same_settings s1 s2 -> same_settings s2 s3 -> same_settings s1 s3.
Proof.
  unfold same_settings. intros (A1 & A2 & A3 & A4 & A5 & A6 & A7)
    (B1 & B2 & B3 & B4 & B5 & B6 & B7).
  repeat split; congruence.
Qed.

Ltac crush_step :=
  repeat match goal with
         | |- context [match ?x with _ => _ end] => destruct x eqn:?
         | |- context [if ?b then _ else _] => destruct b eqn:?
         end;
  repeat split; simpl; congruence.

Lemma follow_sprite_fields sqrt hp dt s :
  let s' := follow_sprite sqrt hp dt s in
  same_settings s s' /\ speed s' = speed s /\ alive s' = alive s
  /\ _age s' = _age s /\ on_ground s' = on_ground s
  /\ Rect.width (rect s') = Rect.width (rect s)
  /\ Rect.height (rect s') = Rect.height (rect s).
Proof. unfold follow_sprite, same_settings. crush_step. Qed.

Lemma step_gravity_fields dt s :
  let s' := step_gravity dt s in
  same_settings s s' /\ rect s' = rect s /\ alive s' = alive s
  /\ _age s' = _age s /\ on_ground s' = on_ground s
  /\ Vector2.x (speed s') = Vector2.x (speed s).
Proof. unfold step_gravity, same_settings. crush_step. Qed.

Lemma step_move_fields dt s :
  let s' := step_move dt s in
  same_settings s s' /\ speed s' = speed s /\ alive s' = alive s
  /\ _age s' = _age s /\ on_ground s' = on_ground s
  /\ Rect.width (rect s') = Rect.width (rect s)
  /\ Rect.height (rect s') = Rect.height (rect s).
Proof. unfold step_move, same_settings. crush_step. Qed.

Lemma step_bounce_fields width height s :
  let s' := step_bounce width height s in
  same_settings s s' /\ alive s' = alive s
  /\ _age s' = _age s /\ on_ground s' = on_ground s
  /\ Rect.width (rect s') = Rect.width (rect s)
  /\ Rect.height (rect s') = Rect.height (rect s).
Proof.
  unfold step_bounce, bounce_y, bounce_x, same_settings. crush_step.
Qed.

Lemma platforms_sprite_fields hp plats s :
  let s' := platforms_sprite hp plats s in
  same_settings s s' /\ alive s' = alive s /\ _age s' = _age s
  /\ Vector2.x (speed s') = Vector2.x (speed s)
  /\ Rect.x (rect s') = Rect.x (rect s)
  /\ Rect.width (rect s') = Rect.width (rect s)
  /\ Rect.height (rect s') = Rect.height (rect s).
Proof. unfold platforms_sprite, same_settings. crush_step. Qed.

Lemma step_lifetime_fields dt s :
  let s' := step_lifetime dt s in
  same_settings s s' /\ rect s' = rect s /\ speed s' = speed s
  /\ on_ground s' = on_ground s.
Proof. unfold step_lifetime, same_settings. crush_step. Qed.

Lemma before_landing_fields sqrt hp dt width height s :
  let s' := before_landing sqrt hp dt width height s in
  same_settings s s' /\ alive s' = alive s /\ _age s' = _age s
  /\ on_ground s' = on_ground s
  /\ Rect.width (rect s') = Rect.width (rect s)
  /\ Rect.height (rect s') = Rect.height (rect s).
Proof.
  unfold before_landing.
  destruct (follow_sprite_fields sqrt hp dt s) as (A0 & _ & A1 & A2 & A3 & A4 & A5).
  set (s1 := follow_sprite sqrt hp dt s) in *.
  destruct (step_gravity_fields dt s1) as (B0 & Br & B1 & B2 & B3 & _).
  set (s2 := step_gravity dt s1) in *.
  destruct (step_move_fields dt s2) as (C0 & _ & C1 & C2 & C3 & C4 & C5).
  set (s3 := step_move dt s2) in *.
  destruct (step_bounce_fields width height s3) as (D0 & D1 & D2 & D3 & D4 & D5).
  cbv zeta. fold s1 s2 s3.
  split; [eauto using same_settings_trans|].
  repeat split; congruence.
Qed.

(** Without gravity the landing test is skipped, without a lifetime the
    sprite does not age. *)
Lemma platforms_sprite_no_gravity hp plats s :
  gravity s = None -> platforms_sprite hp plats s = s.
Proof. intros H. unfold platforms_sprite. now rewrite H. Qed.

Lemma step_lifetime_none dt s : lifetime s = None -> step_lifetime dt s = s.
Proof. intros H. unfold step_lifetime. now rewrite H. Qed.

(** ** In-place addition on a rectangle coordinate *)








(** ** Edge bounce *)

Lemma crosses_x_test (width : Z) (r : Rect.t) :
  (Rect.left r <? 0) || (Rect.right r >? width) = true <-> crosses_x width r.
Proof.
  unfold crosses_x. rewrite orb_true_iff, Z.ltb_lt, Z.gtb_gt. tauto.
Qed.

Lemma crosses_y_test (height : Z) (r : Rect.t) :
  (Rect.top r <? 0) || (Rect.bottom r >? height) = true <-> crosses_y height r.
Proof.
  unfold crosses_y. rewrite orb_true_iff, Z.ltb_lt, Z.gtb_gt. tauto.
Qed.

Lemma crosses_x_dec (width : Z) (r : Rect.t) :
  crosses_x width r \/ ~ crosses_x width r.
Proof. unfold crosses_x. lia. Qed.

Lemma crosses_y_dec (height : Z) (r : Rect.t) :
  crosses_y height r \/ ~ crosses_y height r.
Proof. unfold crosses_y. lia. Qed.

Lemma bounce_x_fires (width : Z) (s : GameSprite) :
  crosses_x width (rect s) ->
  (Vector2.x (speed (bounce_x width s)) == - Vector2.x (speed s))%Q
  /\ Vector2.y (speed (bounce_x width s)) = Vector2.y (speed s)
  /\ Rect.x (rect (bounce_x width s))
     = Z.max 0 (Z.min (Rect.x (rect s)) (width - Rect.width (rect s)))
  /\ Rect.y (rect (bounce_x width s)) = Rect.y (rect s)
  /\ Rect.width (rect (bounce_x width s)) = Rect.width (rect s)
  /\ Rect.height (rect (bounce_x width s)) = Rect.height (rect s).
Proof.
  intros H. apply crosses_x_test in H. unfold bounce_x. rewrite H. simpl.
  rewrite Qtrunc_inject_Z. repeat split. ring.
Qed.

Lemma bounce_x_idle (width : Z) (s : GameSprite) :
  ~ crosses_x width (rect s) -> bounce_x width s = s.
Proof.
  intros H. unfold bounce_x.
  destruct ((Rect.left (rect s) <? 0) || (Rect.right (rect s) >? width)) eqn:E;
    [|reflexivity].
  apply crosses_x_test in E. contradiction.
Qed.

Lemma bounce_y_fires (height : Z) (s : GameSprite) :
  crosses_y height (rect s) ->
  (Vector2.y (speed (bounce_y height s)) == - Vector2.y (speed s))%Q
  /\ Vector2.x (speed (bounce_y height s)) = Vector2.x (speed s)
  /\ Rect.y (rect (bounce_y height s))
     = Z.max 0 (Z.min (Rect.y (rect s)) (height - Rect.height (rect s)))
  /\ Rect.x (rect (bounce_y height s)) = Rect.x (rect s)
  /\ Rect.width (rect (bounce_y height s)) = Rect.width (rect s)
  /\ Rect.height (rect (bounce_y height s)) = Rect.height (rect s).
Proof.
  intros H. apply crosses_y_test in H. unfold bounce_y. rewrite H. simpl.
  rewrite Qtrunc_inject_Z. repeat split. ring.
Qed.

Lemma bounce_y_idle (height : Z) (s : GameSprite) :
  ~ crosses_y height (rect s) -> bounce_y height s = s.
Proof.
  intros H. unfold bounce_y.
  destruct ((Rect.top (rect s) <? 0) || (Rect.bottom (rect s) >? height)) eqn:E;
    [|reflexivity].
  apply crosses_y_test in E. contradiction.
Qed.

(** The horizontal test and clamp never touch [y], [height] or the
    vertical speed, so the vertical test sees what it would have seen
    without them. *)
Lemma bounce_x_keeps_vertical (width : Z) (s : GameSprite) :
  Rect.y (rect (bounce_x width s)) = Rect.y (rect s)
  /\ Rect.height (rect (bounce_x width s)) = Rect.height (rect s)
  /\ Vector2.y (speed (bounce_x width s)) = Vector2.y (speed s).
Proof.
  destruct (crosses_x_dec width (rect s)) as [H|H].
  - destruct (bounce_x_fires width s H) as (_ & A & _ & B & _ & C). auto.
  - rewrite (bounce_x_idle width s H). auto.
Qed.

Lemma bounce_y_keeps_horizontal (height : Z) (s : GameSprite) :
  Rect.x (rect (bounce_y height s)) = Rect.x (rect s)
  /\ Rect.width (rect (bounce_y height s)) = Rect.width (rect s)
  /\ Vector2.x (speed (bounce_y height s)) = Vector2.x (speed s).
Proof.
  destruct (crosses_y_dec height (rect s)) as [H|H].
  - destruct (bounce_y_fires height s H) as (_ & A & _ & B & C & _). auto.
  - rewrite (bounce_y_idle height s H). auto.
Qed.

(** C5, as amended.  For a sprite with bounce enabled, the bounce step
    treats the two axes independently.  On an axis where the rectangle
    crosses a window bound after integration, the velocity component is
    negated and the coordinate is set to [max(0, min(coord, bound - size))];
    this puts the rectangle fully inside on that axis whenever its size on
    that axis is between 0 and the window's.  On an axis where it does not
    cross, position and velocity are left alone. *)
Theorem C5_edge_bounce (width height : Z) (s : GameSprite) :
  bounce s = true ->
  let s' := step_bounce width height s in
  (crosses_x width (rect s) ->
     (Vector2.x (speed s') == - Vector2.x (speed s))%Q
     /\ Rect.x (rect s')
        = Z.max 0 (Z.min (Rect.x (rect s)) (width - Rect.width (rect s)))
     /\ (0 <= Rect.width (rect s) <= width -> inside_x width (rect s')))
  /\ (~ crosses_x width (rect s) ->
       Vector2.x (speed s') = Vector2.x (speed s)
       /\ Rect.x (rect s') = Rect.x (rect s))
  /\ (crosses_y height (rect s) ->
       (Vector2.y (speed s') == - Vector2.y (speed s))%Q
       /\ Rect.y (rect s')
          = Z.max 0 (Z.min (Rect.y (rect s)) (height - Rect.height (rect s)))
       /\ (0 <= Rect.height (rect s) <= height -> inside_y height (rect s')))
  /\ (~ crosses_y height (rect s) ->
       Vector2.y (speed s') = Vector2.y (speed s)
       /\ Rect.y (rect s') = Rect.y (rect s))
  /\ Rect.width (rect s') = Rect.width (rect s)
  /\ Rect.height (rect s') = Rect.height (rect s).
Proof.
  intros Hb s'. subst s'. unfold step_bounce. rewrite Hb.
  set (s1 := bounce_x width s).
  destruct (bounce_x_keeps_vertical width s) as (Ky & Kh & Kv). fold s1 in Ky, Kh, Kv.
  assert (Cy : crosses_y height (rect s1) <-> crosses_y height (rect s)).
  { unfold crosses_y, Rect.top, Rect.bottom. rewrite Ky, Kh. tauto. }
  (* what the vertical step does to the horizontal data *)
  assert (Hx : Vector2.x (speed (bounce_y height s1)) = Vector2.x (speed s1)
               /\ Rect.x (rect (bounce_y height s1)) = Rect.x (rect s1)
               /\ Rect.width (rect (bounce_y height s1)) = Rect.width (rect s1)
               /\ Rect.height (rect (bounce_y height s1)) = Rect.height (rect s1)).
  { destruct (crosses_y_dec height (rect s1)) as [H|H].
    - destruct (bounce_y_fires height s1 H) as (_ & A & _ & B & C & D). auto.
    - rewrite (bounce_y_idle height s1 H). auto. }
  destruct Hx as (Xv & Xx & Xw & Xh).
  assert (Hw : Rect.width (rect s1) = Rect.width (rect s)
               /\ Rect.height (rect s1) = Rect.height (rect s)).
  { subst s1. destruct (crosses_x_dec width (rect s)) as [H|H].
    - destruct (bounce_x_fires width s H) as (_ & _ & _ & _ & C & D). auto.
    - rewrite (bounce_x_idle width s H). auto. }
  destruct Hw as (Ww & Wh).
  repeat apply conj.
  - intros H. destruct (bounce_x_fires width s H) as (A & _ & B & _).
    fold s1 in A, B. rewrite Xv, Xx. repeat split; auto.
    + unfold Rect.left. rewrite Xx, B. lia.
    + unfold Rect.right. rewrite Xx, Xw, Ww, B. lia.
  - intros H. rewrite Xv, Xx. subst s1. rewrite (bounce_x_idle width s H). auto.
  - intros H. apply Cy in H.
    destruct (bounce_y_fires height s1 H) as (A & _ & B & _).
    rewrite A, B, Kv, Ky, Kh. repeat split; auto.
    + unfold Rect.top. rewrite B, Ky, Kh. lia.
    + unfold Rect.bottom. rewrite Xh, Wh, B, Ky, Kh. lia.
  - intros H. rewrite <- Cy in H. rewrite (bounce_y_idle height s1 H). auto.
  - congruence.
  - congruence.
Qed.

(** The scenario of the specification: the sprite (0,0,10,10) moving at
    (100,0) in a window 50 wide has crossed the right bound after one
    second; it comes back to x = 40 with velocity -100. *)
Lemma C5_witness :
  let s := step_move 1 (set_bounce true
             (GameSprite_init None (Rect.mk 0 0 10 10) blue (100, 0)%Q None)) in
  bounce s = true
  /\ crosses_x 50 (rect s)
  /\ (Vector2.x (speed (step_bounce 50 40 s)) == - (100))%Q
  /\ Rect.x (rect (step_bounce 50 40 s)) = 40
  /\ inside_x 50 (rect (step_bounce 50 40 s)).
Proof.
  intros s. split; [reflexivity|].
  assert (Hc : crosses_x 50 (rect s)) by (right; reflexivity).
  split; [exact Hc|].
  destruct (C5_edge_bounce 50 40 s eq_refl) as (Hx & _).
  destruct (Hx Hc) as (A & B & C).
  split; [|split].
  - rewrite A. reflexivity.
  - rewrite B. reflexivity.
  - apply C. simpl. lia.
Defined.

(** The same scenario through the whole physics pass, for any window
    height. *)
Lemma bounce_scenario (height : Z) :
  let g' := fst (physics_loop demo_sqrt 1 50 height
                   (_sprites bounce_game) bounce_game) in
  Rect.x ∘ rect <$> heap g' !! 0%nat = Some 40
  /\ Vector2.x ∘ speed <$> heap g' !! 0%nat = Some (-100)%Q.
Proof.
  intros g'. subst g'.
  set (s0 := set_bounce true
               (GameSprite_init None (Rect.mk 0 0 10 10) blue (100, 0)%Q None)).
  assert (H : heap bounce_game !! 0%nat = Some s0) by reflexivity.
  replace (physics_loop demo_sqrt 1 50 height (_sprites bounce_game) bounce_game)
    with (physics_sprite demo_sqrt 1 50 height 0%nat bounce_game,
          [@EvPhysics DemoCb 0%nat]) by reflexivity.
  cbn [fst]. rewrite (physics_sprite_insert demo_sqrt 1 50 height _ _ s0 H).
  cbn [heap set_heap]. rewrite list_lookup_insert_eq by (simpl; lia).
  set (s1 := before_landing demo_sqrt (heap bounce_game) 1 50 height s0).
  destruct (before_landing_fields demo_sqrt (heap bounce_game) 1 50 height s0)
    as ((_ & _ & L & _ & _ & G & _) & _). fold s1 in L, G.
  rewrite platforms_sprite_no_gravity by (rewrite G; reflexivity).
  rewrite step_lifetime_none by (rewrite L; reflexivity).
  subst s1. unfold before_landing, step_bounce.
  set (sm := step_move 1 (step_gravity 1
                            (follow_sprite demo_sqrt (heap bounce_game) 1 s0))).
  replace (bounce sm) with true by reflexivity.
  destruct (bounce_y_keeps_horizontal height (bounce_x 50 sm)) as (Kx & _ & Kv).
  cbn [fmap option_fmap option_map compose]. rewrite Kx, Kv.
  split; reflexivity.
Qed.

(** C5 as stated fails for a sprite wider than the window: the clamp
    leaves it at x = 0 with its right edge at 60, outside a window 50
    wide. *)
Lemma C5_counterexample :
  let g' := fst (physics_loop demo_sqrt 1 50 40
                   (_sprites wide_bounce_game) wide_bounce_game) in
  (bounce <$> heap wide_bounce_game !! 0%nat = Some true)
  /\ (Rect.right ∘ rect ∘ step_move 1 <$> heap wide_bounce_game !! 0%nat
      = Some 160)
  /\ (Rect.x ∘ rect <$> heap g' !! 0%nat = Some 0)
  /\ (Rect.right ∘ rect <$> heap g' !! 0%nat = Some 60)
  /\ ~ (forall s, heap g' !! 0%nat = Some s -> inside_x 50 (rect s)).
Proof.
  repeat split.
  intros H. specialize (H _ eq_refl). destruct H as [_ H].
  vm_compute in H. apply H. reflexivity.
Qed.

(** ** Platform landing *)

Lemma Qleb_true (a b : Q) : Qleb a b = true <-> (a <= b)%Q.
Proof.
  unfold Qleb. destruct (Qlt_le_dec b a) as [H|H]; split; intros H'; auto.
  - discriminate.
  - exfalso. apply (Qlt_not_le _ _ H H').
Qed.

Lemma Qleb_false (a b : Q) : Qleb a b = false <-> (b < a)%Q.
Proof.
  unfold Qleb. destruct (Qlt_le_dec b a) as [H|H]; split; intros H'; auto.
  - discriminate.
  - exfalso. apply (Qlt_not_le _ _ H' H).
Qed.









(** ** The on-ground flag *)





(** ** The physics pass over the registry *)

Lemma list_remove_subset (x r : ref) (l : list ref) :
  r ∈ list_remove x l -> r ∈ l.
Proof.
  induction l as [|y l IH]; simpl; [auto|].
  destruct (y =? x)%nat.
  - intros H. now apply list_elem_of_further.
  - rewrite !elem_of_cons. intros [->|H]; auto.
Qed.

Lemma list_remove_other (x r : ref) (l : list ref) :
  r <> x -> r ∈ l -> r ∈ list_remove x l.
Proof.
  intros Hne. induction l as [|y l IH]; simpl; [auto|].
  destruct (y =? x)%nat eqn:E.
  - apply Nat.eqb_eq in E. subst y. rewrite elem_of_cons.
    intros [->|H]; [contradiction|exact H].
  - rewrite !elem_of_cons. intros [->|H]; auto.
Qed.

Lemma list_remove_NoDup (x : ref) (l : list ref) :
  NoDup l -> NoDup (list_remove x l) /\ x ∉ list_remove x l.
Proof.
  induction 1 as [|y l Hy ND IH]; simpl.
  - split; [constructor|]. apply not_elem_of_nil.
  - destruct (y =? x)%nat eqn:E.
    + apply Nat.eqb_eq in E. subst y. auto.
    + apply Nat.eqb_neq in E. destruct IH as [IH1 IH2]. split.
      * constructor; [|exact IH1]. intros H. apply Hy.
        now apply list_remove_subset in H.
      * rewrite elem_of_cons. intros [->|H]; [congruence|contradiction].
Qed.

Lemma step_lifetime_congr dt s1 s2 :
  lifetime s1 = lifetime s2 -> _age s1 = _age s2 -> alive s1 = alive s2 ->
  lifetime (step_lifetime dt s1) = lifetime (step_lifetime dt s2)
  /\ _age (step_lifetime dt s1) = _age (step_lifetime dt s2)
  /\ alive (step_lifetime dt s1) = alive (step_lifetime dt s2).
Proof.
  intros L A V. unfold step_lifetime. rewrite L.
  destruct (lifetime s2) as [l|] eqn:L2; [|repeat split; congruence].
  simpl. rewrite A.
  destruct (Qleb l (fadd (_age s2) dt)); simpl; repeat split; congruence.
Qed.

Section Pass.
Context {Cb U : Type}.
Variable sqrt : Q -> Q.
Variables (dt : Q) (width height : Z).
Implicit Types (g : @Game Cb U) (s : GameSprite) (spr r : ref).

Lemma physics_sprite_aged spr g s :
  heap g !! spr = Some s ->
  exists s', heap (physics_sprite sqrt dt width height spr g) !! spr = Some s'
             /\ aged dt s s'.
Proof.
  intros H. rewrite (physics_sprite_insert sqrt dt width height spr g s H).
  cbn [heap set_heap].
  rewrite list_lookup_insert_eq by (now apply lookup_lt_Some in H).
  eexists. split; [reflexivity|].
  set (s1 := before_landing sqrt (heap g) dt width height s).
  destruct (before_landing_fields sqrt (heap g) dt width height s)
    as ((_ & _ & L1 & _) & V1 & A1 & _). fold s1 in L1, V1, A1.
  set (s2 := platforms_sprite (<[spr:=s1]> (heap g)) (_platforms g) s1).
  destruct (platforms_sprite_fields (<[spr:=s1]> (heap g)) (_platforms g) s1)
    as ((_ & _ & L2 & _) & V2 & A2 & _). fold s2 in L2, V2, A2.
  destruct (step_lifetime_congr dt s2 s) as (L & A & V); try congruence.
  destruct (step_lifetime_fields dt s) as ((_ & _ & L0 & _) & _).
  cbv zeta in L0. unfold aged. repeat split; congruence.
Qed.

Lemma physics_sprite_other spr g s r :
  heap g !! spr = Some s -> r <> spr ->
  heap (physics_sprite sqrt dt width height spr g) !! r = heap g !! r.
Proof.
  intros H Hne. rewrite (physics_sprite_insert sqrt dt width height spr g s H).
  cbn [heap set_heap]. now rewrite list_lookup_insert_ne by congruence.
Qed.

Lemma physics_sprite_shape spr g s :
  heap g !! spr = Some s ->
  exists hp, physics_sprite sqrt dt width height spr g = set_heap hp g.
Proof.
  intros H. rewrite (physics_sprite_insert sqrt dt width height spr g s H).
  eauto.
Qed.

(** One unfolding of the loop. *)
Lemma physics_loop_cons spr rest g :
  fst (physics_loop sqrt dt width height (spr :: rest) g)
  = match heap g !! spr with
    | None => fst (physics_loop sqrt dt width height rest g)
    | Some s =>
        if negb (alive s)
        then fst (physics_loop sqrt dt width height rest
                    (set_sprites (list_remove spr (_sprites g)) g))
        else fst (physics_loop sqrt dt width height rest
                    (physics_sprite sqrt dt width height spr g))
    end.
Proof.
  simpl. destruct (heap g !! spr) as [s|]; [|reflexivity].
  destruct (negb (alive s)).
  - now destruct (physics_loop sqrt dt width height rest _).
  - now destruct (physics_loop sqrt dt width height rest _).
Qed.

(** The pass writes the store and the registry, nothing else. *)
Lemma physics_loop_shape snapshot g :
  exists hp l,
    fst (physics_loop sqrt dt width height snapshot g)
    = set_sprites l (set_heap hp g).
Proof.
  revert g. induction snapshot as [|spr rest IH]; intros g.
  - exists (heap g), (_sprites g). now destruct g.
  - rewrite physics_loop_cons. destruct (heap g !! spr) as [s|] eqn:H; [|apply IH].
    destruct (negb (alive s)).
    + destruct (IH (set_sprites (list_remove spr (_sprites g)) g)) as (hp & l & E).
      rewrite E. eauto.
    + destruct (physics_sprite_shape spr g s H) as (hp0 & E0). rewrite E0.
      destruct (IH (set_heap hp0 g)) as (hp & l & E). rewrite E. eauto.
Qed.

(** What the pass does to the store: a sprite that is not in the snapshot
    or is not alive is left as it is, a live one is simulated once. *)
Lemma physics_loop_heap snapshot g :
  NoDup snapshot ->
  forall r s, heap g !! r = Some s ->
    (r ∉ snapshot \/ alive s = false ->
     heap (fst (physics_loop sqrt dt width height snapshot g)) !! r = Some s)
    /\ (r ∈ snapshot -> alive s = true ->
        exists s',
          heap (fst (physics_loop sqrt dt width height snapshot g)) !! r
          = Some s' /\ aged dt s s').
Proof.
  intros ND. revert g. induction ND as [|spr rest Hnotin ND IH]; intros g r s Hr.
  - split; [auto|]. intros H. now apply elem_of_nil in H.
  - rewrite physics_loop_cons.
    destruct (heap g !! spr) as [sx|] eqn:Hx.
    + destruct (alive sx) eqn:Ax; simpl.
      * (* spr is simulated *)
        destruct (decide (r = spr)) as [->|Hne].
        -- rewrite Hr in Hx. injection Hx as <-.
           destruct (physics_sprite_aged spr g s Hr) as (s' & Hs' & Hag).
           destruct (IH _ spr s' Hs') as [Keep _].
           split.
           ++ intros [Hn|Hd]; [|congruence].
              exfalso. apply Hn. apply list_elem_of_here.
           ++ intros _ _. exists s'. split; [|exact Hag]. apply Keep. now left.
        -- assert (Hr' : heap (physics_sprite sqrt dt width height spr g) !! r
                         = Some s)
             by (now rewrite (physics_sprite_other spr g sx r Hx Hne)).
           destruct (IH _ r s Hr') as [Keep Sim]. split.
           ++ intros [Hn|Hd]; apply Keep; [left|now right].
              intros Hin. apply Hn. now apply list_elem_of_further.
           ++ intros Hin. apply Sim. apply elem_of_cons in Hin.
              destruct Hin; [contradiction|assumption].
      * (* spr is reaped *)
        destruct (IH (set_sprites (list_remove spr (_sprites g)) g) r s Hr)
          as [Keep Sim]. split.
        -- intros [Hn|Hd]; apply Keep; [left|now right].
           intros Hin. apply Hn. now apply list_elem_of_further.
        -- intros Hin Hal. apply Sim; [|exact Hal]. apply elem_of_cons in Hin.
           destruct Hin as [->|Hin]; [congruence|assumption].
    + destruct (IH g r s Hr) as [Keep Sim]. split.
      * intros [Hn|Hd]; apply Keep; [left|now right].
        intros Hin. apply Hn. now apply list_elem_of_further.
      * intros Hin. apply Sim. apply elem_of_cons in Hin.
        destruct Hin as [->|Hin]; [congruence|assumption].
Qed.

(** What the pass does to the registry. *)
Lemma physics_loop_sprites snapshot g :
  NoDup snapshot ->
  let g' := fst (physics_loop sqrt dt width height snapshot g) in
  (forall r, r ∈ _sprites g' -> r ∈ _sprites g)
  /\ (forall r, r ∈ _sprites g -> ~ (r ∈ snapshot /\ dead g r) ->
                r ∈ _sprites g')
  /\ (NoDup (_sprites g) ->
      NoDup (_sprites g')
      /\ forall r, r ∈ snapshot -> dead g r -> r ∉ _sprites g').
Proof.
  intros ND. revert g. induction ND as [|spr rest Hnotin ND IH]; intros g g'.
  - subst g'. simpl. split; [auto|]. split; [auto|].
    intros NDg. split; [exact NDg|].
    intros r Hin. now apply elem_of_nil in Hin.
  - subst g'. rewrite physics_loop_cons.
    destruct (heap g !! spr) as [sx|] eqn:Hx.
    + destruct (alive sx) eqn:Ax; simpl.
      * (* simulated: the registry is untouched, and so is every other
           object *)
        destruct (physics_sprite_shape spr g sx Hx) as (hp0 & E0).
        pose proof (IH (physics_sprite sqrt dt width height spr g)) as IHg.
        cbv zeta in IHg. destruct IHg as (Sub & Stay & Dup).
        assert (Reg : _sprites (physics_sprite sqrt dt width height spr g)
                      = _sprites g) by (now rewrite E0).
        rewrite Reg in *.
        assert (Dead : forall r, r ∈ rest ->
                   dead (physics_sprite sqrt dt width height spr g) r <->
                   dead g r).
        { intros r Hin. unfold dead.
          assert (r <> spr) by (intros ->; contradiction).
          now rewrite (physics_sprite_other spr g sx r Hx). }
        split; [exact Sub|]. split.
        -- intros r Hin Hnd. apply Stay; [exact Hin|].
           intros [Hr Hd]. apply Hnd. split.
           ++ now apply list_elem_of_further.
           ++ now apply Dead.
        -- intros NDg. destruct (Dup NDg) as [D1 D2]. split; [exact D1|].
           intros r Hin Hd. apply elem_of_cons in Hin.
           destruct Hin as [->|Hin].
           ++ destruct Hd as (s0 & Hs0 & Hal). congruence.
           ++ apply D2; [assumption|]. now apply Dead.
      * (* reaped *)
        pose proof (IH (set_sprites (list_remove spr (_sprites g)) g)) as IHg.
        cbv zeta in IHg. destruct IHg as (Sub & Stay & Dup).
        cbn [_sprites set_sprites] in *.
        split; [|split].
        -- intros r Hin. eapply list_remove_subset. apply Sub. exact Hin.
        -- intros r Hin Hnd. apply Stay.
           ++ apply list_remove_other; [|exact Hin]. intros ->. apply Hnd.
              split; [apply list_elem_of_here|]. exists sx. auto.
           ++ intros [Hr Hd]. apply Hnd. split.
              ** now apply list_elem_of_further.
              ** exact Hd.
        -- intros NDg. destruct (list_remove_NoDup spr _ NDg) as [N1 N2].
           destruct (Dup N1) as [D1 D2]. split; [exact D1|].
           intros r Hin Hd. apply elem_of_cons in Hin. destruct Hin as [->|Hin].
           ++ intros Hin'. apply N2. now apply Sub.
           ++ now apply D2.
    + pose proof (IH g) as IHg. cbv zeta in IHg.
      destruct IHg as (Sub & Stay & Dup). split; [exact Sub|]. split.
      * intros r Hin Hnd. apply Stay; [exact Hin|]. intros [Hr Hd].
        apply Hnd. split; [now apply list_elem_of_further|exact Hd].
      * intros NDg. destruct (Dup NDg) as [D1 D2]. split; [exact D1|].
        intros r Hin Hd. apply elem_of_cons in Hin.
        destruct Hin as [->|Hin].
        -- destruct Hd as (s0 & Hs0 & _). congruence.
        -- now apply D2.
Qed.

End Pass.

(** ** Lifetime *)

Section Lifetime.
Context {Cb U : Type}.
Variable sqrt : Q -> Q.
Variables (width height : Z).
Implicit Types (g : @Game Cb U) (s : GameSprite) (spr r : ref).

(** One pass over a live sprite with a lifetime. *)
Lemma physics_pass_live dt g spr s (L : Q) :
  NoDup (_sprites g) -> spr ∈ _sprites g ->
  heap g !! spr = Some s -> alive s = true -> lifetime s = Some L ->
  exists s',
    heap (physics_pass sqrt width height dt g) !! spr = Some s'
    /\ lifetime s' = Some L
    /\ _age s' = fadd (_age s) dt
    /\ alive s' = negb (Qleb L (fadd (_age s) dt))
    /\ spr ∈ _sprites (physics_pass sqrt width height dt g)
    /\ NoDup (_sprites (physics_pass sqrt width height dt g)).
Proof.
  intros ND Hin Hs Hal Hl. unfold physics_pass.
  destruct (physics_loop_heap sqrt dt width height (_sprites g) g ND spr s Hs)
    as [_ Sim].
  destruct (Sim Hin Hal) as (s' & Hs' & HL & HA & HV).
  destruct (physics_loop_sprites sqrt dt width height (_sprites g) g ND)
    as (_ & Stay & Dup).
  assert (Hin' : spr ∈ _sprites (fst (physics_loop sqrt dt width height
                                          (_sprites g) g))).
  { apply Stay; [exact Hin|]. intros [_ (s0 & Hs0 & Hd)]. congruence. }
  assert (ND' : NoDup (_sprites (fst (physics_loop sqrt dt width height
                                         (_sprites g) g))))
    by (now apply Dup).
  exists s'. split; [exact Hs'|].
  unfold step_lifetime in HA, HV. rewrite Hl in HA, HV. simpl in HA, HV.
  destruct (Qleb L (fadd (_age s) dt)); simpl in HA, HV; simpl;
    repeat split; first [congruence | assumption].
Qed.

(** One pass over a sprite that is marked not alive. *)
Lemma physics_pass_dead dt g spr s :
  NoDup (_sprites g) -> spr ∈ _sprites g ->
  heap g !! spr = Some s -> alive s = false ->
  (spr ∉ _sprites (physics_pass sqrt width height dt g))
  /\ heap (physics_pass sqrt width height dt g) !! spr = Some s.
Proof.
  intros ND Hin Hs Hal. unfold physics_pass.
  destruct (physics_loop_heap sqrt dt width height (_sprites g) g ND spr s Hs)
    as [Keep _].
  destruct (physics_loop_sprites sqrt dt width height (_sprites g) g ND)
    as (_ & _ & Dup).
  split.
  - apply (Dup ND); [exact Hin|]. exists s. auto.
  - apply Keep. right. exact Hal.
Qed.

(** Frames during which the age stays below the lifetime. *)
Lemma physics_frames_live dts g spr s (L : Q) :
  NoDup (_sprites g) -> spr ∈ _sprites g ->
  heap g !! spr = Some s -> alive s = true -> lifetime s = Some L ->
  Forall (fun a => (a < L)%Q) (ages (_age s) dts) ->
  exists s',
    heap (physics_frames sqrt width height dts g) !! spr = Some s'
    /\ lifetime s' = Some L
    /\ _age s' = fold_left fadd dts (_age s)
    /\ alive s' = true
    /\ spr ∈ _sprites (physics_frames sqrt width height dts g)
    /\ NoDup (_sprites (physics_frames sqrt width height dts g)).
Proof.
  revert g s. induction dts as [|dt dts IH]; intros g s ND Hin Hs Hal Hl Hages.
  - exists s. simpl. repeat split; auto.
  - simpl in Hages. apply Forall_cons in Hages. destruct Hages as [Hlt Hrest].
    destruct (physics_pass_live dt g spr s L ND Hin Hs Hal Hl)
      as (s1 & Hs1 & Hl1 & Ha1 & Hv1 & Hin1 & ND1).
    apply Qleb_false in Hlt. rewrite Hlt in Hv1. simpl in Hv1.
    rewrite <- Ha1 in Hrest.
    destruct (IH _ s1 ND1 Hin1 Hs1 Hv1 Hl1 Hrest)
      as (s' & Hs' & Hl' & Ha' & Hv' & Hin' & ND').
    exists s'. simpl. rewrite <- Ha1. repeat split; auto.
Qed.

End Lifetime.

(** C6.  Take a live sprite of the registry with lifetime [L] (the
    registry holding each sprite once), and run physics passes with nothing
    else touching the sprite.  Its age grows by [dt] in every pass, by the
    float addition of the machine.  As long as the age stays below [L]
    (frames [dts]), the sprite is alive and still in the registry.  In the
    first pass that takes the age to [L] or beyond ([dt_last]) it is
    marked not alive, and is still in the registry at the end of that
    pass.  The pass of the following frame ([dt_next]) removes it from the
    registry. *)
Theorem C6_lifetime_expiry {Cb U : Type} (sqrt : Q -> Q) (width height : Z)
    (g : @Game Cb U) (spr : ref) (s : GameSprite) (L : Q)
    (dts : list Q) (dt_last dt_next : Q) :
  NoDup (_sprites g) -> spr ∈ _sprites g ->
  heap g !! spr = Some s -> alive s = true -> lifetime s = Some L ->
  Forall (fun a => (a < L)%Q) (ages (_age s) dts) ->
  (L <= fadd (fold_left fadd dts (_age s)) dt_last)%Q ->
  let g1 := physics_frames sqrt width height dts g in
  let g2 := physics_pass sqrt width height dt_last g1 in
  let g3 := physics_pass sqrt width height dt_next g2 in
  (exists s1, heap g1 !! spr = Some s1 /\ alive s1 = true
              /\ _age s1 = fold_left fadd dts (_age s)
              /\ spr ∈ _sprites g1)
  /\ (exists s2, heap g2 !! spr = Some s2 /\ alive s2 = false
                 /\ _age s2 = fadd (fold_left fadd dts (_age s)) dt_last
                 /\ spr ∈ _sprites g2)
  /\ spr ∉ _sprites g3.
Proof.
  intros ND Hin Hs Hal Hl Hages Hlast g1 g2 g3.
  destruct (physics_frames_live sqrt width height dts g spr s L
              ND Hin Hs Hal Hl Hages)
    as (s1 & Hs1 & Hl1 & Ha1 & Hv1 & Hin1 & ND1). fold g1 in Hs1, Hin1, ND1.
  destruct (physics_pass_live sqrt width height dt_last g1 spr s1 L
              ND1 Hin1 Hs1 Hv1 Hl1)
    as (s2 & Hs2 & Hl2 & Ha2 & Hv2 & Hin2 & ND2). fold g2 in Hs2, Hin2, ND2.
  rewrite Ha1 in Ha2, Hv2. apply Qleb_true in Hlast. rewrite Hlast in Hv2.
  simpl in Hv2.
  destruct (physics_pass_dead sqrt width height dt_next g2 spr s2
              ND2 Hin2 Hs2 Hv2) as [Hout _].
  split; [exists s1; auto|]. split; [exists s2; auto|]. exact Hout.
Qed.

(** A check of [a < L] for every age of a list. *)
Lemma Forall_Qlt_check (L : Q) (l : list Q) :
  forallb (fun a => Qnum a * QDen L <? Qnum L * QDen a) l = true ->
  Forall (fun a => (a < L)%Q) l.
Proof.
  induction l as [|a l IH]; intros H; [constructor|].
  simpl in H. apply andb_prop in H. destruct H as [Ha Hl].
  constructor; [|now apply IH]. unfold Qlt. now apply Z.ltb_lt.
Qed.

(** A projectile with a lifetime of two seconds at frames of 25 ms.
    Eighty frames make two seconds, but the age after eighty additions of
    0.025 is 1.9999999999999969: the projectile is alive after the
    eightieth frame, marked not alive in the eighty-first, and gone from
    the registry in the eighty-second. *)
Lemma C6_witness :
  let g1 := physics_frames demo_sqrt 640 480 eighty_frames shot_game in
  let g2 := physics_pass demo_sqrt 640 480 (25 # 1000) g1 in
  let g3 := physics_pass demo_sqrt 640 480 (25 # 1000) g2 in
  NoDup (_sprites shot_game) /\ 1%nat ∈ _sprites shot_game
  /\ heap shot_game !! 1%nat = Some shot
  /\ alive shot = true /\ lifetime shot = Some 2%Q
  /\ Forall (fun a => (a < 2)%Q) (ages (_age shot) eighty_frames)
  /\ (2 <= fadd (fold_left fadd eighty_frames (_age shot)) (25 # 1000))%Q
  /\ (fold_left Qplus eighty_frames 0 == 2)%Q
  /\ (fold_left fadd eighty_frames (_age shot) < 2)%Q
  /\ (exists s1, heap g1 !! 1%nat = Some s1 /\ alive s1 = true
                 /\ _age s1 = fold_left fadd eighty_frames (_age shot)
                 /\ 1%nat ∈ _sprites g1)
  /\ (exists s2, heap g2 !! 1%nat = Some s2 /\ alive s2 = false
                 /\ _age s2 = fadd (fold_left fadd eighty_frames (_age shot))
                                (25 # 1000)
                 /\ 1%nat ∈ _sprites g2)
  /\ 1%nat ∉ _sprites g3.
Proof.
  intros g1 g2 g3.
  assert (ND : NoDup (_sprites shot_game)).
  { change (_sprites shot_game) with [0%nat; 1%nat]. apply NoDup_ListNoDup.
    repeat constructor; simpl; lia. }
  assert (Hin : 1%nat ∈ _sprites shot_game).
  { change (_sprites shot_game) with [0%nat; 1%nat].
    apply list_elem_of_further, list_elem_of_here. }
  assert (Hs : heap shot_game !! 1%nat = Some shot) by reflexivity.
  assert (Hages : Forall (fun a => (a < 2)%Q) (ages (_age shot) eighty_frames)).
  { apply Forall_Qlt_check. vm_compute. reflexivity. }
  assert (Hlast : (2 <= fadd (fold_left fadd eighty_frames (_age shot))
                          (25 # 1000))%Q).
  { vm_compute. discriminate. }
  split; [exact ND|]. split; [exact Hin|]. split; [exact Hs|].
  split; [reflexivity|]. split; [reflexivity|]. split; [exact Hages|].
  split; [exact Hlast|]. split; [vm_compute; reflexivity|].
  split; [vm_compute; reflexivity|].
  exact (C6_lifetime_expiry demo_sqrt 640 480 shot_game 1%nat shot 2
           eighty_frames (25 # 1000) (25 # 1000)
           ND Hin Hs eq_refl eq_refl Hages Hlast).
Defined.

(** ** Sprite creation *)

Lemma truthy_nonempty (p : string) : p <> EmptyString -> truthy (Some p) = Some p.
Proof. destruct p; [congruence|reflexivity]. Qed.



(** ** Loops over live lists *)

Section Iteration.
Context {Cb U A : Type}.
Implicit Types (g : @Game Cb U) (t : list (@Event Cb)).

Lemma andthen_ret (p q : @Pass Cb U) g g' t :
  andthen p q g = Ret (g', t) <->
  exists g1 t1 t2, p g = Ret (g1, t1) /\ q g1 = Ret (g', t2) /\ t = t1 ++ t2.
Proof.
  unfold andthen, bind. split.
  - destruct (p g) as [[g1 t1]| |]; try discriminate.
    destruct (q g1) as [[g2 t2]| |] eqn:Hq; try discriminate.
    intros [= <- <-]. exists g1, t1, t2. auto.
  - intros (g1 & t1 & t2 & -> & -> & ->). reflexivity.
Qed.

Variable lst : @Game Cb U -> list A.
Variable body : nat -> A -> @Pass Cb U.

Lemma for_live_done fuel i g : lst g !! i = None -> for_live lst body fuel i g = Ret (g, []).
Proof. intros H. destruct fuel; simpl; now rewrite H. Qed.

Lemma for_live_step fuel i g a :
  lst g !! i = Some a ->
  for_live lst body (S fuel) i g
  = andthen (body i a) (for_live lst body fuel (S i)) g.
Proof. intros H. simpl. now rewrite H. Qed.

(** A property kept by every step is kept by the loop, and the events of
    the loop are events of its steps. *)
Lemma for_live_invariant (P : @Game Cb U -> Prop) (Q : @Event Cb -> Prop) :
  (forall i a g g' t, P g -> body i a g = Ret (g', t) -> P g' /\ Forall Q t) ->
  forall fuel i g g' t,
    P g -> for_live lst body fuel i g = Ret (g', t) -> P g' /\ Forall Q t.
Proof.
  intros Hstep. induction fuel as [|fuel IH]; intros i g g' t HP Hrun.
  - simpl in Hrun. destruct (lst g !! i); [discriminate|].
    injection Hrun as <- <-. auto.
  - destruct (lst g !! i) as [a|] eqn:Hi.
    + rewrite (for_live_step fuel i g a Hi) in Hrun.
      apply andthen_ret in Hrun. destruct Hrun as (g1 & t1 & t2 & Hb & Hr & ->).
      destruct (Hstep i a g g1 t1 HP Hb) as [HP1 HQ1].
      destruct (IH (S i) g1 g' t2 HP1 Hr) as [HP' HQ2].
      split; [exact HP'|]. apply Forall_app. auto.
    + rewrite (for_live_done _ i g Hi) in Hrun. injection Hrun as <- <-. auto.
Qed.

(** When the steps only ever append to the list, a completed loop has
    visited, in order, every entry of the list as it is at the end. *)
Lemma for_live_grows :
  (forall i a g g' t, body i a g = Ret (g', t) -> lst g `prefix_of` lst g') ->
  forall fuel i g g' t,
    for_live lst body fuel i g = Ret (g', t) ->
    lst g `prefix_of` lst g'
    /\ for_each body i (drop i (lst g')) g = Ret (g', t).
Proof.
  intros Hgrow. induction fuel as [|fuel IH]; intros i g g' t Hrun.
  - simpl in Hrun. destruct (lst g !! i) eqn:Hi; [discriminate|].
    injection Hrun as <- <-. split; [reflexivity|].
    rewrite drop_ge by (now apply lookup_ge_None). reflexivity.
  - destruct (lst g !! i) as [a|] eqn:Hi.
    + rewrite (for_live_step fuel i g a Hi) in Hrun.
      apply andthen_ret in Hrun. destruct Hrun as (g1 & t1 & t2 & Hb & Hr & ->).
      pose proof (Hgrow i a g g1 t1 Hb) as P1.
      destruct (IH (S i) g1 g' t2 Hr) as [P2 Hrest].
      assert (P : lst g `prefix_of` lst g') by (etrans; eassumption).
      split; [exact P|].
      rewrite (drop_S (lst g') a i) by (eapply prefix_lookup_Some; eassumption).
      simpl. apply andthen_ret. exists g1, t1, t2. auto.
    + rewrite (for_live_done _ i g Hi) in Hrun. injection Hrun as <- <-.
      split; [reflexivity|].
      rewrite drop_ge by (now apply lookup_ge_None). reflexivity.
Qed.

(** When the steps leave the list alone, fuel for the entries that remain
    is enough, and the loop is the loop over the fixed list. *)
Lemma for_live_stable :
  (forall i a g g' t, body i a g = Ret (g', t) -> lst g' = lst g) ->
  forall fuel i g,
    (length (lst g) - i <= fuel)%nat ->
    for_live lst body fuel i g = for_each body i (drop i (lst g)) g.
Proof.
  intros Hsame. induction fuel as [|fuel IH]; intros i g Hfuel.
  - assert (Hi : lst g !! i = None) by (apply lookup_ge_None; lia).
    rewrite (for_live_done _ i g Hi).
    rewrite drop_ge by (now apply lookup_ge_None). reflexivity.
  - destruct (lst g !! i) as [a|] eqn:Hi.
    + rewrite (for_live_step fuel i g a Hi), (drop_S (lst g) a i Hi). simpl.
      unfold andthen, bind. destruct (body i a g) as [[g1 t1]| |] eqn:Hb;
        try reflexivity.
      pose proof (Hsame i a g g1 t1 Hb) as E.
      rewrite IH by (rewrite E; lia). now rewrite E.
    + rewrite (for_live_done _ i g Hi).
      rewrite drop_ge by (now apply lookup_ge_None). reflexivity.
Qed.

End Iteration.

(** A loop whose body is one callback call per entry. *)
Lemma for_each_invoke {Cb U A : Type} (ev : A -> @Event Cb)
    (f : A -> @Game Cb U -> @Game Cb U) (l : list A) (i : nat) (g : @Game Cb U) :
  for_each (fun _ a => invoke (ev a) (f a)) i l g
  = Ret (fold_left (fun g a => f a g) l g, map ev l).
Proof.
  revert i g. induction l as [|a l IH]; intros i g; [reflexivity|].
  simpl. unfold andthen, bind, invoke. now rewrite IH.
Qed.

(** ** Restart *)

(** C8.  The restart branch first clears the sprite registry and the two
    transient command buffers and lowers the game-over flag, leaving every
    registration (key, click, overlap, post- and pre-physics hooks, on-start
    callbacks) as it was, and then calls every on-start callback, once each,
    in registration order.  The on-start callbacks are assumed not to
    register on-start callbacks themselves; [fuel] covers their number. *)
Theorem C8_restart_transition {Cb U : Type} (call0 : Cb -> @Game Cb U -> @Game Cb U)
    (fuel : nat) (g : @Game Cb U) :
  (forall fn g, _game_start_handlers (call0 fn g) = _game_start_handlers g) ->
  (length (_game_start_handlers g) <= fuel)%nat ->
  let g0 := reset_state g in
  (_sprites g0 = [] /\ _draw_commands g0 = [] /\ _text_commands g0 = []
   /\ _game_over_flag g0 = false)
  /\ (_key_handlers g0 = _key_handlers g
      /\ _click_handlers g0 = _click_handlers g
      /\ _overlap_handlers g0 = _overlap_handlers g
      /\ _update_handlers g0 = _update_handlers g
      /\ _game_update_handlers g0 = _game_update_handlers g
      /\ _game_start_handlers g0 = _game_start_handlers g)
  /\ restart call0 fuel g
     = Ret (fold_left (fun g fn => call0 fn g) (_game_start_handlers g) g0,
            map EvStart (_game_start_handlers g)).
Proof.
  intros Hsame Hfuel g0. split; [repeat split|]. split; [repeat split|].
  unfold restart, run_start_handlers. fold g0.
  rewrite for_live_stable.
  - rewrite drop_0. apply for_each_invoke.
  - intros i a g1 g' t. unfold invoke. intros [= <- _]. apply Hsame.
  - simpl. lia.
Qed.

Lemma demo_call0_keeps_start_handlers (fn : DemoCb) (g : DemoGame) :
  _game_start_handlers (demo_call0 fn g) = _game_start_handlers g.
Proof. destruct fn; reflexivity. Qed.

(** Restarting [lost_game]: its old sprite and its pending circle are
    gone, the flag is down, its hook is still registered, and the two
    on-start callbacks have run in order. *)
Lemma C8_witness :
  (forall fn g, _game_start_handlers (demo_call0 fn g) = _game_start_handlers g)
  /\ (length (_game_start_handlers lost_game) <= 2)%nat
  /\ _sprites lost_game = [0%nat]
  /\ _draw_commands lost_game = [(1, 2, 3)]
  /\ _sprites (reset_state lost_game) = []
  /\ _draw_commands (reset_state lost_game) = []
  /\ _update_handlers (reset_state lost_game) = [CbCount]
  /\ restart demo_call0 2 lost_game
     = Ret (demo_call0 CbCount (demo_call0 CbSpawn (reset_state lost_game)),
            [EvStart CbSpawn; EvStart CbCount]).
Proof.
  split; [exact demo_call0_keeps_start_handlers|].
  split; [simpl; lia|].
  destruct (C8_restart_transition demo_call0 2 lost_game
              demo_call0_keeps_start_handlers)
    as ((Hs & Hd & _) & (_ & _ & _ & Hu & _) & Hr); [simpl; lia|].
  split; [reflexivity|]. split; [reflexivity|].
  split; [exact Hs|]. split; [exact Hd|]. split; [exact Hu|]. exact Hr.
Defined.

(** ** The iteration in which the restart key is drained *)

Section RestartFrame.
Context {Cb U : Type}.
Variable call0 : Cb -> @Game Cb U -> @Game Cb U.

(** While the flag is up, events other than the restart key leave the
    state alone; a [QUIT] lowers [running].  The restart key ends the
    event loop. *)
Lemma event_loop_until_restart fuel pre post running (g : @Game Cb U) :
  _game_over_flag g = true ->
  Forall (fun e => is_restart_key e = false) pre ->
  event_loop call0 fuel (pre ++ KEYDOWN K_SPACE :: post) running g
  = bind (restart call0 fuel g)
      (fun '(g1, t1) =>
         Ret (running && forallb (fun e => negb (is_quit e)) pre, g1, t1)).
Proof.
  intros Hflag Hpre. revert running.
  induction Hpre as [|e pre He Hpre IH]; intros running.
  - simpl. rewrite Hflag. simpl. rewrite andb_true_r. reflexivity.
  - simpl. destruct e as [|key|pos|]; simpl.
    + rewrite IH. simpl. rewrite andb_false_r. reflexivity.
    + simpl in He. rewrite He, andb_false_r. apply IH.
    + rewrite Hflag. simpl. apply IH.
    + apply IH.
Qed.

End RestartFrame.

(** C2, as amended.  When the restart key is drained while the game-over
    flag is set (no earlier restart key in the same batch), the events
    after it are dropped, the reset and the on-start callbacks run, and,
    the flag now being down, the same iteration goes on with everything a
    normal iteration does: held-key dispatch, pre-physics hooks, physics
    step, overlap notification, post-physics hooks and the drawing of the
    freshly populated state. *)
Theorem C2_restart_iteration_simulates {Cb U : Type} (sqrt : Q -> Q)
    (text_width : string -> Z -> Z)
    (call0 : Cb -> @Game Cb U -> @Game Cb U)
    (call1 : Cb -> Q -> @Game Cb U -> @Game Cb U)
    (call2 : Cb -> ref -> ref -> @Game Cb U -> @Game Cb U)
    (fuel : nat) (width height ms : Z) (held : Z -> bool)
    (pre post : list PgEvent) (g g1 : @Game Cb U) (t1 : list (@Event Cb)) :
  _game_over_flag g = true ->
  Forall (fun e => is_restart_key e = false) pre ->
  restart call0 fuel (set_pressed held g) = Ret (g1, t1) ->
  _game_over_flag g1 = false ->
  frame sqrt text_width call0 call1 call2 fuel width height
    {| ticks := ms; events := pre ++ KEYDOWN K_SPACE :: post; keys := held |} g
  = bind (simulate sqrt call0 call1 call2 fuel (inject_Z ms / 1000)
            width height g1)
      (fun '(g2, t2) =>
         Ret (forallb (fun e => negb (is_quit e)) pre, g2, t1 ++ t2)).
Proof.
  intros Hflag Hpre Hrestart Hdown. unfold frame. cbn [events ticks keys].
  rewrite event_loop_until_restart by (exact Hflag || exact Hpre).
  rewrite Hrestart. cbn [bind andb]. unfold after_events. rewrite Hdown.
  reflexivity.
Qed.

(** In [lost_game], a click and then the space key arrive in one batch,
    followed by a [QUIT] that is dropped. *)
Lemma C2_witness :
  let g1 := demo_call0 CbCount
              (demo_call0 CbSpawn
                 (reset_state (set_pressed space_held lost_game))) in
  let t1 := [EvStart CbSpawn; EvStart CbCount] in
  _game_over_flag lost_game = true
  /\ Forall (fun e => is_restart_key e = false) [MOUSEBUTTONDOWN (1, 1)]
  /\ restart demo_call0 2 (set_pressed space_held lost_game) = Ret (g1, t1)
  /\ _game_over_flag g1 = false
  /\ frame demo_sqrt demo_text_width demo_call0 demo_call1 demo_call2 2 640 480
       {| ticks := 17;
          events := [MOUSEBUTTONDOWN (1, 1)] ++ KEYDOWN K_SPACE :: [QUIT];
          keys := space_held |} lost_game
     = bind (simulate demo_sqrt demo_call0 demo_call1 demo_call2 2
               (inject_Z 17 / 1000) 640 480 g1)
         (fun '(g2, t2) => Ret (true, g2, t1 ++ t2)).
Proof.
  intros g1 t1.
  assert (Hpre : Forall (fun e => is_restart_key e = false)
                   [MOUSEBUTTONDOWN (1, 1)]) by (repeat constructor).
  assert (Hflag : _game_over_flag lost_game = true) by (vm_compute; reflexivity).
  assert (Hrestart : restart demo_call0 2 (set_pressed space_held lost_game)
                     = Ret (g1, t1)) by (vm_compute; reflexivity).
  assert (Hdown : _game_over_flag g1 = false) by (vm_compute; reflexivity).
  split; [exact Hflag|]. split; [exact Hpre|].
  split; [exact Hrestart|]. split; [exact Hdown|].
  exact (C2_restart_iteration_simulates demo_sqrt demo_text_width demo_call0
           demo_call1 demo_call2 2 640 480 17 space_held
           [MOUSEBUTTONDOWN (1, 1)] [QUIT] lost_game g1 t1
           Hflag Hpre Hrestart Hdown).
Defined.

(** C2 as stated fails.  In [lost_game] the space key is drained with the
    flag set; the same iteration calls the space-key handler, the
    pre-physics hook, simulates the sprite the restart has just created
    (it moves from x = 0 to x = 1), calls the post-physics hook and draws. *)
Lemma C2_counterexample :
  _game_over_flag lost_game = true
  /\ exists g',
       frame demo_sqrt demo_text_width demo_call0 demo_call1 demo_call2 2
         640 480
         {| ticks := 17; events := [KEYDOWN K_SPACE]; keys := space_held |}
         lost_game
       = Ret (true, g',
              [EvStart CbSpawn; EvStart CbCount;
               EvKey K_SPACE CbNop;
               EvGameUpdate (UserFn CbNop) (inject_Z 17 / 1000);
               EvPhysics 1%nat;
               EvUpdate CbCount;
               EvDraw (Fill (0, 0, 0));
               EvDrawSprite 1%nat (DrawRect blue (Rect.mk 1 0 10 10));
               EvDraw Flip])
       /\ Rect.x ∘ rect <$> heap g' !! 1%nat = Some 1.
Proof.
  split; [vm_compute; reflexivity|]. eexists.
  split; [vm_compute; reflexivity|]. vm_compute. reflexivity.
Qed.

(** ** The overlap notifier *)

Lemma calls_of_app {Cb : Type} (i : nat) (t1 t2 : list (@Event Cb)) :
  calls_of i (t1 ++ t2) = (calls_of i t1 + calls_of i t2)%nat.
Proof.
  induction t1 as [|ev t1 IH]; [reflexivity|]. simpl.
  destruct ev; try exact IH. destruct (_ =? i)%nat; simpl; now rewrite IH.
Qed.

Lemma calls_of_outside {Cb : Type} (i lo hi : nat) (t : list (@Event Cb)) :
  Forall (index_in lo hi) t -> (i < lo \/ hi <= i)%nat -> calls_of i t = O.
Proof.
  intros Hall Hout. induction Hall as [|ev t Hev Hall IH]; [reflexivity|].
  simpl. destruct ev; simpl in Hev; try contradiction.
  destruct (Nat.eqb_spec i0 i); [lia|exact IH].
Qed.

Lemma index_in_weaken {Cb : Type} (lo hi lo' hi' : nat) (t : list (@Event Cb)) :
  (lo' <= lo)%nat -> (hi <= hi')%nat ->
  Forall (index_in lo hi) t -> Forall (index_in lo' hi') t.
Proof.
  intros H1 H2 Hall. eapply Forall_impl; [exact Hall|].
  intros ev. destruct ev; simpl; auto. lia.
Qed.

Lemma for_each_app {Cb U A : Type} (body : nat -> A -> @Pass Cb U)
    (l1 l2 : list A) (i : nat) (g : @Game Cb U) :
  for_each body i (l1 ++ l2) g
  = andthen (for_each body i l1) (for_each body (i + length l1) l2) g.
Proof.
  revert i g. induction l1 as [|a l1 IH]; intros i g.
  - simpl. rewrite Nat.add_0_r. unfold andthen, skip, bind.
    destruct (for_each body i l2 g) as [[g2 t2]| |]; reflexivity.
  - cbn [app for_each length].
    replace (i + S (length l1))%nat with (S i + length l1)%nat by lia.
    unfold andthen at 1 2 3. unfold bind.
    destruct (body i a g) as [[g1 t1]| |] eqn:Hb; try reflexivity.
    rewrite IH. unfold andthen, bind.
    destruct (for_each body (S i) l1 g1) as [[g2 t2]| |] eqn:H1;
      try reflexivity.
    destruct (for_each body (S i + length l1) l2 g2) as [[g3 t3]| |] eqn:H2;
      try reflexivity.
    now rewrite app_assoc.
Qed.

Section Overlap.
Context {Cb U : Type}.
Variable call2 : Cb -> ref -> ref -> @Game Cb U -> @Game Cb U.
Implicit Types (g : @Game Cb U).

(** One triple: called once when both sprites are alive and their
    rectangles collide, not called otherwise. *)
Lemma overlap_body_run i a b fn g :
  overlap_body call2 i (a, b, fn) g
  = if overlapping a b g
    then Ret (call2 fn a b g, [EvOverlap i a b fn])
    else Ret (g, []).
Proof. unfold overlap_body. now destruct (overlapping a b g). Qed.

(** The loop over a fixed list of triples completes, and its events are
    calls for the positions it went through. *)
Lemma for_each_overlap_run (l : list (ref * ref * Cb)) i g :
  exists g' t,
    for_each (overlap_body call2) i l g = Ret (g', t)
    /\ Forall (index_in i (i + length l)) t.
Proof.
  revert i g. induction l as [|[[a b] fn] l IH]; intros i g.
  - exists g, []. split; [reflexivity|constructor].
  - cbn [for_each]. unfold andthen, bind. rewrite overlap_body_run.
    destruct (overlapping a b g).
    + destruct (IH (S i) (call2 fn a b g)) as (g' & t & -> & Hall).
      exists g', ([EvOverlap i a b fn] ++ t). split; [reflexivity|].
      simpl. constructor; [simpl; lia|].
      eapply index_in_weaken; [| |exact Hall]; simpl; lia.
    + destruct (IH (S i) g) as (g' & t & -> & Hall).
      exists g', t. split; [reflexivity|].
      eapply index_in_weaken; [| |exact Hall]; simpl; lia.
Qed.

End Overlap.

(** *** Sprites that do not move *)

Lemma step_move_stationary dt s :
  (Vector2.x (speed s) == 0)%Q -> (Vector2.y (speed s) == 0)%Q ->
  step_move dt s = s.
Proof.
  intros Hx Hy. destruct s as [im [x y w h] c v l a f b al gr og cs].
  unfold step_move, with_rect, Rect.iadd_x, Rect.iadd_y, Rect.set_x, Rect.set_y.
  simpl in *.
  rewrite (Qtrunc_add_zero x), (Qtrunc_add_zero y); [reflexivity| |].
  - rewrite Hy. ring.
  - rewrite Hx. ring.
Qed.

Section Stationary.
Context {Cb U : Type}.
Variable sqrt : Q -> Q.
Variables (dt : Q) (width height : Z).
Implicit Types (g : @Game Cb U) (s : GameSprite) (spr r : ref).

Lemma physics_sprite_stationary spr g s :
  heap g !! spr = Some s -> stationary s ->
  physics_sprite sqrt dt width height spr g = g.
Proof.
  intros H (Hf & Hg & Hl & Hb & Hx & Hy).
  rewrite (physics_sprite_insert sqrt dt width height spr g s H).
  assert (E : before_landing sqrt (heap g) dt width height s = s).
  { unfold before_landing, follow_sprite, step_gravity. rewrite Hf, Hg.
    rewrite (step_move_stationary dt s Hx Hy). unfold step_bounce.
    now rewrite Hb. }
  rewrite E, (platforms_sprite_no_gravity _ _ s Hg), (step_lifetime_none dt s Hl).
  rewrite (insert_same (heap g) spr s H). apply set_heap_id.
Qed.

Lemma physics_loop_stationary snapshot g :
  (forall r, r ∈ snapshot ->
     exists s, heap g !! r = Some s /\ alive s = true /\ stationary s) ->
  physics_loop sqrt dt width height snapshot g = (g, map EvPhysics snapshot).
Proof.
  induction snapshot as [|spr rest IH]; intros Hall; [reflexivity|].
  destruct (Hall spr (list_elem_of_here _ _)) as (s & Hs & Hal & Hst).
  simpl. rewrite Hs, Hal. simpl.
  rewrite (physics_sprite_stationary spr g s Hs Hst).
  rewrite IH; [reflexivity|].
  intros r Hr. apply Hall. now apply list_elem_of_further.
Qed.

End Stationary.

(** *** The condition of the notifier, in coordinates *)

Lemma colliderect_spec (ra rb : Rect.t) :
  Rect.colliderect ra rb = true <-> share_pixel ra rb.
Proof.
  destruct ra as [xa ya wa ha], rb as [xb yb wb hb].
  unfold Rect.colliderect, share_pixel, covers.
  cbn [Rect.x Rect.y Rect.width Rect.height].
  destruct (Z.eqb_spec wa 0) as [Ewa|Ewa];
    [split; [discriminate|intros (px & py & H1 & H2); lia]|].
  destruct (Z.eqb_spec ha 0) as [Eha|Eha];
    [split; [discriminate|intros (px & py & H1 & H2); lia]|].
  destruct (Z.eqb_spec wb 0) as [Ewb|Ewb];
    [split; [discriminate|intros (px & py & H1 & H2); lia]|].
  destruct (Z.eqb_spec hb 0) as [Ehb|Ehb];
    [split; [discriminate|intros (px & py & H1 & H2); lia]|].
  cbn [orb]. rewrite !andb_true_iff, !Z.ltb_lt, !Z.gtb_lt. split.
  - intros (((H1 & H2) & H3) & H4).
    exists (Z.max (Z.min xa (xa + wa)) (Z.min xb (xb + wb))),
           (Z.max (Z.min ya (ya + ha)) (Z.min yb (yb + hb))).
    lia.
  - intros (px & py & H1 & H2). lia.
Qed.

Lemma overlapping_spec {Cb U : Type} (g : @Game Cb U) (a b : ref) :
  overlapping a b g = true <-> in_contact g a b.
Proof.
  unfold overlapping, in_contact. split.
  - destruct (heap g !! a) as [sa|]; [|discriminate].
    destruct (heap g !! b) as [sb|]; [|discriminate].
    rewrite !andb_true_iff, colliderect_spec. intros [[Ha Hb] Hc].
    exists sa, sb. auto.
  - intros (sa & sb & -> & -> & Ha & Hb & Hc).
    rewrite Ha, Hb. now apply colliderect_spec.
Qed.

(** *** Two sprites that do not move, frame after frame *)

Lemma overlap_game_is_a_pair :
  overlap_game = pair_game (Rect.mk 0 0 10 10) (Rect.mk 5 5 10 10).
Proof. reflexivity. Qed.

Lemma pair_game_stationary (ra rb : Rect.t) (k : Z) (r : ref) :
  r ∈ _sprites (set_user k (pair_game ra rb)) ->
  exists s, heap (set_user k (pair_game ra rb)) !! r = Some s
            /\ alive s = true /\ stationary s.
Proof.
  change (_sprites (set_user k (pair_game ra rb))) with [0%nat; 1%nat].
  intros Hr. apply elem_of_cons in Hr. destruct Hr as [->|Hr].
  - eexists. split; [reflexivity|]. repeat split.
  - apply list_elem_of_singleton in Hr. subst r.
    eexists. split; [reflexivity|]. repeat split.
Qed.

(** The parts of a frame that leave the pair as it is. *)
Lemma pair_game_facts (ra rb : Rect.t) (k : Z) :
  let g := set_user k (pair_game ra rb) in
  set_pressed (fun _ => false) g = g
  /\ _game_over_flag g = false
  /\ _sprites g = [0%nat; 1%nat]
  /\ _overlap_handlers g = [(0%nat, 1%nat, CbCount)]
  /\ overlapping 0 1 g = Rect.colliderect ra rb
  /\ demo_call2 CbCount 0%nat 1%nat g = set_user (k + 1) (pair_game ra rb)
  /\ (forall fuel, key_dispatch demo_call0 (S fuel) g = Ret (g, []))
  /\ (forall fuel dt,
        game_update_dispatch demo_call1 (S fuel) dt g = Ret (g, []))
  /\ (forall fuel, update_dispatch demo_call0 (S fuel) g = Ret (g, []))
  /\ (exists d, draw 640 480 g = Ret (g, d) /\ calls_of 0 d = 0%nat).
Proof.
  cbv zeta.
  split; [vm_compute; reflexivity|]. split; [vm_compute; reflexivity|].
  split; [vm_compute; reflexivity|]. split; [vm_compute; reflexivity|].
  split; [vm_compute; reflexivity|]. split; [vm_compute; reflexivity|].
  split; [intros; vm_compute; reflexivity|].
  split; [intros; apply for_live_done; vm_compute; reflexivity|].
  split; [intros; apply for_live_done; vm_compute; reflexivity|].
  eexists. split; [vm_compute; reflexivity|]. vm_compute. reflexivity.
Qed.

(** One frame without input: the counter goes up by one if the two
    rectangles collide, and nothing else changes. *)
Lemma pair_game_frame (ra rb : Rect.t) (fuel : nat) (ms k : Z) :
  let c := if Rect.colliderect ra rb then 1%nat else 0%nat in
  exists t,
    frame demo_sqrt demo_text_width demo_call0 demo_call1 demo_call2 (S fuel)
      640 480 (no_input ms) (set_user k (pair_game ra rb))
    = Ret (true, set_user (k + Z.of_nat c) (pair_game ra rb), t)
    /\ calls_of 0 t = c.
Proof.
  intros c.
  destruct (pair_game_facts ra rb k)
    as (Hp & Hf & Hs & Ho & Hov & Hc & K & G & _ & _).
  cbv zeta in Hp, Hf, Hs, Ho, Hov, Hc, K, G.
  destruct (pair_game_facts ra rb (k + Z.of_nat c))
    as (_ & _ & _ & _ & _ & _ & _ & _ & Up & d & D & Dc).
  cbv zeta in Up, D.
  unfold frame. cbn [events no_input keys ticks]. rewrite Hp.
  cbn [event_loop bind]. unfold after_events. rewrite Hf.
  unfold simulate.
  set (g := set_user k (pair_game ra rb)) in *.
  assert (P : physics demo_sqrt (inject_Z ms / 1000) 640 480 g
              = Ret (g, [EvPhysics 0%nat; EvPhysics 1%nat])).
  { unfold physics.
    rewrite physics_loop_stationary by (apply pair_game_stationary).
    now rewrite Hs. }
  assert (O : overlap_dispatch demo_call2 (S fuel) g
              = Ret (set_user (k + Z.of_nat c) (pair_game ra rb),
                     if Rect.colliderect ra rb
                     then [EvOverlap 0 0%nat 1%nat CbCount] else [])).
  { unfold overlap_dispatch.
    assert (H0 : _overlap_handlers g !! 0%nat = Some (0%nat, 1%nat, CbCount))
      by now rewrite Ho.
    rewrite (for_live_step _overlap_handlers (overlap_body demo_call2) fuel 0 g
               (0%nat, 1%nat, CbCount) H0).
    unfold andthen. rewrite overlap_body_run, Hov.
    subst c. destruct (Rect.colliderect ra rb); cbn [bind].
    - rewrite Hc. rewrite for_live_done by reflexivity. reflexivity.
    - rewrite for_live_done by now rewrite Ho. cbn [bind Z.of_nat].
      now rewrite Z.add_0_r. }
  unfold andthen. rewrite K. cbn [bind]. rewrite G. cbn [bind].
  rewrite P. cbn [bind]. rewrite O. cbn [bind]. rewrite Up. cbn [bind].
  rewrite D. cbn [bind app]. eexists. split; [reflexivity|].
  cbn [calls_of]. rewrite calls_of_app, Dc.
  subst c. now destruct (Rect.colliderect ra rb).
Qed.

Lemma pair_game_frames (ra rb : Rect.t) (fuel : nat) (ticks : list Z) (k : Z) :
  let c := if Rect.colliderect ra rb then 1%nat else 0%nat in
  exists g' t,
    main_loop demo_sqrt demo_text_width demo_call0 demo_call1 demo_call2
      (S fuel) 640 480 (map no_input ticks) (set_user k (pair_game ra rb))
    = Ret (g', t)
    /\ user g' = k + Z.of_nat (length ticks * c)
    /\ calls_of 0 t = (length ticks * c)%nat.
Proof.
  intros c. revert k. induction ticks as [|ms ticks IH]; intros k.
  - eexists _, _. split; [reflexivity|]. split; [simpl; lia|reflexivity].
  - destruct (pair_game_frame ra rb fuel ms k) as (t1 & Hf & Hc). fold c in Hf, Hc.
    destruct (IH (k + Z.of_nat c)) as (g' & t2 & Hm & Hu & Hc2).
    exists g', (t1 ++ t2). cbn [map main_loop]. rewrite Hf. cbn [bind].
    rewrite Hm. cbn [bind]. split; [reflexivity|].
    split.
    + rewrite Hu. cbn [length]. lia.
    + rewrite calls_of_app, Hc, Hc2. cbn [length]. lia.
Qed.

(** C7.  Assume the overlap callbacks do not register overlap triples
    while the notifier runs, and give the loop fuel for the registered
    triples.  Then the notifier completes, and for every registered triple
    [(a, b, fn)], at position [i]: let [gi] be the state reached after the
    earlier triples have been handled, in registration order.  If in [gi]
    both sprites are alive and their rectangles have a pixel in common,
    the trace of the pass is the events of the earlier triples, then the
    call [fn(a, b)], then the events of the later triples, and [fn] is
    called exactly once in that frame for this triple; if one of the
    sprites is not alive, or the rectangles have no pixel in common, the
    trace is the events of the earlier and of the later triples, and [fn]
    is not called for this triple.  This holds in every frame, whether or
    not the condition held in the frame before.  In particular, for two
    live sprites that do not move, with any two rectangles, and a counting
    callback: after any number of frames the counter and the number of
    calls equal the number of frames if the rectangles have a pixel in
    common, and are zero if they have none. *)
Theorem C7_overlap_every_frame {Cb U : Type}
    (call2 : Cb -> ref -> ref -> @Game Cb U -> @Game Cb U)
    (fuel : nat) (g : @Game Cb U) :
  (forall fn a b g,
      _overlap_handlers (call2 fn a b g) = _overlap_handlers g) ->
  (length (_overlap_handlers g) <= fuel)%nat ->
  (exists g' t,
    overlap_dispatch call2 fuel g = Ret (g', t)
    /\ forall i a b fn,
         _overlap_handlers g !! i = Some (a, b, fn) ->
         exists gi earlier later,
           for_each (overlap_body call2) 0 (take i (_overlap_handlers g)) g
           = Ret (gi, earlier)
           /\ Forall (index_in 0 i) earlier
           /\ Forall (index_in (S i) (length (_overlap_handlers g))) later
           /\ (in_contact gi a b ->
               t = earlier ++ [EvOverlap i a b fn] ++ later
               /\ calls_of i t = 1%nat)
           /\ (~ in_contact gi a b ->
               t = earlier ++ later /\ calls_of i t = 0%nat))
  /\ (forall (ra rb : Rect.t) (frames : list Z) (fuel' : nat),
        exists g' t,
          main_loop demo_sqrt demo_text_width demo_call0 demo_call1 demo_call2
            (S fuel') 640 480 (map no_input frames) (pair_game ra rb)
          = Ret (g', t)
          /\ (share_pixel ra rb ->
              user g' = Z.of_nat (length frames)
              /\ calls_of 0 t = length frames)
          /\ (~ share_pixel ra rb ->
              user g' = 0 /\ calls_of 0 t = 0%nat)).
Proof.
  intros Hsame Hfuel. split.
  2: { intros ra rb frames fuel'.
       destruct (pair_game_frames ra rb fuel' frames 0)
         as (g' & t & Hm & Hu & Hc).
       exists g', t. split; [exact Hm|].
       pose proof (colliderect_spec ra rb) as Hspec.
       destruct (Rect.colliderect ra rb).
       - split; [intros _; split; [rewrite Hu|rewrite Hc]; lia|].
         intros Hn. exfalso. apply Hn, Hspec. reflexivity.
       - split; [intros Hy; apply Hspec in Hy; discriminate|].
         intros _. split; [rewrite Hu|rewrite Hc]; lia. }
  unfold overlap_dispatch.
  rewrite for_live_stable; [|
    intros i [[a b] fn] g1 g2 t1; rewrite overlap_body_run;
    destruct (overlapping a b g1); intros [= <- _]; auto | lia].
  rewrite drop_0. set (l := _overlap_handlers g).
  destruct (for_each_overlap_run call2 l 0 g) as (g' & t & Hrun & _).
  exists g', t. split; [exact Hrun|].
  intros i a b fn Hi.
  assert (Hsplit : l = take i l ++ (a, b, fn) :: drop (S i) l).
  { rewrite <- (take_drop i l) at 1. now rewrite (drop_S l (a, b, fn) i Hi). }
  assert (Hlen : length (take i l) = i).
  { rewrite length_take. apply lookup_lt_Some in Hi. lia. }
  destruct (for_each_overlap_run call2 (take i l) 0 g)
    as (gi & earlier & He & Hearlier).
  rewrite Hlen in Hearlier. simpl in Hearlier.
  rewrite Hsplit, for_each_app, Hlen in Hrun. cbn [for_each Nat.add] in Hrun.
  unfold andthen at 1 in Hrun. rewrite He in Hrun. cbn [bind] in Hrun.
  unfold andthen, bind in Hrun. rewrite overlap_body_run in Hrun.
  assert (Hl : length l = (S i + length (drop (S i) l))%nat).
  { rewrite length_drop. apply lookup_lt_Some in Hi. lia. }
  exists gi, earlier.
  pose proof (overlapping_spec gi a b) as Hspec.
  destruct (overlapping a b gi).
  - destruct (for_each_overlap_run call2 (drop (S i) l) (S i) (call2 fn a b gi))
      as (g2 & later & Hl2 & Hlater).
    rewrite Hl2 in Hrun. injection Hrun as <- <-. exists later.
    rewrite <- Hl in Hlater.
    split; [exact He|]. split; [exact Hearlier|]. split; [exact Hlater|].
    split; [|intros Hn; exfalso; apply Hn, Hspec; reflexivity].
    intros _. split; [reflexivity|].
    rewrite calls_of_app. cbn [calls_of]. rewrite Nat.eqb_refl.
    rewrite (calls_of_outside i 0 i earlier Hearlier) by lia.
    rewrite (calls_of_outside i (S i) (length l) later Hlater) by lia.
    reflexivity.
  - destruct (for_each_overlap_run call2 (drop (S i) l) (S i) gi)
      as (g2 & later & Hl2 & Hlater).
    rewrite Hl2 in Hrun. injection Hrun as <- <-. exists later.
    rewrite <- Hl in Hlater.
    split; [exact He|]. split; [exact Hearlier|]. split; [exact Hlater|].
    split; [intros Hy; apply Hspec in Hy; discriminate|].
    intros _. split; [reflexivity|].
    rewrite calls_of_app. cbn [app].
    rewrite (calls_of_outside i 0 i earlier Hearlier) by lia.
    rewrite (calls_of_outside i (S i) (length l) later Hlater) by lia.
    reflexivity.
Qed.

Lemma demo_call2_keeps_overlap_handlers (fn : DemoCb) (a b : ref) (g : DemoGame) :
  _overlap_handlers (demo_call2 fn a b g) = _overlap_handlers g.
Proof. destruct fn; reflexivity. Qed.

(** Three frames of the main loop at 16, 17 and 17 ms, and one pass of
    the notifier.  Rectangles (0,0,10,10) and (5,5,10,10) overlap, the
    pixel (5,5) being in both: one call a frame.  Rectangles (0,0,10,10)
    and (10,0,10,10) touch along an edge and have no pixel in common: no
    call.  With the overlapping rectangles and the second sprite
    destroyed: no call either. *)
Lemma C7_witness :
  (forall fn a b g,
      _overlap_handlers (demo_call2 fn a b g) = _overlap_handlers g)
  /\ (length (_overlap_handlers overlap_game) <= 1)%nat
  /\ in_contact overlap_game 0%nat 1%nat
  /\ (exists g' t,
        overlap_dispatch demo_call2 1 overlap_game = Ret (g', t)
        /\ t = [EvOverlap 0 0%nat 1%nat CbCount]
        /\ calls_of 0 t = 1%nat)
  /\ ~ in_contact (widowed_game (Rect.mk 0 0 10 10) (Rect.mk 5 5 10 10))
        0%nat 1%nat
  /\ (exists g' t,
        overlap_dispatch demo_call2 1
          (widowed_game (Rect.mk 0 0 10 10) (Rect.mk 5 5 10 10))
        = Ret (g', t)
        /\ t = [] /\ calls_of 0 t = 0%nat)
  /\ share_pixel (Rect.mk 0 0 10 10) (Rect.mk 5 5 10 10)
  /\ (exists g' t,
        main_loop demo_sqrt demo_text_width demo_call0 demo_call1 demo_call2
          1 640 480 (map no_input [16; 17; 17])
          (pair_game (Rect.mk 0 0 10 10) (Rect.mk 5 5 10 10))
        = Ret (g', t)
        /\ user g' = 3 /\ calls_of 0 t = 3%nat)
  /\ ~ share_pixel (Rect.mk 0 0 10 10) (Rect.mk 10 0 10 10)
  /\ (exists g' t,
        main_loop demo_sqrt demo_text_width demo_call0 demo_call1 demo_call2
          1 640 480 (map no_input [16; 17; 17])
          (pair_game (Rect.mk 0 0 10 10) (Rect.mk 10 0 10 10))
        = Ret (g', t)
        /\ user g' = 0 /\ calls_of 0 t = 0%nat).
Proof.
  assert (Hlen : (length (_overlap_handlers overlap_game) <= 1)%nat)
    by (simpl; lia).
  assert (Hyes : share_pixel (Rect.mk 0 0 10 10) (Rect.mk 5 5 10 10)).
  { exists 5, 5. unfold covers. simpl. lia. }
  assert (Hno : ~ share_pixel (Rect.mk 0 0 10 10) (Rect.mk 10 0 10 10)).
  { intros (px & py & H1 & H2). unfold covers in H1, H2. simpl in H1, H2. lia. }
  assert (Hin : in_contact overlap_game 0%nat 1%nat).
  { eexists _, _. split; [reflexivity|]. split; [reflexivity|].
    split; [reflexivity|]. split; [reflexivity|]. exact Hyes. }
  assert (Hout : ~ in_contact
                    (widowed_game (Rect.mk 0 0 10 10) (Rect.mk 5 5 10 10))
                    0%nat 1%nat).
  { intros (sa & sb & _ & Hb & _ & Hal & _).
    vm_compute in Hb. injection Hb as <-. discriminate. }
  destruct (C7_overlap_every_frame demo_call2 1 overlap_game
              demo_call2_keeps_overlap_handlers Hlen)
    as ((g' & t & Hrun & Hall) & Hscen).
  destruct (C7_overlap_every_frame demo_call2 1
              (widowed_game (Rect.mk 0 0 10 10) (Rect.mk 5 5 10 10))
              demo_call2_keeps_overlap_handlers Hlen)
    as ((g2 & t2 & Hrun2 & Hall2) & _).
  split; [exact demo_call2_keeps_overlap_handlers|]. split; [exact Hlen|].
  split; [exact Hin|]. split.
  { exists g', t. split; [exact Hrun|].
    destruct (Hall 0%nat 0%nat 1%nat CbCount eq_refl)
      as (gi & earlier & later & He & _ & Hlater & Hy & _).
    simpl in He. injection He as <- <-.
    destruct (Hy Hin) as [Ht Hc]. split; [|exact Hc].
    rewrite Ht in Hrun. vm_compute in Hrun.
    injection Hrun as _ Hrun. rewrite Ht, <- Hrun. reflexivity. }
  split; [exact Hout|]. split.
  { exists g2, t2. split; [exact Hrun2|].
    destruct (Hall2 0%nat 0%nat 1%nat CbCount eq_refl)
      as (gi & earlier & later & He & _ & Hlater & _ & Hn).
    simpl in He. injection He as <- <-.
    destruct (Hn Hout) as [Ht Hc]. split; [|exact Hc].
    rewrite Ht in Hrun2. vm_compute in Hrun2.
    injection Hrun2 as _ Hrun2. rewrite Ht, <- Hrun2. reflexivity. }
  split; [exact Hyes|]. split.
  { destruct (Hscen (Rect.mk 0 0 10 10) (Rect.mk 5 5 10 10) [16; 17; 17] 0%nat)
      as (g3 & t3 & Hm & Hy & _).
    exists g3, t3. split; [exact Hm|]. exact (Hy Hyes). }
  split; [exact Hno|].
  destruct (Hscen (Rect.mk 0 0 10 10) (Rect.mk 10 0 10 10) [16; 17; 17] 0%nat)
    as (g3 & t3 & Hm & _ & Hn).
  exists g3, t3. split; [exact Hm|]. exact (Hn Hno).
Defined.

(** ** Sprites that are not alive *)

Section Dead.
Context {Cb U : Type}.
Variable sqrt : Q -> Q.
Implicit Types (g : @Game Cb U) (s : GameSprite) (spr r : ref).

(** One unfolding of the physics loop, events included. *)
Lemma physics_loop_unfold dt width height spr rest g :
  physics_loop sqrt dt width height (spr :: rest) g
  = match heap g !! spr with
    | None => physics_loop sqrt dt width height rest g
    | Some s =>
        if negb (alive s)
        then
          let r := physics_loop sqrt dt width height rest
                     (set_sprites (list_remove spr (_sprites g)) g) in
          (fst r, EvReap spr :: snd r)
        else
          let r := physics_loop sqrt dt width height rest
                     (physics_sprite sqrt dt width height spr g) in
          (fst r, EvPhysics spr :: snd r)
    end.
Proof.
  simpl. destruct (heap g !! spr) as [s|]; [|reflexivity].
  destruct (negb (alive s)).
  - now destruct (physics_loop sqrt dt width height rest _).
  - now destruct (physics_loop sqrt dt width height rest _).
Qed.

(** A sprite that is not alive is not simulated, and its object is not
    written. *)
Lemma physics_loop_dead dt width height snapshot g spr :
  dead g spr ->
  heap (fst (physics_loop sqrt dt width height snapshot g)) !! spr
  = heap g !! spr
  /\ Forall (fun ev => ~ simulates spr ev)
       (snd (physics_loop sqrt dt width height snapshot g)).
Proof.
  revert g. induction snapshot as [|x rest IH]; intros g Hd.
  - simpl. auto.
  - rewrite physics_loop_unfold. destruct (heap g !! x) as [sx|] eqn:Hx.
    + destruct (alive sx) eqn:Ax; simpl.
      * assert (Hne : spr <> x).
        { intros ->. destruct Hd as (s0 & Hs0 & Hal). congruence. }
        assert (Hd' : dead (physics_sprite sqrt dt width height x g) spr).
        { unfold dead.
          now rewrite (physics_sprite_other sqrt dt width height x g sx spr Hx Hne). }
        destruct (IH _ Hd') as [Hh Ht]. split.
        -- rewrite Hh.
           apply (physics_sprite_other sqrt dt width height x g sx spr Hx Hne).
        -- constructor; [|exact Ht]. simpl. congruence.
      * destruct (IH (set_sprites (list_remove x (_sprites g)) g) Hd) as [Hh Ht].
        split; [exact Hh|]. constructor; [|exact Ht]. simpl. auto.
    + now apply IH.
Qed.

Variable call2 : Cb -> ref -> ref -> @Game Cb U -> @Game Cb U.

Lemma overlapping_alive a b g :
  overlapping a b g = true -> ~ dead g a /\ ~ dead g b.
Proof.
  unfold overlapping, dead.
  destruct (heap g !! a) as [sa|]; [|discriminate].
  destruct (heap g !! b) as [sb|]; [|discriminate].
  intros H. apply andb_prop in H. destruct H as [H _].
  apply andb_prop in H. destruct H as [Ha Hb].
  split; intros (s0 & [= <-] & Hal); congruence.
Qed.

(** While the callbacks leave a dead sprite dead, the notifier calls no
    callback for a triple that names it. *)
Lemma overlap_dispatch_dead fuel g g' t spr :
  (forall fn a b g, dead g spr -> dead (call2 fn a b g) spr) ->
  dead g spr ->
  overlap_dispatch call2 fuel g = Ret (g', t) ->
  dead g' spr /\ Forall (fun ev => ~ overlap_names spr ev) t.
Proof.
  intros Hkeep Hd Hrun. unfold overlap_dispatch in Hrun.
  refine (for_live_invariant _ _ (fun g => dead g spr)
            (fun ev => ~ overlap_names spr ev) _ fuel 0%nat g g' t Hd Hrun).
  clear g g' t Hd Hrun. intros i [[a b] fn] g g' t Hd.
  rewrite overlap_body_run.
  destruct (overlapping a b g) eqn:Ho.
  - intros [= <- <-]. split; [now apply Hkeep|].
    destruct (overlapping_alive a b g Ho) as [Ha Hb].
    constructor; [|constructor]. simpl. intros [->| ->]; contradiction.
  - intros [= <- <-]. split; [exact Hd|constructor].
Qed.

(** The draw pass renders the sprites of the registry and no other. *)
Lemma draw_only_registry width height g g' t spr :
  spr ∉ _sprites g ->
  draw width height g = Ret (g', t) ->
  Forall (fun ev => ~ draws spr ev) t.
Proof.
  intros Hout. unfold draw, bind.
  destruct (draw_background width height g) as [bg| |]; try discriminate.
  intros [= _ <-]. repeat rewrite Forall_app. repeat split.
  - apply Forall_map. apply Forall_forall. intros op _. simpl. auto.
  - apply Forall_flat_map. apply Forall_forall. intros r Hr.
    unfold draw_sprite. destruct (heap g !! r) as [s|]; [|constructor].
    destruct (image s); (constructor; [|constructor]); simpl; intros ->;
      contradiction.
  - apply Forall_map. apply Forall_forall. intros [[x y] r] _. simpl. auto.
  - apply Forall_map. apply Forall_forall. intros [[[text x] y] size] _.
    simpl. auto.
  - constructor; [|constructor]. simpl. auto.
Qed.

End Dead.

(** C1, as amended.  Let [spr] be a sprite whose alive flag is false, and
    let the overlap callbacks leave it false.  The physics step removes it
    from the registry (which holds each sprite once), does not simulate it
    and does not write its object.  The overlap notifier calls no callback
    for a triple that names it.  Once it is out of the registry the draw
    pass does not render it.  Nothing is said of the draw pass of the frame
    in which the sprite was killed after the physics step, nor of click
    dispatch. *)
Theorem C1_dead_sprite_passes {Cb U : Type} (sqrt : Q -> Q)
    (call2 : Cb -> ref -> ref -> @Game Cb U -> @Game Cb U) (spr : ref) :
  (forall fn a b g, dead g spr -> dead (call2 fn a b g) spr) ->
  (forall dt width height (g : @Game Cb U),
      NoDup (_sprites g) -> spr ∈ _sprites g -> dead g spr ->
      let r := physics_loop sqrt dt width height (_sprites g) g in
      (spr ∉ _sprites (fst r))
      /\ heap (fst r) !! spr = heap g !! spr
      /\ Forall (fun ev => ~ simulates spr ev) (snd r))
  /\ (forall fuel (g g' : @Game Cb U) t,
        dead g spr -> overlap_dispatch call2 fuel g = Ret (g', t) ->
        dead g' spr /\ Forall (fun ev => ~ overlap_names spr ev) t)
  /\ (forall width height (g g' : @Game Cb U) t,
        spr ∉ _sprites g -> draw width height g = Ret (g', t) ->
        Forall (fun ev => ~ draws spr ev) t).
Proof.
  intros Hkeep. split; [|split].
  - intros dt width height g ND Hin Hd r. subst r.
    destruct (physics_loop_sprites sqrt dt width height (_sprites g) g ND)
      as (_ & _ & Dup).
    destruct (Dup ND) as [_ Gone].
    destruct (physics_loop_dead sqrt dt width height (_sprites g) g spr Hd)
      as [Hh Ht].
    split; [now apply Gone|]. split; assumption.
  - intros fuel g g' t Hd Hrun.
    exact (overlap_dispatch_dead call2 fuel g g' t spr Hkeep Hd Hrun).
  - intros width height g g' t Hout Hrun.
    exact (draw_only_registry width height g g' t spr Hout Hrun).
Qed.

Lemma demo_call2_keeps_dead (spr : ref) (fn : DemoCb) (a b : ref) (g : DemoGame) :
  dead g spr -> dead (demo_call2 fn a b g) spr.
Proof.
  intros (s & Hs & Hal). unfold demo_call2, dead. destruct fn as [| | |r]; simpl.
  - eauto.
  - eauto.
  - exists s. split; [|exact Hal]. now apply lookup_app_l_Some.
  - destruct (decide (r = spr)) as [->|Hne].
    + exists (destroy s). rewrite list_lookup_alter_eq, Hs. auto.
    + exists s. rewrite list_lookup_alter_ne by exact Hne. auto.
Qed.

(** The destroyed sprite of [haunted_game]: the next physics pass takes it
    out of the registry without simulating it, and the draw pass that
    follows does not render it. *)
Lemma C1_witness :
  let r := physics_loop demo_sqrt (17 # 1000) 640 480
             (_sprites haunted_game) haunted_game in
  (forall fn a b g, dead g 0%nat -> dead (demo_call2 fn a b g) 0%nat)
  /\ NoDup (_sprites haunted_game)
  /\ 0%nat ∈ _sprites haunted_game
  /\ dead haunted_game 0%nat
  /\ (0%nat ∉ _sprites (fst r))
  /\ Forall (fun ev => ~ simulates 0%nat ev) (snd r)
  /\ (forall g' t, draw 640 480 (fst r) = Ret (g', t) ->
        Forall (fun ev => ~ draws 0%nat ev) t).
Proof.
  intros r.
  assert (Hkeep : forall fn a b (g : DemoGame),
             dead g 0%nat -> dead (demo_call2 fn a b g) 0%nat)
    by (apply demo_call2_keeps_dead).
  assert (ND : NoDup (_sprites haunted_game)).
  { change (_sprites haunted_game) with [0%nat]. apply NoDup_singleton. }
  assert (Hin : 0%nat ∈ _sprites haunted_game).
  { change (_sprites haunted_game) with [0%nat]. apply list_elem_of_here. }
  assert (Hd : dead haunted_game 0%nat).
  { eexists. split; reflexivity. }
  destruct (C1_dead_sprite_passes demo_sqrt demo_call2 0%nat Hkeep)
    as (Hphys & _ & Hdraw).
  destruct (Hphys (17 # 1000) 640 480 haunted_game ND Hin Hd)
    as (Hout & _ & Hsim).
  split; [exact Hkeep|]. split; [exact ND|]. split; [exact Hin|].
  split; [exact Hd|]. split; [exact Hout|]. split; [exact Hsim|].
  intros g' t Hrun. exact (Hdraw 640 480 (fst r) g' t Hout Hrun).
Defined.

(** C1 as stated fails for the draw pass and for click dispatch.  In
    [ghost_game], frame 1: the [when_update] hook destroys sprite 0 after
    the physics step, and the draw pass of that frame renders it.  Frame 2,
    with a click at (1,1): the sprite is still not alive, and its click
    callback is called.  Frame 3, same click: the sprite is no longer in
    the registry, and its click callback is called again. *)
Lemma C1_counterexample :
  exists g1 g2 g3,
    frame demo_sqrt demo_text_width demo_call0 demo_call1 demo_call2 2
      640 480 (no_input 17) ghost_game
    = Ret (true, g1,
           [EvPhysics 0%nat;
            EvUpdate (CbDestroy 0%nat);
            EvDraw (Fill (0, 0, 0));
            EvDrawSprite 0%nat (DrawRect blue (Rect.mk 0 0 10 10));
            EvDraw Flip])
    /\ alive <$> heap g1 !! 0%nat = Some false
    /\ frame demo_sqrt demo_text_width demo_call0 demo_call1 demo_call2 2
         640 480
         {| ticks := 17; events := [MOUSEBUTTONDOWN (1, 1)]; keys := no_keys |}
         g1
       = Ret (true, g2,
              [EvClick 0%nat CbCount;
               EvReap 0%nat;
               EvUpdate (CbDestroy 0%nat);
               EvDraw (Fill (0, 0, 0));
               EvDraw Flip])
    /\ alive <$> heap g2 !! 0%nat = Some false
    /\ _sprites g2 = []
    /\ frame demo_sqrt demo_text_width demo_call0 demo_call1 demo_call2 2
         640 480
         {| ticks := 17; events := [MOUSEBUTTONDOWN (1, 1)]; keys := no_keys |}
         g2
       = Ret (true, g3,
              [EvClick 0%nat CbCount;
               EvUpdate (CbDestroy 0%nat);
               EvDraw (Fill (0, 0, 0));
               EvDraw Flip])
    /\ user g3 = 2.
Proof.
  eexists _, _, _.
  split; [vm_compute; reflexivity|]. split; [reflexivity|].
  split; [vm_compute; reflexivity|]. split; [reflexivity|].
  split; [reflexivity|].
  split; [vm_compute; reflexivity|]. reflexivity.
Qed.

(** * Further properties *)

(** ** Creation keeps the registry well formed *)

Section Creation.
Context {Cb U : Type}.
Variable image_load : string -> option Surface.
Variable smoothscale : Surface -> Z * Z -> option Surface.
Implicit Types (g : @Game Cb U).

Lemma load_sprite_image_keeps image_path width height g :
  heap (snd (load_sprite_image image_load smoothscale image_path width height g))
  = heap g
  /\ _sprites (snd (load_sprite_image image_load smoothscale image_path
                      width height g))
     = _sprites g
  /\ _platforms (snd (load_sprite_image image_load smoothscale image_path
                        width height g))
     = _platforms g.
Proof.
  unfold load_sprite_image.
  destruct (cache_get _ _); [auto|].
  destruct (image_load image_path) as [raw|]; [|auto].
  destruct (smoothscale raw _); auto.
Qed.

(** The shape of what [sprite] returns. *)
Lemma sprite_result image_path x y width height (c : Color) (v : Q * Q)
    (l : option Q) g :
  exists image,
    let new := GameSprite_init image (Rect.mk x y width height) c v l in
    let res := sprite image_load smoothscale image_path x y width height c v l g in
    fst res = length (heap g)
    /\ heap (snd res) = heap g ++ [new]
    /\ _sprites (snd res) = _sprites g ++ [length (heap g)]
    /\ _platforms (snd res) = _platforms g.
Proof.
  unfold sprite. destruct (truthy image_path) as [p|].
  - destruct (load_sprite_image_keeps p width height g) as (Hh & Hs & Hp).
    destruct (load_sprite_image image_load smoothscale p width height g)
      as [image g1].
    simpl in Hh, Hs, Hp. exists image. simpl. rewrite Hh, Hs, Hp. auto.
  - exists None. simpl. auto.
Qed.

(** X1.  [sprite] returns a reference that no list held before, puts the
    new object at the end of the store and the reference at the end of the
    registry, leaves every existing object as it was, and keeps the
    registry well formed. *)
Theorem X1_sprite_is_fresh image_path x y width height (c : Color)
    (v : Q * Q) (l : option Q) g :
  registry_ok g ->
  let res := sprite image_load smoothscale image_path x y width height c v l g in
  (fst res ∉ _sprites g)
  /\ heap g !! fst res = None
  /\ (exists new, heap (snd res) !! fst res = Some new
                  /\ alive new = true /\ _age new = 0%Q
                  /\ rect new = Rect.mk x y width height
                  /\ speed new = Vector2.mk (fst v) (snd v)
                  /\ lifetime new = l
                  /\ gravity new = None /\ bounce new = false)
  /\ (forall r s, heap g !! r = Some s -> heap (snd res) !! r = Some s)
  /\ _sprites (snd res) = _sprites g ++ [fst res]
  /\ registry_ok (snd res).
Proof.
  intros [ND Hlt] res.
  destruct (sprite_result image_path x y width height c v l g)
    as (image & Hr & Hh & Hs & _).
  fold res in Hr, Hh, Hs. rewrite Hr, Hh, Hs.
  assert (Hfresh : length (heap g) ∉ _sprites g).
  { intros Hin. rewrite Forall_forall in Hlt. specialize (Hlt _ Hin). lia. }
  split; [exact Hfresh|]. split; [now apply lookup_ge_None|].
  split.
  { eexists. split.
    - rewrite lookup_app_r by lia. rewrite Nat.sub_diag. reflexivity.
    - repeat split. }
  split; [intros r s Hs'; now apply lookup_app_l_Some|].
  split; [reflexivity|].
  unfold registry_ok. rewrite Hs, Hh. split.
  - apply NoDup_app. split; [exact ND|]. split.
    + intros r Hin Hin'. apply list_elem_of_singleton in Hin'. subst r.
      contradiction.
    + apply NoDup_singleton.
  - rewrite length_app. simpl. apply Forall_app. split.
    + eapply Forall_impl; [exact Hlt|]. simpl. intros r Hr'. lia.
    + constructor; [lia|constructor].
Qed.

End Creation.

(** The third sprite of a game gets reference 2. *)
Lemma X1_witness :
  let res := sprite demo_image_load demo_smoothscale None 7 8 20 30 blue
               (1, 2)%Q (Some 5%Q) landing_game in
  registry_ok landing_game
  /\ fst res = 3%nat
  /\ (fst res ∉ _sprites landing_game)
  /\ _sprites (snd res) = [0; 1; 2; 3]%nat
  /\ registry_ok (snd res).
Proof.
  intros res.
  assert (Hok : registry_ok landing_game).
  { split.
    - change (_sprites landing_game) with [0; 1; 2]%nat.
      apply NoDup_ListNoDup. repeat constructor; simpl; lia.
    - change (_sprites landing_game) with [0; 1; 2]%nat.
      repeat constructor. }
  destruct (X1_sprite_is_fresh demo_image_load demo_smoothscale None 7 8 20 30
              blue (1, 2)%Q (Some 5%Q) landing_game Hok)
    as (Hfresh & _ & _ & _ & Hs & Hok').
  split; [exact Hok|]. split; [reflexivity|]. split; [exact Hfresh|].
  split; [exact Hs|exact Hok'].
Defined.

(** ** What the physics pass leaves alone *)

Section PhysicsFrame.
Context {Cb U : Type}.
Variable sqrt : Q -> Q.
Variables (dt : Q) (width height : Z).
Implicit Types (g : @Game Cb U) (s : GameSprite) (spr r : ref).

Lemma physics_loop_length snapshot g :
  length (heap (fst (physics_loop sqrt dt width height snapshot g)))
  = length (heap g).
Proof.
  revert g. induction snapshot as [|x rest IH]; intros g; [reflexivity|].
  rewrite physics_loop_cons. destruct (heap g !! x) as [sx|] eqn:Hx; [|apply IH].
  destruct (negb (alive sx)).
  - rewrite IH. reflexivity.
  - rewrite IH, (physics_sprite_insert sqrt dt width height x g sx Hx).
    cbn [heap set_heap]. apply length_insert.
Qed.

(** X2.  The physics pass writes sprite objects and the sprite registry
    and nothing else: every other global, the platforms list and all the
    handler tables included, is as before; it creates no object; it adds
    no sprite to the registry; and it keeps the registry well formed. *)
Theorem X2_physics_writes_only_sprites g :
  let g' := physics_pass sqrt width height dt g in
  same_globals g g'
  /\ length (heap g') = length (heap g)
  /\ (forall r, r ∈ _sprites g' -> r ∈ _sprites g)
  /\ (registry_ok g -> registry_ok g').
Proof.
  intros g'. subst g'. unfold physics_pass.
  destruct (physics_loop_shape sqrt dt width height (_sprites g) g)
    as (hp & l & E).
  split; [rewrite E; repeat split|].
  split; [apply physics_loop_length|].
  split.
  - intros r Hr. destruct (decide (NoDup (_sprites g))) as [ND|ND].
    + destruct (physics_loop_sprites sqrt dt width height (_sprites g) g ND)
        as (Sub & _). now apply Sub.
    + (* the registry only ever loses elements *)
      clear E ND. revert Hr. generalize (_sprites g) at 1 as snapshot.
      intros snapshot. revert g.
      induction snapshot as [|x rest IH]; intros g Hr; [exact Hr|].
      rewrite physics_loop_cons in Hr.
      destruct (heap g !! x) as [sx|] eqn:Hx; [|now apply IH].
      destruct (negb (alive sx)).
      * apply IH in Hr. cbn [_sprites set_sprites] in Hr.
        now apply list_remove_subset in Hr.
      * apply IH in Hr.
        destruct (physics_sprite_shape sqrt dt width height x g sx Hx)
          as (hp0 & E0).
        now rewrite E0 in Hr.
  - intros [ND Hlt].
    destruct (physics_loop_sprites sqrt dt width height (_sprites g) g ND)
      as (Sub & _ & Dup).
    destruct (Dup ND) as [ND' _]. split; [exact ND'|].
    rewrite physics_loop_length. apply Forall_forall. intros r Hr.
    rewrite Forall_forall in Hlt. apply Hlt. now apply Sub.
Qed.

(** X3.  An object with no follow target, no gravity, no lifetime, bounce
    off and zero velocity is left exactly as it is by the physics loop,
    whatever the snapshot it runs over and whatever the other sprites
    do. *)
Theorem X3_stationary_sprite_untouched snapshot g r s :
  heap g !! r = Some s -> stationary s ->
  heap (fst (physics_loop sqrt dt width height snapshot g)) !! r = Some s.
Proof.
  intros Hs Hst. revert g Hs.
  induction snapshot as [|x rest IH]; intros g Hs; [exact Hs|].
  rewrite physics_loop_cons. destruct (heap g !! x) as [sx|] eqn:Hx; [|now apply IH].
  destruct (negb (alive sx)).
  - now apply IH.
  - apply IH. destruct (decide (r = x)) as [->|Hne].
    + rewrite Hs in Hx. injection Hx as <-.
      now rewrite (physics_sprite_stationary sqrt dt width height x g s Hs Hst).
    + now rewrite (physics_sprite_other sqrt dt width height x g sx r Hx Hne).
Qed.

End PhysicsFrame.

(** The first platform of [landing_game] stays at (0,5) while the sprite
    above it falls onto it. *)
Lemma X3_witness :
  let p := GameSprite_init None (Rect.mk 0 5 100 10) (100, 100, 100)
             (0, 0)%Q None in
  heap landing_game !! 1%nat = Some p
  /\ stationary p
  /\ heap landed_game !! 1%nat = Some p.
Proof.
  intros p.
  assert (Hs : heap landing_game !! 1%nat = Some p) by reflexivity.
  assert (Hst : stationary p) by (repeat split).
  split; [exact Hs|]. split; [exact Hst|].
  exact (X3_stationary_sprite_untouched demo_sqrt (1 # 60) 640 480
           (_sprites landing_game) landing_game 1%nat p Hs Hst).
Defined.

(** ** Platforms *)

(** X4.  [platform] creates an ordinary sprite: the new reference goes
    to the end of both the sprite registry and the platform list, and the
    object is alive and stationary, so that the physics pass simulates it
    every frame and never moves it. *)
Theorem X4_platform_is_a_stationary_sprite {Cb U : Type}
    (image_load : string -> option Surface)
    (smoothscale : Surface -> Z * Z -> option Surface)
    (x y width height : Z) (c : Color) (g : @Game Cb U) :
  let res := platform image_load smoothscale x y width height c g in
  fst res = length (heap g)
  /\ _sprites (snd res) = _sprites g ++ [fst res]
  /\ _platforms (snd res) = _platforms g ++ [fst res]
  /\ exists p, heap (snd res) !! fst res = Some p
               /\ rect p = Rect.mk x y width height
               /\ alive p = true /\ stationary p.
Proof.
  intros res. subst res. unfold platform, sprite. simpl.
  split; [reflexivity|]. split; [reflexivity|]. split; [reflexivity|].
  eexists. split.
  - rewrite lookup_app_r by lia. rewrite Nat.sub_diag. reflexivity.
  - repeat split.
Qed.

(** ** Sprites without a lifetime *)

Section NoLifetime.
Context {Cb U : Type}.
Variable sqrt : Q -> Q.
Variables (width height : Z).
Implicit Types (g : @Game Cb U) (s : GameSprite) (spr r : ref).

Lemma physics_pass_no_lifetime dt g r s :
  NoDup (_sprites g) ->
  heap g !! r = Some s -> alive s = true -> lifetime s = None ->
  exists s',
    heap (physics_pass sqrt width height dt g) !! r = Some s'
    /\ alive s' = true /\ lifetime s' = None /\ _age s' = _age s
    /\ (r ∈ _sprites g -> r ∈ _sprites (physics_pass sqrt width height dt g)).
Proof.
  intros ND Hs Hal Hl. unfold physics_pass.
  destruct (physics_loop_heap sqrt dt width height (_sprites g) g ND r s Hs)
    as [Keep Sim].
  destruct (physics_loop_sprites sqrt dt width height (_sprites g) g ND)
    as (_ & Stay & _).
  assert (Hstay : r ∈ _sprites g ->
                  r ∈ _sprites (fst (physics_loop sqrt dt width height
                                       (_sprites g) g))).
  { intros Hin. apply Stay; [exact Hin|].
    intros [_ (s0 & Hs0 & Hd)]. congruence. }
  destruct (decide (r ∈ _sprites g)) as [Hin|Hout].
  - destruct (Sim Hin Hal) as (s' & Hs' & HL & HA & HV).
    rewrite (step_lifetime_none dt s Hl) in HA, HV.
    exists s'. repeat split; try congruence. exact Hstay.
  - exists s. split; [apply Keep; now left|]. repeat split; auto.
Qed.

(** X5.  The physics step never kills and never ages a sprite that has no
    lifetime: after any number of physics passes such a sprite is alive,
    with the age it had, and still in the registry if it was. *)
Theorem X5_no_lifetime_never_expires dts g r s :
  NoDup (_sprites g) ->
  heap g !! r = Some s -> alive s = true -> lifetime s = None ->
  exists s',
    heap (physics_frames sqrt width height dts g) !! r = Some s'
    /\ alive s' = true /\ lifetime s' = None /\ _age s' = _age s
    /\ (r ∈ _sprites g -> r ∈ _sprites (physics_frames sqrt width height dts g)).
Proof.
  revert g s. induction dts as [|dt dts IH]; intros g s ND Hs Hal Hl.
  - exists s. simpl. repeat split; auto.
  - destruct (physics_pass_no_lifetime dt g r s ND Hs Hal Hl)
      as (s1 & Hs1 & Hal1 & Hl1 & Ha1 & Hin1).
    assert (ND1 : NoDup (_sprites (physics_pass sqrt width height dt g))).
    { unfold physics_pass.
      destruct (physics_loop_sprites sqrt dt width height (_sprites g) g ND)
        as (_ & _ & Dup). now apply Dup. }
    destruct (IH _ s1 ND1 Hs1 Hal1 Hl1) as (s' & Hs' & Hal' & Hl' & Ha' & Hin').
    exists s'. simpl. repeat split; try congruence. auto.
Qed.

End NoLifetime.

(** The player of [bullet_game] has no lifetime: it outlives its bullet. *)
Lemma X5_witness :
  let s := GameSprite_init None (Rect.mk 300 430 40 40) blue (0, 0)%Q None in
  let g' := physics_frames demo_sqrt 640 480 [17 # 1000; 17 # 1000; 17 # 1000]
              bullet_game in
  NoDup (_sprites bullet_game)
  /\ heap bullet_game !! 0%nat = Some s
  /\ alive s = true /\ lifetime s = None
  /\ (exists s', heap g' !! 0%nat = Some s' /\ alive s' = true)
  /\ _sprites g' = [0%nat].
Proof.
  intros s g'.
  assert (ND : NoDup (_sprites bullet_game)).
  { change (_sprites bullet_game) with [0%nat; 1%nat]. apply NoDup_ListNoDup.
    repeat constructor; simpl; lia. }
  split; [exact ND|]. split; [reflexivity|]. split; [reflexivity|].
  split; [reflexivity|].
  destruct (X5_no_lifetime_never_expires demo_sqrt 640 480
              [17 # 1000; 17 # 1000; 17 # 1000] bullet_game 0%nat s
              ND eq_refl eq_refl eq_refl)
    as (s' & Hs' & Hal' & _).
  split; [exists s'; auto|]. vm_compute. reflexivity.
Defined.

(** ** Projectiles *)

(** X6.  [projectile_from] creates the projectile centred on the sprite
    that fires it: for a projectile of non-negative size, its rectangle has
    the same centre as the firing sprite's, whatever the parity of the
    sizes; it carries the given velocity and lifetime and is appended to the
    registry. *)
Theorem X6_projectile_is_centred {Cb U : Type}
    (image_load : string -> option Surface)
    (smoothscale : Surface -> Z * Z -> option Surface)
    (sprite_obj : ref) (vx vy : Q) (image_path : option string)
    (width height : Z) (c : Color) (l : option Q) (g : @Game Cb U)
    (s : GameSprite) :
  heap g !! sprite_obj = Some s ->
  0 <= width -> 0 <= height ->
  let res := projectile_from image_load smoothscale sprite_obj vx vy
               image_path width height c l g in
  exists new,
    heap (snd res) !! fst res = Some new
    /\ Rect.center (rect new) = Rect.center (rect s)
    /\ Rect.width (rect new) = width /\ Rect.height (rect new) = height
    /\ speed new = Vector2.mk vx vy
    /\ lifetime new = l /\ alive new = true
    /\ _sprites (snd res) = _sprites g ++ [fst res]
    /\ heap (snd res) !! sprite_obj = Some s.
Proof.
  intros Hs Hw Hh res. subst res. unfold projectile_from. rewrite Hs.
  set (x := Rect.centerx (rect s) - width / 2).
  set (y := Rect.centery (rect s) - height / 2).
  destruct (sprite_result image_load smoothscale image_path x y width height
              c (vx, vy) l g) as (image & Hr & Hheap & Hreg & _).
  cbv zeta in Hr, Hheap, Hreg. rewrite Hr, Hheap, Hreg.
  eexists. split.
  { rewrite lookup_app_r by lia. rewrite Nat.sub_diag. reflexivity. }
  split.
  { unfold Rect.center, Rect.centerx, Rect.centery. simpl. subst x y.
    unfold Rect.centerx, Rect.centery.
    rewrite !Z.shiftr_div_pow2 by lia. change (2 ^ 1) with 2. f_equal; lia. }
  repeat split. now apply lookup_app_l_Some.
Qed.

(** The bullet of [bullet_game]: 6 by 14, fired by the 40 by 40 player at
    (300,430); both are centred on (320,450). *)
Lemma X6_witness :
  let player := GameSprite_init None (Rect.mk 300 430 40 40) blue (0, 0)%Q None in
  let g := snd (sprite demo_image_load demo_smoothscale None 300 430 40 40 blue
                  (0, 0)%Q None (initial (Cb := DemoCb) 0)) in
  let res := projectile_from demo_image_load demo_smoothscale 0%nat 0 (-450)
               None 6 14 (255, 255, 0) (Some (3 # 100)) g in
  heap g !! 0%nat = Some player /\ 0 <= 6 /\ 0 <= 14
  /\ exists new, heap (snd res) !! fst res = Some new
                 /\ Rect.center (rect new) = (320, 450)
                 /\ Rect.center (rect player) = (320, 450).
Proof.
  intros player g res.
  assert (Hs : heap g !! 0%nat = Some player) by reflexivity.
  split; [exact Hs|]. split; [lia|]. split; [lia|].
  destruct (X6_projectile_is_centred demo_image_load demo_smoothscale 0%nat
              0 (-450) None 6 14 (255, 255, 0) (Some (3 # 100)) g player Hs)
    as (new & Hn & Hc & _); [lia|lia|].
  exists new. split; [exact Hn|]. split; [|reflexivity].
  rewrite Hc. reflexivity.
Defined.

(** ** The image cache *)

Lemma key_eqb_refl (k : string * Z * Z) : key_eqb k k = true.
Proof.
  destruct k as [[p w] h]. unfold key_eqb. simpl.
  now rewrite String.eqb_refl, !Z.eqb_refl.
Qed.

Lemma cache_get_set (key : string * Z * Z) (img : Surface)
    (c : list (string * Z * Z * Surface)) :
  cache_get key (cache_set key img c) = Some img.
Proof.
  induction c as [|[k old] c IH]; simpl.
  - now rewrite key_eqb_refl.
  - destruct (key_eqb k key) eqn:E; simpl; rewrite E; [reflexivity|exact IH].
Qed.

(** X7.  Once an image has been loaded and scaled for a sprite, creating
    another sprite with the same path and size takes the image from the
    cache: the backend is not consulted (the result is the same for any
    backend, even one that now fails), nothing is printed and the cache is
    not written. *)
Theorem X7_image_cache_hit {Cb U : Type}
    (image_load load_later : string -> option Surface)
    (smoothscale scale_later : Surface -> Z * Z -> option Surface)
    (image_path : string) (width height : Z) (raw img : Surface)
    (x y x' y' : Z) (c c' : Color) (v v' : Q * Q) (l l' : option Q)
    (g : @Game Cb U) :
  image_path <> EmptyString ->
  cache_get (image_path, width, height) (_image_cache g) = None ->
  image_load image_path = Some raw ->
  smoothscale raw (width, height) = Some img ->
  let first := sprite image_load smoothscale (Some image_path) x y width height
                 c v l g in
  let second := sprite load_later scale_later (Some image_path) x' y'
                  width height c' v' l' (snd first) in
  image <$> heap (snd first) !! fst first = Some (Some img)
  /\ image <$> heap (snd second) !! fst second = Some (Some img)
  /\ _image_cache (snd second) = _image_cache (snd first)
  /\ console (snd second) = console g.
Proof.
  intros Hne Hmiss Hload Hscale first second.
  assert (E1 : load_sprite_image image_load smoothscale image_path width height g
               = (Some img,
                  set_image_cache
                    (cache_set (image_path, width, height) img (_image_cache g))
                    g)).
  { unfold load_sprite_image. now rewrite Hmiss, Hload, Hscale. }
  assert (F : first
              = (length (heap g),
                 set_sprites (_sprites g ++ [length (heap g)])
                   (set_heap
                      (heap g ++ [GameSprite_init (Some img)
                                    (Rect.mk x y width height) c v l])
                      (set_image_cache
                         (cache_set (image_path, width, height) img
                            (_image_cache g)) g)))).
  { subst first. unfold sprite. rewrite (truthy_nonempty _ Hne), E1.
    reflexivity. }
  set (g1 := snd first).
  assert (Hhit : cache_get (image_path, width, height) (_image_cache g1)
                 = Some img).
  { subst g1. rewrite F. cbn [snd _image_cache set_sprites set_heap
                                set_image_cache]. apply cache_get_set. }
  assert (E2 : load_sprite_image load_later scale_later image_path width height g1
               = (Some img, g1)).
  { unfold load_sprite_image. now rewrite Hhit. }
  assert (S : second
              = (length (heap g1),
                 set_sprites (_sprites g1 ++ [length (heap g1)])
                   (set_heap
                      (heap g1 ++ [GameSprite_init (Some img)
                                     (Rect.mk x' y' width height) c' v' l'])
                      g1))).
  { subst second. fold g1. unfold sprite. rewrite (truthy_nonempty _ Hne), E2.
    reflexivity. }
  split; [|split; [|split]].
  - subst g1. rewrite F. cbn [fst snd heap set_sprites set_heap].
    rewrite lookup_app_r by lia. now rewrite Nat.sub_diag.
  - rewrite S. cbn [fst snd heap set_sprites set_heap].
    rewrite lookup_app_r by lia. now rewrite Nat.sub_diag.
  - rewrite S. reflexivity.
  - rewrite S. cbn [snd console set_sprites set_heap]. subst g1. rewrite F.
    reflexivity.
Qed.

(** A first sprite loads and scales "ship.png"; for the second, of the
    same size, the backend that fails to scale is never asked. *)
Lemma X7_witness :
  let first := sprite loading_ok demo_smoothscale (Some "ship.png"%string)
                 0 0 50 50 blue (0, 0)%Q None (initial (Cb := DemoCb) 0) in
  let second := sprite demo_image_load scaling_fails (Some "ship.png"%string)
                  9 9 50 50 blue (0, 0)%Q None (snd first) in
  "ship.png"%string <> EmptyString
  /\ cache_get ("ship.png"%string, 50, 50)
       (_image_cache (initial (Cb := DemoCb) (U := Z) 0)) = None
  /\ loading_ok "ship.png" = Some raw_image
  /\ demo_smoothscale raw_image (50, 50)
     = Some {| surf_data := 7; surf_size := (50, 50) |}
  /\ image <$> heap (snd second) !! fst second
     = Some (Some {| surf_data := 7; surf_size := (50, 50) |})
  /\ console (snd second) = [].
Proof.
  intros first second.
  assert (Hne : "ship.png"%string <> EmptyString) by discriminate.
  split; [exact Hne|]. split; [reflexivity|]. split; [reflexivity|].
  split; [reflexivity|].
  destruct (X7_image_cache_hit loading_ok demo_image_load demo_smoothscale
              scaling_fails "ship.png" 50 50 raw_image
              {| surf_data := 7; surf_size := (50, 50) |}
              0 0 9 9 blue blue (0, 0)%Q (0, 0)%Q None None
              (initial (Cb := DemoCb) (U := Z) 0)
              Hne eq_refl eq_refl eq_refl)
    as (_ & H2 & _ & H4).
  split; [exact H2|exact H4].
Defined.

(** ** The background *)

(** X8.  Setting a background image once the window exists: when the
    load raises, or when in stretch mode the scaling raises, the module
    prints one notice, keeps no surface, and the background drawn from then
    on is the plain colour given in the same call. *)
Theorem X8_background_failure_falls_back {Cb U : Type}
    (image_load : string -> option Surface)
    (smoothscale : Surface -> Z * Z -> option Surface)
    (image_path : string) (c : Color) (mode : BackgroundMode)
    (w h : Z) (g : @Game Cb U) :
  _screen g = Some (w, h) ->
  image_path <> EmptyString ->
  (image_load image_path = None
   \/ (mode = stretch
       /\ exists raw, image_load image_path = Some raw
                      /\ smoothscale raw (w, h) = None)) ->
  let g' := set_background image_load smoothscale (Some image_path) c mode g in
  _background_surface g' = None
  /\ console g' = console g ++ [BackgroundImageMissing image_path]
  /\ (forall width height, draw_background width height g' = Ret [Fill c])
  /\ heap g' = heap g /\ _sprites g' = _sprites g.
Proof.
  intros Hscreen Hne Hfail g'. subst g'. unfold set_background.
  cbn [_screen set_background_mode set_background_color set_background_path].
  rewrite Hscreen. unfold _prepare_background.
  cbn [_background_path set_background_surface set_background_mode
         set_background_color set_background_path].
  rewrite (truthy_nonempty _ Hne).
  destruct Hfail as [Hl | (-> & raw & Hl & Hsc)].
  - rewrite Hl. repeat split.
  - rewrite Hl. cbn [_background_mode set_background_surface set_background_mode
                       set_background_color set_background_path].
    rewrite Hsc. repeat split.
Qed.

(** A missing tile image on a 640 by 480 window. *)
Lemma X8_witness :
  let g := set_screen (Some (640, 480)) (initial (Cb := DemoCb) (U := Z) 0) in
  let g' := set_background demo_image_load demo_smoothscale
              (Some "sky.png"%string) (10, 20, 30) tile g in
  _screen g = Some (640, 480)
  /\ "sky.png"%string <> EmptyString
  /\ demo_image_load "sky.png" = None
  /\ _background_surface g' = None
  /\ console g' = [BackgroundImageMissing "sky.png"]
  /\ draw_background 640 480 g' = Ret [Fill (10, 20, 30)].
Proof.
  intros g g'.
  assert (Hne : "sky.png"%string <> EmptyString) by discriminate.
  split; [reflexivity|]. split; [exact Hne|]. split; [reflexivity|].
  destruct (X8_background_failure_falls_back demo_image_load demo_smoothscale
              "sky.png" (10, 20, 30) tile 640 480 g eq_refl Hne
              (or_introl eq_refl))
    as (Hs & Hc & Hd & _).
  split; [exact Hs|]. split; [exact Hc|]. apply Hd.
Defined.

(** ** Arrow control *)

Lemma Qmin_Z (a b : Q) (za zb : Z) :
  (a == inject_Z za)%Q -> (b == inject_Z zb)%Q ->
  (Qmin a b == inject_Z (Z.min za zb))%Q.
Proof.
  intros Ha Hb. unfold Qmin. destruct (Qlt_le_dec b a) as [H|H].
  - rewrite Ha, Hb in H. rewrite <- Zlt_Qlt in H.
    rewrite Z.min_r by lia. exact Hb.
  - rewrite Ha, Hb in H. rewrite <- Zle_Qle in H.
    rewrite Z.min_l by lia. exact Ha.
Qed.

Lemma Qmax_Z (a b : Q) (za zb : Z) :
  (a == inject_Z za)%Q -> (b == inject_Z zb)%Q ->
  (Qmax a b == inject_Z (Z.max za zb))%Q.
Proof.
  intros Ha Hb. unfold Qmax. destruct (Qlt_le_dec a b) as [H|H].
  - rewrite Ha, Hb in H. rewrite <- Zlt_Qlt in H.
    rewrite Z.max_r by lia. exact Hb.
  - rewrite Ha, Hb in H. rewrite <- Zle_Qle in H.
    rewrite Z.max_l by lia. exact Ha.
Qed.

(** The clamp of [control_arrows] on integer bounds is the integer clamp. *)
Lemma clamp_trunc (lo hi pos size : Z) :
  Qtrunc (Qmax (inject_Z lo)
            (Qmin (inject_Z pos) (inject_Z hi - inject_Z size)))
  = Z.max lo (Z.min pos (hi - size)).
Proof.
  rewrite <- (Qtrunc_inject_Z (Z.max lo (Z.min pos (hi - size)))).
  apply Qtrunc_comp. apply Qmax_Z; [reflexivity|].
  apply Qmin_Z; [reflexivity|].
  unfold Z.sub. rewrite inject_Z_plus, inject_Z_opp. reflexivity.
Qed.

Lemma with_rect_same (s : GameSprite) : with_rect (rect s) s = s.
Proof. now destruct s. Qed.

Section Arrows.
Context {Cb U : Type}.
Implicit Types (g : @Game Cb U) (s : GameSprite) (spr : ref).

(** X9.  The arrow handler of a sprite without bounds leaves the whole
    module state as it is when no arrow key is held, and also when
    opposite arrows are held together (left with right, up with down):
    the two displacements cancel before the position is written. *)
Theorem X9_opposite_arrows_cancel spr (dt : Q) g s :
  heap g !! spr = Some s ->
  pressed g K_LEFT = pressed g K_RIGHT ->
  pressed g K_UP = pressed g K_DOWN ->
  arrow_handler spr None dt g = g.
Proof.
  intros Hs Hx Hy. unfold arrow_handler. rewrite Hs, Hx, Hy.
  set (spd := default 0%Q (control_speed s)).
  assert (E : forall dx dy,
             (dx == 0)%Q -> (dy == 0)%Q ->
             Rect.iadd_y dy (Rect.iadd_x dx (rect s)) = rect s).
  { intros dx dy Hdx Hdy. destruct (rect s) as [x y w h].
    unfold Rect.iadd_x, Rect.iadd_y, Rect.set_x, Rect.set_y. simpl.
    now rewrite (Qtrunc_add_zero x dx Hdx), (Qtrunc_add_zero y dy Hdy). }
  rewrite (modify_insert spr _ g s Hs). cbv zeta.
  rewrite E.
  - rewrite with_rect_same, (insert_same (heap g) spr s Hs). apply set_heap_id.
  - destruct (pressed g K_RIGHT); ring.
  - destruct (pressed g K_DOWN); ring.
Qed.

(** X10.  With bounds given as integers [(x0, y0, x1, y1)] in which the
    sprite fits, the arrow handler leaves the sprite's rectangle fully
    inside the bounds, whatever keys are held, whatever the speed and the
    frame time, and wherever the sprite was; its size is unchanged. *)
Theorem X10_arrows_stay_in_bounds spr (dt : Q) g s (x0 y0 x1 y1 : Z) :
  heap g !! spr = Some s ->
  Rect.width (rect s) <= x1 - x0 ->
  Rect.height (rect s) <= y1 - y0 ->
  let g' := arrow_handler spr
              (Some (inject_Z x0, inject_Z y0, inject_Z x1, inject_Z y1)) dt g in
  exists s',
    heap g' !! spr = Some s'
    /\ x0 <= Rect.left (rect s') /\ Rect.right (rect s') <= x1
    /\ y0 <= Rect.top (rect s') /\ Rect.bottom (rect s') <= y1
    /\ Rect.width (rect s') = Rect.width (rect s)
    /\ Rect.height (rect s') = Rect.height (rect s).
Proof.
  intros Hs Hw Hh g'. subst g'. unfold arrow_handler. rewrite Hs.
  rewrite (modify_insert spr _ g s Hs). cbn [heap set_heap].
  rewrite list_lookup_insert_eq by (now apply lookup_lt_Some in Hs).
  eexists. split; [reflexivity|].
  destruct (rect s) as [x y w h] eqn:Hr. simpl in Hw, Hh.
  unfold Rect.iadd_x, Rect.iadd_y, Rect.set_x, Rect.set_y,
    Rect.left, Rect.right, Rect.top, Rect.bottom.
  cbn [rect with_rect Rect.x Rect.y Rect.width Rect.height].
  rewrite !clamp_trunc. repeat split; lia.
Qed.

End Arrows.

(** Left and right held together, at 220 px/s and 17 ms a frame. *)
Lemma X9_witness :
  let g := set_pressed (fun key => (key =? K_LEFT) || (key =? K_RIGHT))
             (control_arrows 0%nat 220 None drift_game) in
  (exists s, heap g !! 0%nat = Some s)
  /\ pressed g K_LEFT = pressed g K_RIGHT
  /\ pressed g K_UP = pressed g K_DOWN
  /\ arrow_handler 0%nat None (17 # 1000) g = g.
Proof.
  intros g.
  assert (Hs : heap g !! 0%nat
               = Some (set_control_speed 220
                         (GameSprite_init None (Rect.mk 5 7 10 10) blue
                            (-3, 2)%Q None))) by reflexivity.
  split; [eauto|]. split; [reflexivity|]. split; [reflexivity|].
  exact (X9_opposite_arrows_cancel 0%nat (17 # 1000) g _ Hs eq_refl eq_refl).
Defined.

(** The player of the example game, 40 by 40 in a 640 by 480 window,
    pushing left from x = 5 for a whole second. *)
Lemma X10_witness :
  let s := set_control_speed 220
             (GameSprite_init None (Rect.mk 5 7 10 10) blue (-3, 2)%Q None) in
  let g := set_pressed (fun key => key =? K_LEFT)
             (control_arrows 0%nat 220 None drift_game) in
  let g' := arrow_handler 0%nat
              (Some (inject_Z 0, inject_Z 0, inject_Z 640, inject_Z 480)) 1 g in
  heap g !! 0%nat = Some s
  /\ Rect.width (rect s) <= 640 - 0
  /\ Rect.height (rect s) <= 480 - 0
  /\ exists s', heap g' !! 0%nat = Some s'
                /\ 0 <= Rect.left (rect s') /\ Rect.right (rect s') <= 640.
Proof.
  intros s g g'.
  assert (Hs : heap g !! 0%nat = Some s) by reflexivity.
  split; [exact Hs|]. split; [simpl; lia|]. split; [simpl; lia|].
  destruct (X10_arrows_stay_in_bounds 0%nat 1 g s 0 0 640 480 Hs)
    as (s' & Hs' & H1 & H2 & _); [simpl; lia|simpl; lia|].
  exists s'. auto.
Defined.

(** ** Registration in the handler tables *)

Section SetDefault.
Context {K Cb : Type}.
Variable eqb : K -> K -> bool.
Hypothesis eqb_spec : forall a b, eqb a b = true <-> a = b.

Lemma eqb_same (k : K) : eqb k k = true.
Proof. now apply eqb_spec. Qed.

Lemma eqb_differ (a b : K) : a <> b -> eqb a b = false.
Proof.
  intros Hne. destruct (eqb a b) eqn:E; [|reflexivity].
  apply eqb_spec in E. contradiction.
Qed.

Lemma key_in_or_not (k : K) (l : list K) : k ∈ l \/ k ∉ l.
Proof.
  induction l as [|a l IH].
  - right. apply not_elem_of_nil.
  - destruct (eqb a k) eqn:E.
    + apply eqb_spec in E. subst a. left. apply list_elem_of_here.
    + destruct IH as [IH|IH].
      * left. now apply list_elem_of_further.
      * right. apply not_elem_of_cons. split; [|exact IH].
        intros ->. now rewrite eqb_same in E.
Qed.

Lemma setdefault_append_spec (k : K) (fn : Cb) (d : list (K * list Cb)) :
  handlers_of eqb k (setdefault_append eqb k fn d)
  = handlers_of eqb k d ++ [fn]
  /\ (forall k', k' <> k ->
        handlers_of eqb k' (setdefault_append eqb k fn d)
        = handlers_of eqb k' d)
  /\ (k ∈ map fst d -> map fst (setdefault_append eqb k fn d) = map fst d)
  /\ (k ∉ map fst d ->
      map fst (setdefault_append eqb k fn d) = map fst d ++ [k])
  /\ (NoDup (map fst d) -> NoDup (map fst (setdefault_append eqb k fn d))).
Proof.
  assert (Hkeys : (k ∈ map fst d ->
                   map fst (setdefault_append eqb k fn d) = map fst d)
                  /\ (k ∉ map fst d ->
                      map fst (setdefault_append eqb k fn d) = map fst d ++ [k])).
  { induction d as [|[k0 fns] d IH]; simpl.
    - split; [|reflexivity]. intros H. now apply elem_of_nil in H.
    - destruct (eqb k0 k) eqn:E; simpl.
      + apply eqb_spec in E. subst k0. split; [reflexivity|].
        intros H. exfalso. apply H. apply list_elem_of_here.
      + destruct IH as [IH1 IH2]. split.
        * intros H. apply elem_of_cons in H. destruct H as [->|H].
          -- now rewrite eqb_same in E.
          -- now rewrite IH1.
        * intros H. apply not_elem_of_cons in H. destruct H as [_ H].
          now rewrite IH2. }
  destruct Hkeys as [Hin Hout].
  split; [|split; [|split; [exact Hin|split; [exact Hout|]]]].
  - clear Hin Hout. induction d as [|[k0 fns] d IH]; simpl.
    + now rewrite eqb_same.
    + destruct (eqb k0 k) eqn:E; simpl; rewrite E; [reflexivity|exact IH].
  - clear Hin Hout. intros k' Hne. induction d as [|[k0 fns] d IH]; simpl.
    + rewrite eqb_differ by congruence. reflexivity.
    + destruct (eqb k0 k) eqn:E; simpl.
      * apply eqb_spec in E. subst k0. rewrite eqb_differ by congruence.
        reflexivity.
      * destruct (eqb k0 k'); [reflexivity|exact IH].
  - intros ND. destruct (key_in_or_not k (map fst d)) as [H|H].
    + now rewrite Hin.
    + rewrite Hout by exact H. apply NoDup_app. split; [exact ND|].
      split; [|apply NoDup_singleton].
      intros x Hx Hx'. apply list_elem_of_singleton in Hx'. subst x.
      contradiction.
Qed.

End SetDefault.

(** X11.  [when_key] and [when_click] append: the new callback goes to
    the end of the list of its key (or of its sprite), so callbacks of one
    key are kept in registration order; the lists of the other keys are
    untouched; keys keep their order, a new key going last; and no key is
    ever listed twice. *)
Theorem X11_registration_appends {Cb U : Type} (key_code : string -> Z)
    (key_name : string) (sprite_obj : ref) (fn : Cb) (g : @Game Cb U) :
  let code := key_code key_name in
  let gk := when_key key_code key_name fn g in
  let gc := when_click sprite_obj fn g in
  (handlers_of Z.eqb code (_key_handlers gk)
   = handlers_of Z.eqb code (_key_handlers g) ++ [fn]
   /\ (forall k, k <> code ->
         handlers_of Z.eqb k (_key_handlers gk)
         = handlers_of Z.eqb k (_key_handlers g))
   /\ (code ∈ map fst (_key_handlers g) ->
       map fst (_key_handlers gk) = map fst (_key_handlers g))
   /\ (code ∉ map fst (_key_handlers g) ->
       map fst (_key_handlers gk) = map fst (_key_handlers g) ++ [code])
   /\ (NoDup (map fst (_key_handlers g)) ->
       NoDup (map fst (_key_handlers gk))))
  /\ (handlers_of Nat.eqb sprite_obj (_click_handlers gc)
      = handlers_of Nat.eqb sprite_obj (_click_handlers g) ++ [fn]
      /\ (forall r, r <> sprite_obj ->
            handlers_of Nat.eqb r (_click_handlers gc)
            = handlers_of Nat.eqb r (_click_handlers g))
      /\ (sprite_obj ∈ map fst (_click_handlers g) ->
          map fst (_click_handlers gc) = map fst (_click_handlers g))
      /\ (sprite_obj ∉ map fst (_click_handlers g) ->
          map fst (_click_handlers gc)
          = map fst (_click_handlers g) ++ [sprite_obj])
      /\ (NoDup (map fst (_click_handlers g)) ->
          NoDup (map fst (_click_handlers gc)))).
Proof.
  intros code gk gc. split.
  - exact (setdefault_append_spec Z.eqb Z.eqb_eq code fn (_key_handlers g)).
  - exact (setdefault_append_spec Nat.eqb Nat.eqb_eq sprite_obj fn
             (_click_handlers g)).
Qed.

(** ** Loops over the handler tables *)

Section Items.
Context {Cb U K V : Type}.
Implicit Types (g : @Game Cb U).
Variable d : @Game Cb U -> list (K * V).
Variable body : nat -> K -> @Pass Cb U.

Lemma for_items_changed size n i g :
  length (d g) <> size ->
  for_items d size body n i g = Raise RuntimeError_dict_changed_size.
Proof.
  intros H. destruct n; simpl.
  - destruct (Nat.eqb_spec (length (d g)) size); [contradiction|reflexivity].
  - destruct (Nat.eqb_spec (length (d g)) size); [contradiction|reflexivity].
Qed.

Lemma for_items_step n i g k v :
  d g !! i = Some (k, v) ->
  for_items d (length (d g)) body (S n) i g
  = andthen (body i k) (for_items d (length (d g)) body n (S i)) g.
Proof. intros H. simpl. now rewrite Nat.eqb_refl, H. Qed.

Lemma for_items_end i g :
  for_items d (length (d g)) body 0 i g = Ret (g, []).
Proof. simpl. now rewrite Nat.eqb_refl. Qed.

(** When the steps leave the table alone, the loop over the table is the
    loop over the fixed list of its entries. *)
Lemma for_items_stable :
  (forall i k g g' t, body i k g = Ret (g', t) -> d g' = d g) ->
  forall n i g,
    (i + n = length (d g))%nat ->
    for_items d (length (d g)) body n i g
    = for_each (fun i kv => body i (fst kv)) i (drop i (d g)) g.
Proof.
  intros Hsame. induction n as [|n IH]; intros i g Hn.
  - rewrite for_items_end. rewrite drop_ge by lia. reflexivity.
  - destruct (d g !! i) as [[k v]|] eqn:Hi.
    2: { apply lookup_ge_None in Hi. lia. }
    rewrite (for_items_step n i g k v Hi), (drop_S (d g) (k, v) i Hi).
    cbn [for_each fst]. unfold andthen, bind.
    destruct (body i k g) as [[g1 t1]| |] eqn:Hb; try reflexivity.
    pose proof (Hsame i k g g1 t1 Hb) as E.
    rewrite <- E. rewrite IH by (rewrite E; lia). reflexivity.
Qed.

End Items.

(** Two loops over a fixed list agree when their bodies agree on the
    states the loop goes through. *)
Lemma for_each_agree {Cb U A : Type} (P : @Game Cb U -> Prop)
    (body1 body2 : nat -> A -> @Pass Cb U) (l0 : list A) :
  (forall i a g, l0 !! i = Some a -> P g ->
     body1 i a g = body2 i a g
     /\ forall g' t, body2 i a g = Ret (g', t) -> P g') ->
  forall i g, P g ->
    for_each body1 i (drop i l0) g = for_each body2 i (drop i l0) g.
Proof.
  intros Hagree i g. remember (length l0 - i)%nat as n eqn:Hn.
  revert i g Hn. induction n as [|n IH]; intros i g Hn HP.
  - rewrite drop_ge by lia. reflexivity.
  - destruct (l0 !! i) as [a|] eqn:Hi.
    2: { apply lookup_ge_None in Hi. lia. }
    rewrite (drop_S l0 a i Hi). cbn [for_each]. unfold andthen, bind.
    destruct (Hagree i a g Hi HP) as [E Hkeep]. rewrite E.
    destruct (body2 i a g) as [[g1 t1]| |] eqn:Hb; try reflexivity.
    rewrite (IH (S i) g1) by (try lia; eapply Hkeep; reflexivity).
    reflexivity.
Qed.

(** A loop whose step either runs a batch of callbacks or does nothing,
    the choice not depending on the state. *)
Lemma for_each_batches {Cb U A B : Type} (batch : A -> list B)
    (ev : B -> @Event Cb) (f : B -> @Game Cb U -> @Game Cb U)
    (l : list A) (i : nat) (g : @Game Cb U) :
  for_each (fun _ a g =>
              Ret (fold_left (fun g b => f b g) (batch a) g,
                   map ev (batch a))) i l g
  = Ret (fold_left (fun g b => f b g) (flat_map batch l) g,
         map ev (flat_map batch l)).
Proof.
  revert i g. induction l as [|a l IH]; intros i g; [reflexivity|].
  cbn [for_each flat_map]. unfold andthen, bind. rewrite IH.
  now rewrite fold_left_app, map_app.
Qed.

Lemma fold_left_map {A B S : Type} (f : S -> B -> S) (h : A -> B) (l : list A)
    (s : S) :
  fold_left f (map h l) s = fold_left (fun s a => f s (h a)) l s.
Proof. revert s. induction l as [|a l IH]; intros s; [reflexivity|apply IH]. Qed.

Lemma fold_left_keeps {S B T : Type} (proj : S -> T) (f : S -> B -> S)
    (l : list B) (s : S) :
  (forall s b, proj (f s b) = proj s) -> proj (fold_left f l s) = proj s.
Proof.
  intros H. revert s. induction l as [|b l IH]; intros s; [reflexivity|].
  simpl. now rewrite IH.
Qed.

Section Dispatch.
Context {Cb U : Type}.
Variable call0 : Cb -> @Game Cb U -> @Game Cb U.
Implicit Types (g : @Game Cb U).

(** The inner loop over the callbacks of one entry of a table that the
    callbacks do not write. *)
Lemma inner_loop_stable {K : Type} (d : @Game Cb U -> list (K * list Cb))
    (ev : Cb -> @Event Cb) (i : nat) (k : K) (fns : list Cb) (fuel : nat) g :
  (forall fn g, d (call0 fn g) = d g) ->
  d g !! i = Some (k, fns) ->
  (length fns <= fuel)%nat ->
  for_live (value_at d i) (fun _ fn => invoke (ev fn) (call0 fn)) fuel 0 g
  = Ret (fold_left (fun g fn => call0 fn g) fns g, map ev fns).
Proof.
  intros Hsame Hi Hfuel.
  assert (V : value_at d i g = fns) by (unfold value_at; now rewrite Hi).
  rewrite for_live_stable.
  - rewrite V, drop_0. apply for_each_invoke.
  - intros j fn g1 g2 t. unfold invoke. intros [= <- _].
    unfold value_at. now rewrite Hsame.
  - rewrite V. lia.
Qed.

(** X12.  Held-key dispatch, for callbacks that do not register key
    handlers while it runs and fuel for the longest callback list: it
    completes, and what it calls is exactly, for every registered key in
    registration order that was down when the pass began, that key's
    callbacks in registration order; keys that are not down contribute
    nothing. *)
Theorem X12_held_key_dispatch (fuel : nat) g :
  (forall fn g, _key_handlers (call0 fn g) = _key_handlers g) ->
  Forall (fun kv => (length (snd kv) <= fuel)%nat) (_key_handlers g) ->
  key_dispatch call0 fuel g
  = Ret (fold_left (fun g cf => call0 (snd cf) g)
           (held_callbacks (pressed g) (_key_handlers g)) g,
         map (fun cf => EvKey (fst cf) (snd cf))
           (held_callbacks (pressed g) (_key_handlers g))).
Proof.
  intros Hsame Hfuel. unfold key_dispatch. cbv zeta.
  set (p0 := pressed g). pose (d0 := _key_handlers g).
  assert (Hinner : forall i code fns g1,
             _key_handlers g1 = d0 -> d0 !! i = Some (code, fns) ->
             for_live (value_at _key_handlers i)
               (fun _ fn => invoke (EvKey code fn) (call0 fn)) fuel 0 g1
             = Ret (fold_left (fun g fn => call0 fn g) fns g1,
                    map (EvKey code) fns)).
  { intros i code fns g1 E Hi. apply (inner_loop_stable _key_handlers _ i code).
    - exact Hsame.
    - now rewrite E.
    - rewrite Forall_forall in Hfuel.
      apply (Hfuel (code, fns)). apply list_elem_of_lookup. eauto. }
  rewrite (for_items_stable _key_handlers).
  - fold d0. rewrite (for_each_agree (fun g => _key_handlers g = d0) _
      (fun _ kv g =>
         Ret (fold_left (fun g cf => call0 (snd cf) g)
                ((fun '(code, fns) =>
                    if p0 code then map (pair code) fns else []) kv) g,
              map (fun cf => EvKey (fst cf) (snd cf))
                ((fun '(code, fns) =>
                    if p0 code then map (pair code) fns else []) kv))) d0).
    + rewrite drop_0. apply for_each_batches.
    + intros i [code fns] g1 Hi E. cbn [fst]. destruct (p0 code).
      * rewrite (Hinner i code fns g1 E Hi). split.
        -- now rewrite fold_left_map, map_map.
        -- intros g' t [= <- _].
           rewrite (fold_left_keeps _key_handlers); [exact E|].
           intros s b. apply Hsame.
      * split; [reflexivity|]. intros g' t [= <- _]. exact E.
    + reflexivity.
  - intros i code g1 g' t. destruct (p0 code).
    + intros Hrun.
      refine (proj1 (for_live_invariant _ _
                       (fun g => _key_handlers g = _key_handlers g1)
                       (fun _ => True) _ fuel 0%nat g1 g' t eq_refl Hrun)).
      intros j fn g2 g3 t3 E. unfold invoke. intros [= <- <-].
      split; [now rewrite Hsame|]. repeat constructor.
    + intros [= <- _]. reflexivity.
  - subst d0. simpl. lia.
Qed.

(** X13.  Click dispatch, for callbacks that do not register click
    handlers and do not change which registered sprites are under the
    pointer, and fuel for the longest callback list: it completes, and what
    it calls is exactly, for every registered sprite in registration order
    whose rectangle contains the click position, that sprite's callbacks in
    registration order.  Only the rectangle is looked at: whether the
    sprite is alive, or still in the sprite registry, plays no part; a
    click that is in no registered rectangle calls nothing. *)
Theorem X13_click_dispatch (fuel : nat) (pos : Z * Z) g :
  (forall fn g, _click_handlers (call0 fn g) = _click_handlers g) ->
  (forall fn g spr,
      under_pointer (heap (call0 fn g)) pos spr
      = under_pointer (heap g) pos spr) ->
  Forall (fun kv => (length (snd kv) <= fuel)%nat) (_click_handlers g) ->
  click_dispatch call0 fuel pos g
  = Ret (fold_left (fun g sf => call0 (snd sf) g)
           (clicked_callbacks (heap g) pos (_click_handlers g)) g,
         map (fun sf => EvClick (fst sf) (snd sf))
           (clicked_callbacks (heap g) pos (_click_handlers g))).
Proof.
  intros Hsame Hhit Hfuel. unfold click_dispatch.
  pose (d0 := _click_handlers g). pose (hp0 := heap g).
  assert (Hinner : forall i spr fns g1,
             _click_handlers g1 = d0 -> d0 !! i = Some (spr, fns) ->
             for_live (value_at _click_handlers i)
               (fun _ fn => invoke (EvClick spr fn) (call0 fn)) fuel 0 g1
             = Ret (fold_left (fun g fn => call0 fn g) fns g1,
                    map (EvClick spr) fns)).
  { intros i spr fns g1 E Hi.
    apply (inner_loop_stable _click_handlers _ i spr).
    - exact Hsame.
    - now rewrite E.
    - rewrite Forall_forall in Hfuel.
      apply (Hfuel (spr, fns)). apply list_elem_of_lookup. eauto. }
  assert (Hbody : forall i spr g1,
             match heap g1 !! spr with
             | Some s =>
                 if Rect.collidepoint (rect s) pos
                 then for_live (value_at _click_handlers i)
                        (fun _ fn => invoke (EvClick spr fn) (call0 fn))
                        fuel 0 g1
                 else skip g1
             | None => skip g1
             end
             = if under_pointer (heap g1) pos spr
               then for_live (value_at _click_handlers i)
                      (fun _ fn => invoke (EvClick spr fn) (call0 fn))
                      fuel 0 g1
               else skip g1).
  { intros i spr g1. unfold under_pointer. now destruct (heap g1 !! spr). }
  assert (Hfold : forall (l : list (ref * Cb)) g1 spr,
             under_pointer
               (heap (fold_left (fun g sf => call0 (snd sf) g) l g1)) pos spr
             = under_pointer (heap g1) pos spr).
  { induction l as [|sf l IH]; intros g1 spr; [reflexivity|].
    simpl. now rewrite IH, Hhit. }
  rewrite (for_items_stable _click_handlers).
  - fold d0. rewrite (for_each_agree
      (fun g => _click_handlers g = d0
                /\ forall spr, under_pointer (heap g) pos spr
                               = under_pointer hp0 pos spr) _
      (fun _ kv g =>
         Ret (fold_left (fun g sf => call0 (snd sf) g)
                ((fun '(spr, fns) =>
                    if under_pointer hp0 pos spr then map (pair spr) fns
                    else []) kv) g,
              map (fun sf => EvClick (fst sf) (snd sf))
                ((fun '(spr, fns) =>
                    if under_pointer hp0 pos spr then map (pair spr) fns
                    else []) kv))) d0).
    + rewrite drop_0. apply for_each_batches.
    + intros i [spr fns] g1 Hi [E Hp]. cbn [fst]. rewrite Hbody, Hp.
      destruct (under_pointer hp0 pos spr).
      * rewrite (Hinner i spr fns g1 E Hi). split.
        -- now rewrite fold_left_map, map_map.
        -- intros g' t [= <- _]. split.
           ++ rewrite (fold_left_keeps _click_handlers); [exact E|].
              intros s b. apply Hsame.
           ++ intros spr'. rewrite Hfold. apply Hp.
      * split; [reflexivity|]. intros g' t [= <- _]. auto.
    + auto.
  - intros i spr g1 g' t. rewrite Hbody.
    destruct (under_pointer (heap g1) pos spr).
    + intros Hrun.
      refine (proj1 (for_live_invariant _ _
                       (fun g => _click_handlers g = _click_handlers g1)
                       (fun _ => True) _ fuel 0%nat g1 g' t eq_refl Hrun)).
      intros j fn g2 g3 t3 E. unfold invoke. intros [= <- <-].
      split; [now rewrite Hsame|]. repeat constructor.
    + intros [= <- _]. reflexivity.
  - subst d0. simpl. lia.
Qed.

End Dispatch.

Lemma demo_call0_keeps_key_handlers (fn : DemoCb) (g : DemoGame) :
  _key_handlers (demo_call0 fn g) = _key_handlers g.
Proof. destruct fn; reflexivity. Qed.

Lemma demo_call0_keeps_click_handlers (fn : DemoCb) (g : DemoGame) :
  _click_handlers (demo_call0 fn g) = _click_handlers g.
Proof. destruct fn; reflexivity. Qed.

(** In [keys_game] space is down and left is not: the two space handlers
    run, in the order they were registered. *)
Lemma X12_witness :
  (forall fn g, _key_handlers (demo_call0 fn g) = _key_handlers g)
  /\ Forall (fun kv => (length (snd kv) <= 2)%nat) (_key_handlers keys_game)
  /\ _key_handlers keys_game = [(K_SPACE, [CbNop; CbCount]); (K_LEFT, [CbNop])]
  /\ key_dispatch demo_call0 2 keys_game
     = Ret (set_user 1 keys_game, [EvKey K_SPACE CbNop; EvKey K_SPACE CbCount]).
Proof.
  assert (Hfuel : Forall (fun kv => (length (snd kv) <= 2)%nat)
                    (_key_handlers keys_game)).
  { change (_key_handlers keys_game)
      with [(K_SPACE, [CbNop; CbCount]); (K_LEFT, [CbNop])].
    repeat constructor. }
  split; [exact demo_call0_keeps_key_handlers|]. split; [exact Hfuel|].
  split; [reflexivity|].
  rewrite (X12_held_key_dispatch demo_call0 2 keys_game
             demo_call0_keeps_key_handlers Hfuel).
  vm_compute. reflexivity.
Defined.

Lemma demo_call0_keeps_pointer (fn : DemoCb) (g : DemoGame) (spr : ref) :
  under_pointer (heap (demo_call0 fn g)) (105, 105) spr
  = under_pointer (heap g) (105, 105) spr.
Proof.
  unfold under_pointer. destruct fn as [| | |r]; simpl; try reflexivity.
  - destruct (lt_eq_lt_dec spr (length (heap g))) as [[Hlt|Heq]|Hgt].
    + now rewrite lookup_app_l by exact Hlt.
    + subst spr. rewrite lookup_app_r by lia. rewrite Nat.sub_diag. simpl.
      now rewrite (proj2 (lookup_ge_None (heap g) (length (heap g)))) by lia.
    + rewrite (proj2 (lookup_ge_None (heap g ++ _) spr))
        by (rewrite length_app; simpl; lia).
      now rewrite (proj2 (lookup_ge_None (heap g) spr)) by lia.
  - destruct (decide (r = spr)) as [->|Hne].
    + rewrite list_lookup_alter_eq. now destruct (heap g !! spr).
    + now rewrite list_lookup_alter_ne by exact Hne.
Qed.

(** A click at (105,105) in [button_game]: both handlers of the sprite
    run, the second one after the first has destroyed the sprite. *)
Lemma X13_witness :
  (forall fn g, _click_handlers (demo_call0 fn g) = _click_handlers g)
  /\ (forall fn (g : DemoGame) spr,
        under_pointer (heap (demo_call0 fn g)) (105, 105) spr
        = under_pointer (heap g) (105, 105) spr)
  /\ Forall (fun kv => (length (snd kv) <= 2)%nat) (_click_handlers button_game)
  /\ click_dispatch demo_call0 2 (105, 105) button_game
     = Ret (set_user 1 (modify 0%nat destroy button_game),
            [EvClick 0%nat (CbDestroy 0%nat); EvClick 0%nat CbCount]).
Proof.
  assert (Hfuel : Forall (fun kv => (length (snd kv) <= 2)%nat)
                    (_click_handlers button_game)).
  { change (_click_handlers button_game)
      with [(0%nat, [CbDestroy 0%nat; CbCount])].
    repeat constructor. }
  split; [exact demo_call0_keeps_click_handlers|].
  split; [exact demo_call0_keeps_pointer|]. split; [exact Hfuel|].
  rewrite (X13_click_dispatch demo_call0 2 (105, 105) button_game
             demo_call0_keeps_click_handlers demo_call0_keeps_pointer Hfuel).
  vm_compute. reflexivity.
Defined.

(** ** Registering a key from a held-key callback *)

Lemma andthen_skip_l {Cb U : Type} (q : @Pass Cb U) (g : @Game Cb U) :
  andthen skip q g = q g.
Proof.
  unfold andthen, skip, bind. now destruct (q g) as [[g2 t2]| |].
Qed.

Section KeyRegistration.
Context {Cb U : Type}.
Variable call0 : Cb -> @Game Cb U -> @Game Cb U.
Implicit Types (g : @Game Cb U).

(** X14.  If the first key that is down has one callback, and that
    callback registers a handler for a key that had none, held-key
    dispatch does not complete: the loop over the key table raises
    [RuntimeError] (dictionary changed size during iteration) as soon as
    the callback has returned, whatever keys follow. *)
Theorem X14_new_key_during_dispatch_raises (fuel : nat) g
    (earlier later : list (Z * list Cb)) (code code' : Z) (fn : Cb)
    (fns' : list Cb) :
  _key_handlers g = earlier ++ (code, [fn]) :: later ->
  Forall (fun kv => pressed g (fst kv) = false) earlier ->
  pressed g code = true ->
  _key_handlers (call0 fn g) = _key_handlers g ++ [(code', fns')] ->
  key_dispatch call0 (S fuel) g = Raise RuntimeError_dict_changed_size.
Proof.
  intros Hd Hup Hdown Hreg. unfold key_dispatch. cbv zeta.
  set (body := fun (i : nat) (code : Z) (g1 : @Game Cb U) =>
                 if pressed g code
                 then for_live (value_at _key_handlers i)
                        (fun _ fn => invoke (EvKey code fn) (call0 fn))
                        (S fuel) 0 g1
                 else skip g1).
  assert (Hskip : forall (pre done : list (Z * list Cb)) rest m,
             _key_handlers g = done ++ pre ++ rest ->
             Forall (fun kv => pressed g (fst kv) = false) pre ->
             for_items _key_handlers (length (_key_handlers g)) body
               (length pre + m) (length done) g
             = for_items _key_handlers (length (_key_handlers g)) body
                 m (length done + length pre) g).
  { induction pre as [|[k fns] pre IH]; intros done rest m E Hall.
    - simpl. now rewrite Nat.add_0_r.
    - apply Forall_cons in Hall. destruct Hall as [Hk Hall]. simpl in Hk.
      cbn [length Nat.add].
      rewrite (for_items_step _key_handlers body _ (length done) g k fns).
      2: { rewrite E. rewrite lookup_app_r by lia. now rewrite Nat.sub_diag. }
      assert (B : body (length done) k = skip).
      { unfold body. now rewrite Hk. }
      rewrite B, andthen_skip_l.
      replace (S (length done)) with (length (done ++ [(k, fns)]))
        by (rewrite length_app; simpl; lia).
      rewrite (IH (done ++ [(k, fns)]) rest m).
      + rewrite length_app. simpl. f_equal. lia.
      + rewrite E, <- app_assoc. reflexivity.
      + exact Hall. }
  assert (Hlen : length (_key_handlers g)
                 = (length earlier + S (length later))%nat).
  { rewrite Hd, length_app. reflexivity. }
  pose proof (Hskip earlier [] ((code, [fn]) :: later) (S (length later))
                Hd Hup) as Hs.
  cbn [length Nat.add] in Hs. rewrite <- Hlen in Hs. fold body. rewrite Hs.
  assert (Hi : _key_handlers g !! length earlier = Some (code, [fn])).
  { rewrite Hd. rewrite lookup_app_r by lia. now rewrite Nat.sub_diag. }
  rewrite (for_items_step _key_handlers body _ (length earlier) g code [fn] Hi).
  unfold andthen. unfold body at 1. rewrite Hdown.
  assert (V0 : value_at _key_handlers (length earlier) g !! 0%nat = Some fn).
  { unfold value_at. now rewrite Hi. }
  rewrite (for_live_step _ _ fuel 0 g fn V0).
  unfold andthen at 1. unfold invoke at 1. cbn [bind].
  assert (V1 : value_at _key_handlers (length earlier) (call0 fn g) !! 1%nat
               = None).
  { unfold value_at. rewrite Hreg.
    rewrite lookup_app_l by (apply lookup_lt_Some in Hi; exact Hi).
    now rewrite Hi. }
  rewrite (for_live_done _ _ fuel 1 (call0 fn g) V1). cbn [bind].
  rewrite for_items_changed; [reflexivity|].
  rewrite Hreg, length_app. simpl. lia.
Qed.

End KeyRegistration.

(** In [late_binding_game] the handler of the space key binds the left
    arrow the first time it runs. *)
Lemma X14_witness :
  _key_handlers late_binding_game = [] ++ (K_SPACE, [KcBindLeft]) :: []
  /\ Forall (fun kv => pressed late_binding_game (fst kv) = false)
       (@nil (Z * list KeyCb))
  /\ pressed late_binding_game K_SPACE = true
  /\ _key_handlers (key_call0 KcBindLeft late_binding_game)
     = _key_handlers late_binding_game ++ [(K_LEFT, [KcNop])]
  /\ key_dispatch key_call0 1 late_binding_game
     = Raise RuntimeError_dict_changed_size.
Proof.
  split; [reflexivity|]. split; [constructor|]. split; [reflexivity|].
  split; [reflexivity|].
  exact (X14_new_key_during_dispatch_raises key_call0 0 late_binding_game
           [] [] K_SPACE K_LEFT KcBindLeft [KcNop]
           eq_refl (Forall_nil_2 _) eq_refl eq_refl).
Defined.

(** ** Frames in the game-over state *)

Section GameOver.
Context {Cb U : Type}.
Variable sqrt : Q -> Q.
Variable text_width : string -> Z -> Z.
Variable call0 : Cb -> @Game Cb U -> @Game Cb U.
Variable call1 : Cb -> Q -> @Game Cb U -> @Game Cb U.
Variable call2 : Cb -> ref -> ref -> @Game Cb U -> @Game Cb U.
Implicit Types (g : @Game Cb U).

(** With the flag up and no restart key, the event loop changes nothing
    and calls nothing. *)
Lemma event_loop_game_over fuel evs running g :
  _game_over_flag g = true ->
  Forall (fun e => is_restart_key e = false) evs ->
  event_loop call0 fuel evs running g
  = Ret (running && forallb (fun e => negb (is_quit e)) evs, g, []).
Proof.
  intros Hflag Hall. revert running.
  induction Hall as [|e evs He Hall IH]; intros running.
  - simpl. now rewrite andb_true_r.
  - simpl. destruct e as [|key|pos|]; simpl.
    + rewrite IH. simpl. now rewrite andb_false_r.
    + simpl in He. rewrite He, andb_false_r. apply IH.
    + rewrite Hflag. simpl. apply IH.
    + apply IH.
Qed.

(** X15.  While the game-over flag is set, an iteration that drains no
    restart key does nothing but draw: no click, held-key, frame or overlap
    callback is called, no sprite is simulated or reaped, the transient
    draw and text commands are kept, and the module state after the
    iteration is the state before it (with the key state of the frame).
    What is drawn is the background, the message, the restart prompt, and
    the flip; clicks are ignored, and a [QUIT] still ends the loop. *)
Theorem X15_game_over_frame_only_draws (fuel : nat) (width height : Z)
    (inp : FrameInput) g :
  _game_over_flag g = true ->
  Forall (fun e => is_restart_key e = false) (events inp) ->
  frame sqrt text_width call0 call1 call2 fuel width height inp g
  = bind (draw_background width height (set_pressed (keys inp) g))
      (fun bg =>
         Ret (forallb (fun e => negb (is_quit e)) (events inp),
              set_pressed (keys inp) g,
              map EvDraw
                (bg ++ [BlitText (_game_over_msg g) 64 (255, 50, 50)
                          ((width - text_width (_game_over_msg g) 64) / 2,
                           height / 2 - 80);
                        BlitText "Press SPACE to Restart" 32 (200, 200, 200)
                          ((width - text_width "Press SPACE to Restart" 32) / 2,
                           height / 2 + 10);
                        Flip]))).
Proof.
  intros Hflag Hall. unfold frame.
  rewrite event_loop_game_over by (exact Hflag || exact Hall).
  cbn [bind andb]. unfold after_events.
  change (_game_over_flag (set_pressed (keys inp) g)) with (_game_over_flag g).
  rewrite Hflag. unfold game_over_screen, bind.
  now destruct (draw_background width height (set_pressed (keys inp) g)).
Qed.

(** While the game runs, only clicks and the quit event matter to the
    event loop. *)
Lemma event_loop_running_no_click fuel evs running g :
  _game_over_flag g = false ->
  Forall (fun e => match e with MOUSEBUTTONDOWN _ => False | _ => True end)
    evs ->
  event_loop call0 fuel evs running g
  = Ret (running && forallb (fun e => negb (is_quit e)) evs, g, []).
Proof.
  intros Hflag Hall. revert running.
  induction Hall as [|e evs He Hall IH]; intros running.
  - simpl. now rewrite andb_true_r.
  - simpl. destruct e as [|key|pos|]; simpl.
    + rewrite IH. simpl. now rewrite andb_false_r.
    + rewrite Hflag. simpl. apply IH.
    + contradiction.
    + apply IH.
Qed.

(** X16.  While the game is running, key-down events have no effect of
    their own, the space key included: an iteration whose events contain no
    click is exactly the simulation of the state it started from (with the
    key state of the frame).  Keys act only through the held-key pass and
    the arrow handlers, which read the key state. *)
Theorem X16_key_events_do_nothing_while_running (fuel : nat)
    (width height : Z) (inp : FrameInput) g :
  _game_over_flag g = false ->
  Forall (fun e => match e with MOUSEBUTTONDOWN _ => False | _ => True end)
    (events inp) ->
  frame sqrt text_width call0 call1 call2 fuel width height inp g
  = bind (simulate sqrt call0 call1 call2 fuel (inject_Z (ticks inp) / 1000)
            width height (set_pressed (keys inp) g))
      (fun '(g2, t2) =>
         Ret (forallb (fun e => negb (is_quit e)) (events inp), g2, t2)).
Proof.
  intros Hflag Hall. unfold frame.
  rewrite event_loop_running_no_click by (exact Hflag || exact Hall).
  cbn [bind andb]. unfold after_events.
  change (_game_over_flag (set_pressed (keys inp) g)) with (_game_over_flag g).
  rewrite Hflag. unfold bind.
  destruct (simulate _ _ _ _ _ _ _ _ _) as [[g2 t2]| |]; reflexivity.
Qed.

(** X17.  The restart key ends the event loop: whatever follows it in
    the same batch is dropped, unseen.  A [QUIT] that comes after it does
    not stop the main loop, and a click that comes after it is never
    dispatched. *)
Theorem X17_events_after_restart_are_dropped (fuel : nat)
    (pre post post' : list PgEvent) (running : bool) g :
  _game_over_flag g = true ->
  Forall (fun e => is_restart_key e = false) pre ->
  event_loop call0 fuel (pre ++ KEYDOWN K_SPACE :: post) running g
  = event_loop call0 fuel (pre ++ KEYDOWN K_SPACE :: post') running g.
Proof.
  intros Hflag Hpre.
  now rewrite !event_loop_until_restart by (exact Hflag || exact Hpre).
Qed.

End GameOver.

(** A click and a quit while [lost_game] shows its message. *)
Lemma X15_witness :
  let inp := {| ticks := 17; events := [MOUSEBUTTONDOWN (1, 1); QUIT];
                keys := no_keys |} in
  _game_over_flag lost_game = true
  /\ Forall (fun e => is_restart_key e = false) (events inp)
  /\ frame demo_sqrt demo_text_width demo_call0 demo_call1 demo_call2 2
       640 480 inp lost_game
     = Ret (false, set_pressed no_keys lost_game,
            [EvDraw (Fill (0, 0, 0));
             EvDraw (BlitText "You Lose!" 64 (255, 50, 50) (176, 160));
             EvDraw (BlitText "Press SPACE to Restart" 32 (200, 200, 200)
                       (144, 250));
             EvDraw Flip]).
Proof.
  intros inp.
  assert (Hflag : _game_over_flag lost_game = true) by (vm_compute; reflexivity).
  assert (Hall : Forall (fun e => is_restart_key e = false) (events inp))
    by (repeat constructor).
  split; [exact Hflag|]. split; [exact Hall|].
  rewrite (X15_game_over_frame_only_draws demo_sqrt demo_text_width demo_call0
             demo_call1 demo_call2 2 640 480 inp lost_game Hflag Hall).
  vm_compute. reflexivity.
Defined.

(** Pressing space while [overlap_game] runs: the frame is an ordinary
    frame. *)
Lemma X16_witness :
  let inp := {| ticks := 17; events := [KEYDOWN K_SPACE]; keys := space_held |} in
  _game_over_flag overlap_game = false
  /\ Forall (fun e => match e with MOUSEBUTTONDOWN _ => False | _ => True end)
       (events inp)
  /\ frame demo_sqrt demo_text_width demo_call0 demo_call1 demo_call2 2
       640 480 inp overlap_game
     = bind (simulate demo_sqrt demo_call0 demo_call1 demo_call2 2
               (inject_Z 17 / 1000) 640 480 (set_pressed space_held overlap_game))
         (fun '(g2, t2) => Ret (true, g2, t2)).
Proof.
  intros inp.
  assert (Hflag : _game_over_flag overlap_game = false)
    by (vm_compute; reflexivity).
  assert (Hall : Forall (fun e => match e with
                                  | MOUSEBUTTONDOWN _ => False
                                  | _ => True
                                  end) (events inp))
    by (repeat constructor).
  split; [exact Hflag|]. split; [exact Hall|].
  exact (X16_key_events_do_nothing_while_running demo_sqrt demo_text_width
           demo_call0 demo_call1 demo_call2 2 640 480 inp overlap_game
           Hflag Hall).
Defined.

(** Closing the window right after pressing space in [lost_game]: the
    [QUIT] is lost. *)
Lemma X17_witness :
  _game_over_flag lost_game = true
  /\ Forall (fun e => is_restart_key e = false) (@nil PgEvent)
  /\ event_loop demo_call0 2 ([] ++ KEYDOWN K_SPACE :: [QUIT]) true lost_game
     = event_loop demo_call0 2 ([] ++ KEYDOWN K_SPACE :: []) true lost_game.
Proof.
  assert (Hflag : _game_over_flag lost_game = true) by (vm_compute; reflexivity).
  split; [exact Hflag|]. split; [constructor|].
  exact (X17_events_after_restart_are_dropped demo_call0 2 [] [QUIT] [] true
           lost_game Hflag (Forall_nil_2 _)).
Defined.

(** ** Quitting *)

Section Quit.
Context {Cb U : Type}.
Variable sqrt : Q -> Q.
Variable text_width : string -> Z -> Z.
Variable call0 : Cb -> @Game Cb U -> @Game Cb U.
Variable call1 : Cb -> Q -> @Game Cb U -> @Game Cb U.
Variable call2 : Cb -> ref -> ref -> @Game Cb U -> @Game Cb U.
Implicit Types (g : @Game Cb U).

(** Once [running] is false nothing in the event loop raises it again. *)
Lemma event_loop_stays_down fuel evs g r g' t :
  event_loop call0 fuel evs false g = Ret (r, g', t) -> r = false.
Proof.
  revert g r g' t. induction evs as [|e evs IH]; intros g r g' t.
  - simpl. now intros [= <- _ _].
  - simpl. destruct e as [|key|pos|].
    + apply IH.
    + destruct (_game_over_flag g && (key =? K_SPACE)).
      * unfold bind. destruct (restart call0 fuel g) as [[g1 t1]| |];
          try discriminate. now intros [= <- _ _].
      * apply IH.
    + destruct (negb (_game_over_flag g)); [|apply IH].
      unfold bind. destruct (click_dispatch call0 fuel pos g) as [[g1 t1]| |];
        try discriminate.
      destruct (event_loop call0 fuel evs false g1) as [[[r2 g2] t2]| |] eqn:E;
        try discriminate.
      intros [= <- _ _]. eapply IH. exact E.
    + apply IH.
Qed.

(** X21.  A [QUIT] at the head of the drained events ends the main loop
    after the current iteration: that iteration is run to its end (the
    other events of the batch, then the game-over screen or the whole
    simulation and drawing), and no later iteration is run. *)
Theorem X21_quit_ends_the_loop (fuel : nat) (width height ms : Z)
    (evs : list PgEvent) (held : Z -> bool) (later : list FrameInput) g :
  main_loop sqrt text_width call0 call1 call2 fuel width height
    ({| ticks := ms; events := QUIT :: evs; keys := held |} :: later) g
  = bind (frame sqrt text_width call0 call1 call2 fuel width height
            {| ticks := ms; events := QUIT :: evs; keys := held |} g)
      (fun '(_, g1, t1) => Ret (g1, t1)).
Proof.
  cbn [main_loop]. unfold frame. cbn [events ticks keys event_loop].
  unfold bind.
  destruct (event_loop call0 fuel evs false (set_pressed held g))
    as [[[r g1] t1]| |] eqn:E; try reflexivity.
  apply event_loop_stays_down in E. subst r.
  destruct (after_events _ _ _ _ _ _ _ _ _ g1) as [[g2 t2]| |]; reflexivity.
Qed.

End Quit.

(** ** Drawing *)

(** X18.  Draw and text commands are one-shot.  A draw pass renders the
    background, the sprites of the registry in registration order, the
    pending circles, the pending texts and flips; it empties both command
    buffers and changes nothing else, so that a second draw pass straight
    after it renders the same background and sprites and no circle or
    text. *)
Theorem X18_draw_commands_are_one_shot {Cb U : Type} (width height : Z)
    (g g' : @Game Cb U) (t : list (@Event Cb)) :
  draw width height g = Ret (g', t) ->
  exists bg,
    draw_background width height g = Ret bg
    /\ t = map EvDraw bg
           ++ flat_map (draw_sprite (heap g)) (_sprites g)
           ++ map (fun '(x, y, r) => EvDraw (DrawCircle white (x, y) r))
                (_draw_commands g)
           ++ map (fun '(text, x, y, size) =>
                     EvDraw (BlitText text size white (x, y)))
                (_text_commands g)
           ++ [EvDraw Flip]
    /\ _draw_commands g' = [] /\ _text_commands g' = []
    /\ heap g' = heap g /\ _sprites g' = _sprites g
    /\ draw width height g'
       = Ret (g', map EvDraw bg
                  ++ flat_map (draw_sprite (heap g)) (_sprites g)
                  ++ [EvDraw Flip]).
Proof.
  unfold draw at 1. unfold bind.
  destruct (draw_background width height g) as [bg| |] eqn:Hbg; try discriminate.
  intros [= <- <-]. exists bg. split; [reflexivity|]. split; [reflexivity|].
  repeat (split; [reflexivity|]).
  unfold draw.
  change (draw_background width height
            (set_text_commands [] (set_draw_commands [] g)))
    with (draw_background width height g).
  rewrite Hbg. reflexivity.
Qed.

(** The circle pending in a copy of [lost_game] whose flag is down. *)
Lemma X18_witness :
  let g := set_game_over_flag false lost_game in
  let g' := set_text_commands [] (set_draw_commands [] g) in
  let shown := [EvDraw (Fill (0, 0, 0));
                EvDrawSprite 0%nat (DrawRect blue (Rect.mk 0 0 10 10))] in
  draw 640 480 g
  = Ret (g', shown ++ [EvDraw (DrawCircle white (1, 2) 3); EvDraw Flip])
  /\ draw 640 480 g' = Ret (g', shown ++ [EvDraw Flip]).
Proof.
  intros g g' shown.
  assert (H : draw 640 480 g
              = Ret (g', shown ++ [EvDraw (DrawCircle white (1, 2) 3);
                                   EvDraw Flip]))
    by (vm_compute; reflexivity).
  split; [exact H|].
  destruct (X18_draw_commands_are_one_shot 640 480 g g' _ H)
    as (bg & Hbg & _ & _ & _ & _ & _ & Hagain).
  rewrite Hagain.
  assert (E : bg = [Fill (0, 0, 0)]).
  { vm_compute in Hbg. now injection Hbg as <-. }
  rewrite E. vm_compute. reflexivity.
Defined.

(** ** Platforms across a restart *)

(** X19.  A restart empties the sprite registry but never the platform
    list: when the on-start callbacks only add platforms (as [platform]
    does), every platform registered before the restart is still
    registered after it, at the same position of the list, while its
    sprite has left the registry at the reset; the platforms that the
    callbacks create again come after the old ones. *)
Theorem X19_restart_keeps_platforms {Cb U : Type}
    (call0 : Cb -> @Game Cb U -> @Game Cb U) (fuel : nat)
    (g g' : @Game Cb U) (t : list (@Event Cb)) :
  (forall fn g, _platforms g `prefix_of` _platforms (call0 fn g)) ->
  restart call0 fuel g = Ret (g', t) ->
  _platforms g `prefix_of` _platforms g'
  /\ _sprites (reset_state g) = []
  /\ heap (reset_state g) = heap g.
Proof.
  intros Hgrow Hrun. split; [|split; reflexivity].
  unfold restart, run_start_handlers in Hrun.
  refine (proj1 (for_live_invariant _ _
                   (fun g1 => _platforms g `prefix_of` _platforms g1)
                   (fun _ => True) _ fuel 0%nat (reset_state g) g' t _ Hrun)).
  - intros i fn g1 g2 t2 P. unfold invoke. intros [= <- <-].
    split; [|repeat constructor]. etrans; [exact P|apply Hgrow].
  - reflexivity.
Qed.

Lemma demo_call0_grows_platforms (fn : DemoCb) (g : DemoGame) :
  _platforms g `prefix_of` _platforms (demo_call0 fn g).
Proof. destruct fn; reflexivity. Qed.

(** [landing_game] lost and restarted: its two platforms are still in the
    platform list, and the registry holds only what the on-start callback
    created. *)
Lemma X19_witness :
  let g := game_over "You Lose!" (on_game_start CbSpawn landing_game) in
  let g' := demo_call0 CbSpawn (reset_state g) in
  (forall fn (g : DemoGame), _platforms g `prefix_of` _platforms (demo_call0 fn g))
  /\ restart demo_call0 1 g = Ret (g', [EvStart CbSpawn])
  /\ _platforms g = [1; 2]%nat
  /\ _platforms g `prefix_of` _platforms g'
  /\ _sprites g' = [3%nat].
Proof.
  intros g g'.
  assert (Hrun : restart demo_call0 1 g = Ret (g', [EvStart CbSpawn]))
    by (vm_compute; reflexivity).
  split; [exact demo_call0_grows_platforms|]. split; [exact Hrun|].
  split; [vm_compute; reflexivity|].
  split; [|vm_compute; reflexivity].
  exact (proj1 (X19_restart_keeps_platforms demo_call0 1 g g' _
                  demo_call0_grows_platforms Hrun)).
Defined.

(** ** Follow *)

Section Follow.
Context {Cb U : Type}.
Variable sqrt : Q -> Q.
Implicit Types (g : @Game Cb U) (s : GameSprite) (spr r : ref).

(** X20.  The follow step moves the sprite and nothing else: the
    sprite's velocity, size and every other attribute are as before, no
    other object is written, and the displacement does not depend on the
    sprite's velocity.  When the target's centre is the sprite's own
    centre (a sprite following itself, for one) and the square root of zero
    is not positive, the sprite is left where it is. *)
Theorem X20_follow_moves_only_the_position (dt : Q) spr g s :
  heap g !! spr = Some s ->
  exists s',
    heap (step_follow sqrt dt spr g) !! spr = Some s'
    /\ speed s' = speed s
    /\ Rect.width (rect s') = Rect.width (rect s)
    /\ Rect.height (rect s') = Rect.height (rect s)
    /\ same_settings s s' /\ alive s' = alive s /\ _age s' = _age s
    /\ (forall r, r <> spr -> heap (step_follow sqrt dt spr g) !! r = heap g !! r)
    /\ (forall v, rect (follow_sprite sqrt (heap g) dt (with_speed v s)) = rect s')
    /\ (forall targ spd t,
          _follow s = Some (targ, spd) -> heap g !! targ = Some t ->
          Rect.center (rect t) = Rect.center (rect s) ->
          (forall q, (q == 0)%Q -> ~ (0 < sqrt q)%Q) ->
          s' = s).
Proof.
  intros Hs. rewrite (step_follow_insert sqrt dt spr g s Hs).
  cbn [heap set_heap].
  rewrite list_lookup_insert_eq by (now apply lookup_lt_Some in Hs).
  eexists. split; [reflexivity|].
  destruct (follow_sprite_fields sqrt (heap g) dt s)
    as (S0 & Sp & Al & Ag & _ & W & H).
  cbv zeta in S0, Sp, Al, Ag, W, H.
  repeat (split; [assumption|]).
  split; [intros r Hne; now rewrite list_lookup_insert_ne by congruence|].
  split.
  - intros v. unfold follow_sprite. cbn [_follow with_speed rect].
    destruct (_follow s) as [[targ spd]|]; [|reflexivity].
    destruct (heap g !! targ); [|reflexivity].
    now destruct (Qltb 0 _).
  - intros targ spd t Hf Ht Hc Hsqrt. unfold follow_sprite.
    rewrite Hf, Ht, Hc.
    assert (Z0 : Qltb 0
                   (Vector2.length sqrt
                      (Vector2.sub (Vector2.of_ints (Rect.center (rect s)))
                         (Vector2.of_ints (Rect.center (rect s)))))
                 = false).
    { unfold Qltb. destruct (Qlt_le_dec _ _) as [Hpos|]; [|reflexivity].
      exfalso. revert Hpos. apply Hsqrt.
      unfold Vector2.sub, Vector2.of_ints. simpl. ring. }
    now rewrite Z0.
Qed.

End Follow.

Lemma demo_sqrt_zero (q : Q) : (q == 0)%Q -> ~ (0 < demo_sqrt q)%Q.
Proof.
  intros E. unfold demo_sqrt. rewrite (Qceiling_comp q 0 E).
  intros H. vm_compute in H. discriminate.
Qed.

(** A sprite told to follow itself stays put. *)
Lemma X20_witness :
  let s := follow 0%nat 90
             (GameSprite_init None (Rect.mk 5 7 10 10) blue (-3, 2)%Q None) in
  let g := modify 0%nat (follow 0%nat 90) drift_game in
  heap g !! 0%nat = Some s
  /\ heap (step_follow demo_sqrt (17 # 1000) 0%nat g) !! 0%nat = Some s.
Proof.
  intros s g.
  assert (Hs : heap g !! 0%nat = Some s) by reflexivity.
  split; [exact Hs|].
  destruct (X20_follow_moves_only_the_position demo_sqrt (17 # 1000) 0%nat g s Hs)
    as (s' & Hs' & _ & _ & _ & _ & _ & _ & _ & _ & Hself).
  rewrite Hs'. f_equal.
  exact (Hself 0%nat 90%Q s eq_refl Hs eq_refl demo_sqrt_zero).
Defined.

(** ** Free fall *)



(** ** Background before or after the window *)

(** X23.  [set_background] may be called before or after [start] has
    created the window, as its docstring says: from a state with no window
    and no background image set, setting the background and then opening
    the window gives the same module state (surface, printed notices and
    all) as opening the window and then setting the background.  Before
    the window exists nothing is loaded and nothing is printed. *)
Theorem X23_background_before_or_after_start {Cb U : Type}
    (image_load : string -> option Surface)
    (smoothscale : Surface -> Z * Z -> option Surface)
    (image_path : option string) (c : Color) (mode : BackgroundMode)
    (width height : Z) (g : @Game Cb U) :
  _screen g = None ->
  truthy (_background_path g) = None ->
  open_window image_load smoothscale width height
    (set_background image_load smoothscale image_path c mode g)
  = set_background image_load smoothscale image_path c mode
      (open_window image_load smoothscale width height g)
  /\ console (set_background image_load smoothscale image_path c mode g)
     = console g
  /\ _background_surface (set_background image_load smoothscale image_path c
                            mode g)
     = _background_surface g.
Proof.
  intros Hscreen Hpath. destruct g. simpl in Hscreen, Hpath. subst.
  unfold open_window, set_background, _prepare_background. simpl.
  split; [|split; reflexivity].
  rewrite Hpath. simpl.
  destruct (truthy image_path) as [p|]; [|reflexivity].
  destruct (image_load p) as [img|]; [|reflexivity].
  destruct mode; [|reflexivity].
  destruct (smoothscale img (width, height)); reflexivity.
Qed.

(** A stretched background set on the freshly imported module. *)
Lemma X23_witness :
  let g := initial (Cb := DemoCb) (U := Z) 0 in
  _screen g = None
  /\ truthy (_background_path g) = None
  /\ open_window loading_ok demo_smoothscale 640 480
       (set_background loading_ok demo_smoothscale (Some "sky.png"%string)
          (1, 2, 3) stretch g)
     = set_background loading_ok demo_smoothscale (Some "sky.png"%string)
         (1, 2, 3) stretch (open_window loading_ok demo_smoothscale 640 480 g)
  /\ _background_surface
       (open_window loading_ok demo_smoothscale 640 480
          (set_background loading_ok demo_smoothscale (Some "sky.png"%string)
             (1, 2, 3) stretch g))
     = Some {| surf_data := 7; surf_size := (640, 480) |}.
Proof.
  intros g. split; [reflexivity|]. split; [reflexivity|].
  split; [|vm_compute; reflexivity].
  exact (proj1 (X23_background_before_or_after_start loading_ok demo_smoothscale
                  (Some "sky.png"%string) (1, 2, 3) stretch 640 480 g
                  eq_refl eq_refl)).
Defined.

(** ** Callbacks that register callbacks of the list being run *)

Section LiveLists.
Context {Cb U : Type}.
Variable call0 : Cb -> @Game Cb U -> @Game Cb U.
Implicit Types (g : @Game Cb U) (fn : Cb).

(** X24.  The [when_update] hooks are run over the live list: when the
    callbacks only append to it (as [when_update] does) and the pass
    completes, every hook of the list as it is at the end of the pass has
    been called once, in list order, the hooks registered during the pass
    included: they do not wait for the next frame. *)
Theorem X24_hooks_added_during_dispatch_run (fuel : nat) g g'
    (t : list (@Event Cb)) :
  (forall fn g, _update_handlers g `prefix_of` _update_handlers (call0 fn g)) ->
  update_dispatch call0 fuel g = Ret (g', t) ->
  _update_handlers g `prefix_of` _update_handlers g'
  /\ t = map EvUpdate (_update_handlers g')
  /\ g' = fold_left (fun g fn => call0 fn g) (_update_handlers g') g.
Proof.
  intros Hgrow Hrun. unfold update_dispatch in Hrun.
  apply (for_live_grows _update_handlers
           (fun _ fn => invoke (EvUpdate fn) (call0 fn))) in Hrun.
  - destruct Hrun as [Hpre Hall]. split; [exact Hpre|].
    rewrite drop_0 in Hall.
    rewrite (for_each_invoke EvUpdate call0) in Hall.
    injection Hall as Hg Ht. split; [now symmetry|now symmetry].
  - intros i a g0 g1 t1 Hb. unfold invoke in Hb. injection Hb as <- _.
    apply Hgrow.
Qed.

(** The on-start loop from index [i], when the list is [pre] followed by
    one or more copies of a callback that appends itself. *)
Lemma start_loop_never_ends (pre : list Cb) fn :
  (forall f g, f ∈ pre -> _game_start_handlers (call0 f g) = _game_start_handlers g) ->
  (forall g, _game_start_handlers (call0 fn g) = _game_start_handlers g ++ [fn]) ->
  forall fuel k i g,
    _game_start_handlers g = pre ++ replicate (S k) fn ->
    (i < length pre + S k)%nat ->
    for_live _game_start_handlers (fun _ f => invoke (EvStart f) (call0 f))
      fuel i g = Timeout.
Proof.
  intros Hquiet Hself. induction fuel as [|fuel IH]; intros k i g Hl Hi.
  - simpl. destruct (_game_start_handlers g !! i) eqn:E; [reflexivity|].
    apply lookup_ge_None in E. rewrite Hl, length_app, length_replicate in E.
    lia.
  - destruct (_game_start_handlers g !! i) as [f|] eqn:E.
    + rewrite (for_live_step _ _ fuel i g f E).
      unfold andthen at 1, invoke at 1. cbn [bind].
      rewrite Hl in E. apply lookup_app_Some in E.
      destruct E as [E|[Hge E]].
      * assert (Hin : f ∈ pre) by (eapply list_elem_of_lookup_2; exact E).
        apply lookup_lt_Some in E.
        rewrite (IH k (S i) (call0 f g)); [reflexivity| |lia].
        rewrite (Hquiet f g Hin). exact Hl.
      * apply lookup_replicate in E. destruct E as [-> Hlt].
        rewrite (IH (S k) (S i) (call0 fn g)); [reflexivity| |lia].
        rewrite Hself, Hl, <- app_assoc. f_equal.
        symmetry. apply (replicate_S_end (S k) fn).
    + apply lookup_ge_None in E. rewrite Hl, length_app, length_replicate in E.
      lia.
Qed.

(** X25.  A setup function that registers itself with [on_game_start]
    each time it is called never lets the on-start loop end: the loop
    reads the list it is growing, so that however long it runs there is
    one more call to make.  The callbacks before it in the list are run
    first; neither [start] nor a restart returns from the loop. *)
Theorem X25_self_registering_setup_never_ends (pre : list Cb) fn g :
  _game_start_handlers g = pre ++ [fn] ->
  (forall f g, f ∈ pre -> _game_start_handlers (call0 f g) = _game_start_handlers g) ->
  (forall g, _game_start_handlers (call0 fn g) = _game_start_handlers g ++ [fn]) ->
  forall fuel,
    run_start_handlers call0 fuel g = Timeout
    /\ restart call0 fuel g = Timeout.
Proof.
  intros Hl Hquiet Hself fuel. unfold restart, run_start_handlers. split.
  - apply (start_loop_never_ends pre fn Hquiet Hself fuel 0 0 g); [exact Hl|lia].
  - apply (start_loop_never_ends pre fn Hquiet Hself fuel 0 0 (reset_state g));
      [exact Hl|lia].
Qed.

End LiveLists.

(** A hook that installs a second hook: both run in the same pass. *)
Lemma X24_witness :
  (forall fn g, _update_handlers g `prefix_of` _update_handlers (hook_call0 fn g))
  /\ update_dispatch hook_call0 2 hooking_game
     = Ret (when_update HkNop hooking_game, [EvUpdate HkHook; EvUpdate HkNop])
  /\ _update_handlers hooking_game = [HkHook]
  /\ _update_handlers (when_update HkNop hooking_game) = [HkHook; HkNop]
  /\ [EvUpdate HkHook; EvUpdate HkNop]
     = map EvUpdate (_update_handlers (when_update HkNop hooking_game)).
Proof.
  assert (Hgrow : forall fn g,
             _update_handlers g `prefix_of` _update_handlers (hook_call0 fn g)).
  { intros fn g. destruct fn; simpl; try reflexivity.
    destruct g; simpl. now exists [HkNop]. }
  assert (Hrun : update_dispatch hook_call0 2 hooking_game
                 = Ret (when_update HkNop hooking_game,
                        [EvUpdate HkHook; EvUpdate HkNop]))
    by (vm_compute; reflexivity).
  split; [exact Hgrow|]. split; [exact Hrun|].
  split; [reflexivity|]. split; [reflexivity|].
  exact (proj1 (proj2 (X24_hooks_added_during_dispatch_run hook_call0 2
                         hooking_game _ _ Hgrow Hrun))).
Defined.

(** A quiet callback, then a setup function that registers itself. *)
Lemma X25_witness :
  _game_start_handlers self_registering_game = [HkNop] ++ [HkSetup]
  /\ run_start_handlers hook_call0 1000 self_registering_game = Timeout
  /\ restart hook_call0 1000 self_registering_game = Timeout.
Proof.
  split; [reflexivity|].
  apply (X25_self_registering_setup_never_ends hook_call0 [HkNop] HkSetup
           self_registering_game).
  - reflexivity.
  - intros f g Hin. apply list_elem_of_singleton in Hin. subst f. reflexivity.
  - intros g. destruct g; reflexivity.
Defined.

(** ** example.py: the collision loops of [step] *)

Import example.

Section Loops.
Variable image_load : string -> option Surface.
Variable smoothscale : Surface -> Z * Z -> option Surface.
Implicit Types (g : ExGame) (u : Globals) (p r b x : ref) (bs rs l : list ref).

Lemma is_alive_destroy g b x :
  is_alive (modify b destroy g) x = is_alive g x && negb (x =? b)%nat.
Proof.
  unfold is_alive, modify. cbn [heap set_heap].
  destruct (Nat.eqb_spec x b) as [->|Hne].
  - rewrite list_lookup_alter_eq. destruct (heap g !! b); simpl.
    + now rewrite andb_false_r.
    + reflexivity.
  - rewrite list_lookup_alter_ne by congruence. now rewrite andb_true_r.
Qed.

Lemma rect_of_destroy g b x : rect_of (modify b destroy g) x = rect_of g x.
Proof.
  unfold rect_of, modify. cbn [heap set_heap].
  destruct (Nat.eq_dec x b) as [->|Hne].
  - rewrite list_lookup_alter_eq. now destruct (heap g !! b).
  - now rewrite list_lookup_alter_ne by congruence.
Qed.

Lemma lookup_destroy_ne g b x :
  x <> b -> heap (modify b destroy g) !! x = heap g !! x.
Proof.
  intros Hne. unfold modify. cbn [heap set_heap].
  now rewrite list_lookup_alter_ne by congruence.
Qed.

Lemma length_destroy g b : length (heap (modify b destroy g)) = length (heap g).
Proof. unfold modify. cbn [heap set_heap]. apply length_alter. Qed.

Lemma live_ext g g' l :
  (forall x, x ∈ l -> is_alive g' x = is_alive g x) -> live g' l = live g l.
Proof.
  unfold live. induction l as [|a l IH]; intros H; [reflexivity|].
  simpl. rewrite (H a) by apply list_elem_of_here.
  destruct (is_alive g a); simpl; rewrite IH; auto;
    intros x Hx; apply H; now apply list_elem_of_further.
Qed.

Lemma live_destroy_out g b l : b ∉ l -> live (modify b destroy g) l = live g l.
Proof.
  intros Hout. apply live_ext. intros x Hx. rewrite is_alive_destroy.
  destruct (Nat.eqb_spec x b) as [->|_]; [contradiction|].
  now rewrite andb_true_r.
Qed.

Lemma live_destroy_in g b l :
  NoDup l -> b ∈ l -> is_alive g b = true ->
  (live (modify b destroy g) l + 1 = live g l)%nat.
Proof.
  intros ND Hin Hb. induction l as [|a l IH]; [now apply elem_of_nil in Hin|].
  apply NoDup_cons in ND. destruct ND as [Ha ND].
  destruct (Nat.eq_dec a b) as [->|Hne].
  - unfold live. simpl. rewrite is_alive_destroy, Nat.eqb_refl, andb_false_r, Hb.
    simpl. fold (live (modify b destroy g) l) (live g l).
    rewrite (live_destroy_out g b l Ha). lia.
  - apply elem_of_cons in Hin. destruct Hin as [->|Hin]; [congruence|].
    specialize (IH ND Hin). unfold live in *. simpl.
    rewrite is_alive_destroy.
    destruct (Nat.eqb_spec a b) as [->|_]; [congruence|].
    rewrite andb_true_r. destruct (is_alive g a); simpl; lia.
Qed.


(** What one pass of the bullet loop does: nothing, or one hit. *)
Lemma bullets_loop_cases r bs sc g :
  bullets_loop r bs sc g = (sc, g)
  \/ exists b, b ∈ bs /\ is_alive g b = true
                /\ bullets_loop r bs sc g
                   = (sc + 1, modify b destroy (modify r destroy g)).
Proof.
  induction bs as [|b bs IH]; [now left|]. simpl.
  destruct (is_alive g b) eqn:Hb; simpl.
  - destruct (Rect.colliderect (rect_of g b) (rect_of g r)).
    + right. exists b. split; [apply list_elem_of_here|]. split; [exact Hb|reflexivity].
    + destruct IH as [IH|(b' & Hin & Hb' & IH)]; [now left|].
      right. exists b'. split; [now apply list_elem_of_further|]. now split.
  - destruct IH as [IH|(b' & Hin & Hb' & IH)]; [now left|].
    right. exists b'. split; [now apply list_elem_of_further|]. now split.
Qed.

Lemma rock_body_effect p bs r sc g :
  NoDup bs -> r ∉ bs ->
  exists k, fst (rock_body p bs r sc g) = sc + Z.of_nat k
            /\ body_effect p bs r k g (snd (rock_body p bs r sc g)).
Proof.
  intros ND Hr. unfold rock_body, touches.
  destruct (is_alive g r) eqn:Hal; simpl.
  2:{ exists 0%nat. split; [simpl; lia|].
      split; [lia|lia|now rewrite andb_true_r|discriminate|reflexivity
             |reflexivity|reflexivity|auto|].
      cbn [snd]. unfold touches, marked. rewrite Hal. cbn [andb].
      now rewrite set_heap_id. }
  set (lost := Rect.colliderect (rect_of g r) (rect_of g p)).
  set (g1 := if lost then game_over "You Lose!" g else g).
  assert (Hh : heap g1 = heap g) by (unfold g1; now destruct lost).
  assert (Ha : forall x, is_alive g1 x = is_alive g x)
    by (intros x; unfold is_alive; now rewrite Hh).
  assert (Hre : forall x, rect_of g1 x = rect_of g x)
    by (intros x; unfold rect_of; now rewrite Hh).
  assert (Hl : forall l, live g1 l = live g l)
    by (intros l; apply live_ext; intros x _; apply Ha).
  assert (Hg1 : forall hp, set_heap hp g1 = set_heap hp (marked lost g))
    by (intros hp; unfold g1, marked; reflexivity).
  destruct (bullets_loop_cases r bs sc g1) as [E|(b & Hin & Hb & E)]; rewrite E;
    cbn [fst snd].
  - exists 0%nat. split; [simpl; lia|]. split.
    + lia.
    + rewrite Hl. lia.
    + now rewrite Ha, Hal.
    + discriminate.
    + intros x _ _. now rewrite Hh.
    + exact Hre.
    + now rewrite Hh.
    + intros x. now rewrite Ha.
    + change (touches g p r) with (is_alive g r && lost).
      rewrite Hal. cbn [andb]. unfold marked. subst g1.
      destruct lost; now rewrite set_heap_id.
  - assert (Hbr : b <> r) by (intros ->; contradiction).
    exists 1%nat. split; [simpl; lia|]. split.
    + lia.
    + rewrite <- (Hl bs).
      rewrite <- (live_destroy_out g1 r bs Hr).
      apply live_destroy_in; [exact ND|exact Hin|].
      rewrite is_alive_destroy, Hb.
      destruct (Nat.eqb_spec b r); [contradiction|reflexivity].
    + rewrite !is_alive_destroy, Nat.eqb_refl. cbn [negb Nat.eqb].
      rewrite !andb_false_r. reflexivity.
    + intros _. exact Hal.
    + intros x Hx Hxb. rewrite !lookup_destroy_ne, Hh; auto.
      intros ->. contradiction.
    + intros x. now rewrite !rect_of_destroy, Hre.
    + now rewrite !length_destroy, Hh.
    + intros x. rewrite !is_alive_destroy, Ha.
      intros H. now destruct (is_alive g x).
    + change (touches g p r) with (is_alive g r && lost).
      rewrite Hal. cbn [andb]. unfold modify, marked. subst g1.
      destruct lost; reflexivity.
Qed.

Lemma touches_ext g g' p r :
  heap g' !! r = heap g !! r -> rect_of g' p = rect_of g p ->
  touches g' p r = touches g p r.
Proof.
  intros Hr Hp. unfold touches, is_alive. rewrite Hp.
  unfold rect_of. now rewrite Hr.
Qed.

Lemma existsb_touches_ext g g' p l :
  (forall x, x ∈ l -> heap g' !! x = heap g !! x) ->
  rect_of g' p = rect_of g p ->
  existsb (touches g' p) l = existsb (touches g p) l.
Proof.
  intros H Hp. induction l as [|a l IH]; [reflexivity|]. simpl.
  rewrite (touches_ext g g' p a) by (auto using list_elem_of_here).
  rewrite IH; [reflexivity|]. intros x Hx. apply H.
  now apply list_elem_of_further.
Qed.

Lemma marked_marked hp hp' (a c : bool) g :
  set_heap hp' (marked c (set_heap hp (marked a g)))
  = set_heap hp' (marked (a || c) g).
Proof. destruct a, c; reflexivity. Qed.

Lemma rocks_loop_effect p bs :
  NoDup bs ->
  forall rs sc g,
    NoDup rs -> (forall x, x ∈ rs -> x ∉ bs) ->
    exists k, fst (rocks_loop p bs rs sc g) = sc + Z.of_nat k
              /\ loop_effect p bs rs k g (snd (rocks_loop p bs rs sc g)).
Proof.
  intros NDb. induction rs as [|r rest IH]; intros sc g ND Hdis.
  - exists 0%nat. split; [simpl; lia|].
    split; simpl; try reflexivity; try lia; auto.
    unfold marked. now rewrite set_heap_id.
  - apply NoDup_cons in ND. destruct ND as [Hr ND].
    assert (Hrb : r ∉ bs) by (apply Hdis, list_elem_of_here).
    assert (Hdis' : forall x, x ∈ rest -> x ∉ bs)
      by (intros x Hx; apply Hdis; now apply list_elem_of_further).
    destruct (rock_body_effect p bs r sc g NDb Hrb) as (k1 & Hs1 & B).
    cbn [rocks_loop].
    destruct (rock_body p bs r sc g) as [sc1 g1]. cbn [fst snd] in Hs1, B.
    destruct (IH sc1 g1 ND Hdis') as (k2 & Hs2 & L).
    destruct (rocks_loop p bs rest sc1 g1) as [sc2 g2]. cbn [fst snd] in *.
    destruct B as [Bk Bb Br Bh Bo Bre Bl Bd Bg].
    destruct L as [Lb Lr Lo Lre Ll Ld Lg].
    assert (Hrest : forall x, x ∈ rest -> heap g1 !! x = heap g !! x).
    { intros x Hx. apply Bo; [intros ->; contradiction|now apply Hdis']. }
    assert (Hr2 : is_alive g2 r = is_alive g1 r).
    { unfold is_alive. now rewrite (Lo r Hr Hrb). }
    exists (k1 + k2)%nat. split; [lia|]. split.
    + lia.
    + assert (E1 : live g1 rest = live g rest).
      { apply live_ext. intros x Hx. unfold is_alive. now rewrite Hrest. }
      unfold live in *. simpl. rewrite Hr2, Br.
      destruct (is_alive g r) eqn:Hal; simpl.
      * destruct k1 as [|[|k1]]; simpl; lia.
      * assert (k1 = 0)%nat by (destruct k1 as [|[|?]]; [lia| |lia];
                                 specialize (Bh eq_refl); congruence).
        lia.
    + intros x Hx Hxb. rewrite not_elem_of_cons in Hx. destruct Hx as [Hxr Hx].
      rewrite Lo, Bo; auto.
    + intros x. now rewrite Lre, Bre.
    + now rewrite Ll, Bl.
    + intros x H. apply Bd, Ld, H.
    + rewrite Lg at 1.
      rewrite (existsb_touches_ext g g1 p rest Hrest (Bre p)).
      rewrite Bg at 1. cbn [existsb]. apply marked_marked.
Qed.

End Loops.

(** ** example.py: what [setup], [shoot] and [step] keep and count *)

Section Example.
Variable image_load : string -> option Surface.
Variable smoothscale : Surface -> Z * Z -> option Surface.
Implicit Types (g : ExGame) (u : Globals) (p r b x : ref) (bs rs l : list ref).

Lemma fresh_not_in (n : nat) l : Forall (fun r => (r < n)%nat) l -> n ∉ l.
Proof.
  intros H Hin. rewrite Forall_forall in H. specialize (H n Hin). lia.
Qed.

Lemma Forall_lt_S (n : nat) l :
  Forall (fun r => (r < n)%nat) l -> Forall (fun r => (r < S n)%nat) l.
Proof. intros H. eapply Forall_impl; [exact H|]. simpl. intros. lia. Qed.

Lemma is_alive_old {Cb U : Type} (g g' : @Game Cb U) s x :
  heap g' = heap g ++ [s] -> (x < length (heap g))%nat ->
  is_alive g' x = is_alive g x /\ rect_of g' x = rect_of g x
  /\ heap g' !! x = heap g !! x.
Proof.
  intros E Hx. unfold is_alive, rect_of. rewrite E, lookup_app_l by exact Hx.
  auto.
Qed.

Lemma live_old g g' s l :
  heap g' = heap g ++ [s] -> Forall (fun r => (r < length (heap g))%nat) l ->
  live g' l = live g l.
Proof.
  intros E H. apply live_ext. intros x Hx. rewrite Forall_forall in H.
  now destruct (is_alive_old g g' s x E (H x Hx)).
Qed.

Lemma live_app g l1 l2 : live g (l1 ++ l2) = (live g l1 + live g l2)%nat.
Proof. unfold live. now rewrite List.filter_app, length_app. Qed.

(** The state in which the collision loops of [step] start, and the
    rocks they run over. *)
Lemma step_unfold randint dt g u :
  user g = Some u ->
  let spawn := Qleb 1 (fadd (timer u) dt) in
  let rock := GameSprite_init None (Rect.mk randint (-30) 26 26)
                (180, 180, 180) (0, 170)%Q (Some 6%Q) in
  let n := length (heap g) in
  let g1 := if spawn
            then set_sprites (_sprites g ++ [n]) (set_heap (heap g ++ [rock]) g)
            else g in
  let rs := if spawn then rocks u ++ [n] else rocks u in
  let res := rocks_loop (player u) (bullets u) rs (score u) g1 in
  step image_load smoothscale randint dt g
  = Some (set_user
            (Some {| player := player u; bullets := bullets u; rocks := rs;
                     score := fst res;
                     timer := if spawn then 0%Q else fadd (timer u) dt |})
            (write (String.append "Score: " (str (fst res))) 10 10 24
               (snd res))).
Proof.
  intros Hu. cbv zeta. unfold step. rewrite Hu.
  destruct (Qleb 1 (fadd (timer u) dt)).
  - cbn [sprite truthy].
    destruct (rocks_loop (player u) (bullets u) (rocks u ++ [length (heap g)])
                (score u) _) as [sc g2]. reflexivity.
  - destruct (rocks_loop (player u) (bullets u) (rocks u) (score u) g)
      as [sc g2]. reflexivity.
Qed.

Lemma consistent_facts g u :
  consistent g u ->
  NoDup (rocks u) /\ NoDup (bullets u)
  /\ (forall x, x ∈ rocks u -> x ∉ bullets u)
  /\ (player u ∉ rocks u) /\ (player u ∉ bullets u)
  /\ Forall (fun r => (r < length (heap g))%nat) (rocks u)
  /\ Forall (fun r => (r < length (heap g))%nat) (bullets u).
Proof.
  intros (_ & _ & Hlt & ND). apply NoDup_cons in ND. destruct ND as [Hp ND].
  apply NoDup_app in ND. destruct ND as (NDr & Hdis & NDb).
  apply Forall_app in Hlt. destruct Hlt as [Hr Hb].
  rewrite elem_of_app in Hp.
  repeat split; auto.
Qed.

Lemma NoDup_new_rock p rs bs (n : nat) :
  NoDup (p :: rs ++ bs) -> n <> p -> n ∉ rs ++ bs ->
  NoDup (p :: (rs ++ [n]) ++ bs).
Proof.
  intros ND Hp Hn.
  assert (E : p :: (rs ++ [n]) ++ bs ≡ₚ n :: p :: rs ++ bs).
  { rewrite <- app_assoc. cbn [app].
    rewrite <- (Permutation_middle rs bs n). apply perm_swap. }
  rewrite E. apply NoDup_cons. split; [|exact ND].
  rewrite not_elem_of_cons. auto.
Qed.

Lemma NoDup_new_bullet p rs bs (n : nat) :
  NoDup (p :: rs ++ bs) -> n <> p -> n ∉ rs ++ bs ->
  NoDup (p :: rs ++ bs ++ [n]).
Proof.
  intros ND Hp Hn.
  assert (E : p :: rs ++ bs ++ [n] ≡ₚ n :: p :: rs ++ bs).
  { rewrite app_assoc.
    change (p :: (rs ++ bs) ++ [n]) with ((p :: rs ++ bs) ++ [n]).
    symmetry. apply Permutation_cons_append. }
  rewrite E. apply NoDup_cons. split; [|exact ND].
  rewrite not_elem_of_cons. auto.
Qed.

Lemma consistent_setup g :
  consistent (setup image_load smoothscale g)
    {| player := length (heap g); bullets := []; rocks := [];
       score := 0; timer := 0 |}.
Proof.
  unfold consistent, setup. cbn [sprite truthy].
  unfold control_arrows, on_game_update, modify. cbn.
  rewrite length_alter, length_app. cbn [length].
  split; [reflexivity|]. split; [lia|]. split; [constructor|].
  apply NoDup_singleton.
Qed.

Lemma consistent_shoot g u :
  consistent g u ->
  exists g',
    shoot image_load smoothscale g = Some g'
    /\ consistent g' {| player := player u;
                        bullets := bullets u ++ [length (heap g)];
                        rocks := rocks u; score := score u;
                        timer := timer u |}
    /\ length (heap g') = S (length (heap g)).
Proof.
  intros (Hu & Hp & Hlt & ND). unfold shoot, projectile_from. rewrite Hu.
  cbn [sprite truthy]. eexists. split; [reflexivity|].
  unfold consistent. cbn. rewrite length_app. cbn [length].
  replace (length (heap g) + 1)%nat with (S (length (heap g))) by lia.
  split; [|reflexivity].
  split; [reflexivity|]. split; [lia|]. split.
  - rewrite app_assoc. apply Forall_app. split.
    + now apply Forall_lt_S.
    + constructor; [lia|constructor].
  - apply NoDup_new_bullet; [exact ND|lia|now apply fresh_not_in].
Qed.

(** The collision loops of [step], under the consistency of the globals. *)
Lemma step_effect randint dt g u :
  consistent g u ->
  let spawn := Qleb 1 (fadd (timer u) dt) in
  let rock := GameSprite_init None (Rect.mk randint (-30) 26 26)
                (180, 180, 180) (0, 170)%Q (Some 6%Q) in
  let n := length (heap g) in
  let g1 := if spawn
            then set_sprites (_sprites g ++ [n]) (set_heap (heap g ++ [rock]) g)
            else g in
  let rs := if spawn then rocks u ++ [n] else rocks u in
  let res := rocks_loop (player u) (bullets u) rs (score u) g1 in
  exists k, fst res = score u + Z.of_nat k
            /\ loop_effect (player u) (bullets u) rs k g1 (snd res).
Proof.
  intros C. cbv zeta.
  destruct (consistent_facts g u C) as (NDr & NDb & Hdis & Hpr & Hpb & Hr & Hb).
  apply rocks_loop_effect; [exact NDb| |].
  - destruct (Qleb 1 (fadd (timer u) dt)); [|exact NDr].
    apply NoDup_app. split; [exact NDr|]. split; [|apply NoDup_singleton].
    intros x Hx Hn. apply list_elem_of_singleton in Hn. subst x.
    now apply (fresh_not_in _ _ Hr).
  - destruct (Qleb 1 (fadd (timer u) dt)); [|exact Hdis].
    intros x Hx. apply elem_of_app in Hx. destruct Hx as [Hx|Hx]; [now apply Hdis|].
    apply list_elem_of_singleton in Hx. subst x. now apply fresh_not_in.
Qed.

Lemma consistent_step randint dt g u :
  consistent g u ->
  exists g' u',
    step image_load smoothscale randint dt g = Some g'
    /\ consistent g' u'
    /\ player u' = player u /\ bullets u' = bullets u
    /\ (length (heap g) <= length (heap g'))%nat.
Proof.
  intros C. pose proof C as (Hu & Hp & Hlt & ND).
  rewrite (step_unfold randint dt g u Hu).
  destruct (step_effect randint dt g u C) as (k & _ & L). cbv zeta in L.
  destruct L as [_ _ _ _ Ll _ _].
  destruct (Qleb 1 (fadd (timer u) dt)); eexists; eexists;
    (split; [reflexivity|]); unfold consistent;
    cbn [user set_user write heap set_text_commands player bullets rocks];
    rewrite Ll; clear Ll; cbn [heap set_sprites set_heap].
  - rewrite length_app. cbn [length].
    replace (length (heap g) + 1)%nat with (S (length (heap g))) by lia.
    split; [split; [reflexivity|]|].
    + cbn [player rocks bullets]. split; [lia|]. split.
      * rewrite <- app_assoc. cbn [app].
        apply Forall_app in Hlt. destruct Hlt as [Hr Hb].
        apply Forall_app. split; [now apply Forall_lt_S|].
        constructor; [lia|now apply Forall_lt_S].
      * apply NoDup_new_rock; [exact ND|lia|now apply fresh_not_in].
    + cbn [player bullets]. split; [reflexivity|split; [reflexivity|lia]].
  - split; [split; [reflexivity|]|].
    + cbn [player rocks bullets]. split; [exact Hp|]. split; [exact Hlt|exact ND].
    + cbn [player bullets]. split; [reflexivity|split; [reflexivity|lia]].
Qed.

Lemma live_same_heap g g' l : heap g' = heap g -> live g' l = live g l.
Proof.
  intros E. apply live_ext. intros x _. unfold is_alive. now rewrite E.
Qed.

Lemma consistent_same_shape g g' u :
  user g' = user g -> length (heap g') = length (heap g) ->
  consistent g u -> consistent g' u.
Proof.
  intros Hu Hl (H1 & H2 & H3 & H4). unfold consistent.
  rewrite Hu, Hl. auto.
Qed.

(** X26.  The globals of the example stay consistent: after [setup],
    and then after any [shoot], [step], arrow handler or physics pass, the
    player, the rocks and the bullets are distinct objects that exist, no
    object being listed twice; [shoot] and [step] do not raise
    [NameError] once [setup] has run. *)
Theorem X26_example_globals_stay_consistent g :
  (exists u, consistent (setup image_load smoothscale g) u)
  /\ (forall u, consistent g u ->
        (exists g' u', shoot image_load smoothscale g = Some g'
                       /\ consistent g' u')
        /\ (forall randint dt,
              exists g' u', step image_load smoothscale randint dt g = Some g'
                            /\ consistent g' u')
        /\ (forall spr bounds dt, consistent (arrow_handler spr bounds dt g) u)
        /\ (forall sqrt width height dt,
              consistent (physics_pass sqrt width height dt g) u)).
Proof.
  split; [eexists; apply consistent_setup|].
  intros u C. split; [|split; [|split]].
  - destruct (consistent_shoot g u C) as (g' & E & C' & _). eauto.
  - intros randint dt.
    destruct (consistent_step randint dt g u C) as (g' & u' & E & C' & _).
    eauto.
  - intros spr bounds dt. apply (consistent_same_shape g); [| |exact C].
    + unfold arrow_handler. now destruct (heap g !! spr).
    + unfold arrow_handler. destruct (heap g !! spr); [|reflexivity].
      unfold modify. cbn [heap set_heap]. apply length_alter.
  - intros sqrt width height dt. apply (consistent_same_shape g); [| |exact C].
    + unfold physics_pass.
      destruct (physics_loop_shape sqrt dt width height (_sprites g) g)
        as (hp & l & E).
      now rewrite E.
    + apply physics_loop_length.
Qed.

(** X27.  [step] scores one point for each hit, and each hit costs one
    live bullet and one live rock: when [k] points are added to the score,
    exactly [k] bullets and [k] rocks that were alive are dead afterwards
    (the rock spawned by this step counted among the live ones).  The
    player object is not written, no dead sprite comes back to life, and
    the new score is what is written on the screen. *)
Theorem X27_each_point_costs_a_bullet_and_a_rock randint dt g u :
  consistent g u ->
  exists g' u' (k : nat),
    step image_load smoothscale randint dt g = Some g'
    /\ user g' = Some u'
    /\ score u' = score u + Z.of_nat k
    /\ (live g' (bullets u') + k = live g (bullets u))%nat
    /\ (live g' (rocks u') + k
        = live g (rocks u) + (if Qleb 1 (fadd (timer u) dt) then 1 else 0))%nat
    /\ heap g' !! player u = heap g !! player u
    /\ (forall x, (x < length (heap g))%nat -> is_alive g x = false ->
                  is_alive g' x = false)
    /\ _text_commands g'
       = _text_commands g
         ++ [(String.append "Score: " (str (score u')), 10, 10, 24)].
Proof.
  intros C. pose proof C as (Hu & Hp & Hlt & ND).
  destruct (consistent_facts g u C) as (NDr & NDb & Hdis & Hpr & Hpb & Hr & Hb).
  rewrite (step_unfold randint dt g u Hu).
  destruct (step_effect randint dt g u C) as (k & Hs & L). cbv zeta in Hs, L.
  cbv zeta.
  destruct (Qleb 1 (fadd (timer u) dt)).
  - set (rock := GameSprite_init None (Rect.mk randint (-30) 26 26)
                   (180, 180, 180) (0, 170)%Q (Some 6%Q)) in *.
    set (g1 := set_sprites (_sprites g ++ [length (heap g)])
                 (set_heap (heap g ++ [rock]) g)) in *.
    assert (E1 : heap g1 = heap g ++ [rock]) by reflexivity.
    destruct (rocks_loop (player u) (bullets u) (rocks u ++ [length (heap g)])
                (score u) g1) as [sc g2].
    cbn [fst snd] in *. destruct L as [Lb Lr Lo Lre Ll Ld Lg].
    eexists. eexists. exists k. split; [reflexivity|]. split; [reflexivity|].
    cbn [score bullets rocks player].
    split; [exact Hs|]. split; [|split; [|split; [|split]]].
    + rewrite (live_same_heap g2) by reflexivity.
      rewrite Lb. apply (live_old g g1 rock _ E1 Hb).
    + rewrite (live_same_heap g2) by reflexivity.
      rewrite Lr, live_app. rewrite (live_old g g1 rock _ E1 Hr).
      f_equal. unfold live, is_alive. cbn [List.filter]. rewrite E1.
      rewrite lookup_app_r, Nat.sub_diag by lia. reflexivity.
    + cbn [heap set_user write set_text_commands].
      rewrite Lo; [now rewrite E1, lookup_app_l by exact Hp|..|exact Hpb].
      rewrite not_elem_of_app. split; [exact Hpr|].
      rewrite list_elem_of_singleton. lia.
    + intros x Hx Hd.
      apply not_true_is_false. intros Hal.
      apply (Ld x) in Hal.
      destruct (is_alive_old g g1 rock x E1 Hx) as (Ha & _). congruence.
    + cbn [_text_commands set_user write set_text_commands]. f_equal.
      rewrite Lg. unfold marked. now destruct (existsb _ _).
  - destruct (rocks_loop (player u) (bullets u) (rocks u) (score u) g)
      as [sc g2].
    cbn [fst snd] in *. destruct L as [Lb Lr Lo Lre Ll Ld Lg].
    eexists. eexists. exists k. split; [reflexivity|]. split; [reflexivity|].
    cbn [score bullets rocks player].
    split; [exact Hs|]. split; [|split; [|split; [|split]]].
    + rewrite (live_same_heap g2) by reflexivity. exact Lb.
    + rewrite (live_same_heap g2) by reflexivity. rewrite Lr. lia.
    + cbn [heap set_user write set_text_commands]. now apply Lo.
    + intros x Hx Hd.
      apply not_true_is_false. intros Hal.
      apply (Ld x) in Hal. congruence.
    + cbn [_text_commands set_user write set_text_commands]. f_equal.
      rewrite Lg. unfold marked. now destruct (existsb _ _).
Qed.

(** X28.  [step] declares the game lost exactly when a live rock touches
    the player: the rocks alive when the step begins, and the rock the
    step has just spawned.  The bullets play no part: a rock that is shot
    in the same step still loses the game, since the player is tested
    before the bullets.  When no rock touches, flag and message are as
    before. *)
Theorem X28_game_over_when_a_live_rock_touches_the_player randint dt g u :
  consistent g u ->
  let lost := existsb (touches g (player u)) (rocks u)
              || Qleb 1 (fadd (timer u) dt)
                 && Rect.colliderect (Rect.mk randint (-30) 26 26)
                      (rect_of g (player u)) in
  exists g',
    step image_load smoothscale randint dt g = Some g'
    /\ _game_over_flag g' = _game_over_flag g || lost
    /\ _game_over_msg g'
       = (if lost then "You Lose!"%string else _game_over_msg g).
Proof.
  intros C. pose proof C as (Hu & Hp & Hlt & ND).
  destruct (consistent_facts g u C) as (NDr & NDb & Hdis & Hpr & Hpb & Hr & Hb).
  rewrite (step_unfold randint dt g u Hu).
  destruct (step_effect randint dt g u C) as (k & Hs & L). cbv zeta in Hs, L.
  cbv zeta.
  destruct (Qleb 1 (fadd (timer u) dt)).
  - set (rock := GameSprite_init None (Rect.mk randint (-30) 26 26)
                   (180, 180, 180) (0, 170)%Q (Some 6%Q)) in *.
    set (g1 := set_sprites (_sprites g ++ [length (heap g)])
                 (set_heap (heap g ++ [rock]) g)) in *.
    assert (E1 : heap g1 = heap g ++ [rock]) by reflexivity.
    destruct (rocks_loop (player u) (bullets u) (rocks u ++ [length (heap g)])
                (score u) g1) as [sc g2].
    cbn [fst snd] in *. destruct L as [_ _ _ _ _ _ Lg].
    eexists. split; [reflexivity|].
    cbn [_game_over_flag _game_over_msg set_user write set_text_commands].
    assert (Hb' : existsb (touches g1 (player u)) (rocks u ++ [length (heap g)])
                  = existsb (touches g (player u)) (rocks u)
                    || Rect.colliderect (Rect.mk randint (-30) 26 26)
                         (rect_of g (player u))).
    { destruct (is_alive_old g g1 rock (player u) E1 Hp) as (_ & Hrp & _).
      rewrite existsb_app. f_equal.
      - apply existsb_touches_ext; [|exact Hrp].
        intros x Hx. rewrite Forall_forall in Hr.
        now destruct (is_alive_old g g1 rock x E1 (Hr x Hx)).
      - cbn [existsb]. rewrite orb_false_r. unfold touches. rewrite Hrp.
        unfold is_alive, rect_of. rewrite E1.
        rewrite lookup_app_r, Nat.sub_diag by lia. reflexivity. }
    rewrite Hb' in Lg. cbn [andb]. rewrite Lg. unfold marked.
    destruct (_ || _); [split; [now rewrite orb_true_r|reflexivity]|].
    split; [now rewrite orb_false_r|reflexivity].
  - destruct (rocks_loop (player u) (bullets u) (rocks u) (score u) g)
      as [sc g2].
    cbn [fst snd] in *. destruct L as [_ _ _ _ _ _ Lg].
    eexists. split; [reflexivity|].
    cbn [_game_over_flag _game_over_msg set_user write set_text_commands].
    cbn [andb]. rewrite orb_false_r. rewrite Lg. unfold marked.
    destruct (existsb _ _); [split; [now rewrite orb_true_r|reflexivity]|].
    split; [now rewrite orb_false_r|reflexivity].
Qed.

(** X29.  Restarting the example registers one more arrow handler: the
    restart empties the sprite registry but keeps the handlers, and
    [setup] calls [control_arrows] again for the new player.  After the
    restart the registry holds the new player only, the globals are reset
    and consistent, the game-over flag is cleared, and the handlers of the
    earlier games are all still registered, before the new one. *)
Theorem X29_restart_adds_another_arrow_handler (fuel : nat) g :
  _game_start_handlers g = [Setup] ->
  let p := length (heap g) in
  exists g',
    restart (call0 image_load smoothscale) (S fuel) g
    = Ret (g', [EvStart Setup])
    /\ _game_update_handlers g'
       = _game_update_handlers g
         ++ [ArrowHandler p (Some (0, 0, 640, 480)%Q)]
    /\ _sprites g' = [p]
    /\ consistent g' {| player := p; bullets := []; rocks := [];
                        score := 0; timer := 0 |}
    /\ _game_over_flag g' = false
    /\ _key_handlers g' = _key_handlers g.
Proof.
  intros Hh p. unfold restart, run_start_handlers.
  assert (H0 : _game_start_handlers (reset_state g) !! 0%nat = Some Setup)
    by (cbn; now rewrite Hh).
  rewrite (for_live_step _ _ fuel 0 (reset_state g) Setup H0).
  unfold andthen at 1, invoke at 1. cbn [bind call0].
  rewrite for_live_done by (cbn; now rewrite Hh).
  cbn [bind app]. eexists. split; [reflexivity|].
  split; [reflexivity|]. split; [reflexivity|].
  split; [apply (consistent_setup (reset_state g))|].
  split; reflexivity.
Qed.

End Example.

Lemma battle_game_consistent : consistent battle_game battle_globals.
Proof.
  split; [vm_compute; reflexivity|].
  split; [vm_compute; lia|].
  split.
  - repeat constructor; vm_compute; lia.
  - apply NoDup_ListNoDup. repeat constructor; simpl; lia.
Qed.

(** The new game is consistent, and stays so after a shot. *)
Lemma X26_witness :
  (exists u, consistent new_game u)
  /\ (exists g' u', shoot demo_image_load demo_smoothscale battle_game = Some g'
                    /\ consistent g' u').
Proof.
  split.
  - exact (proj1 (X26_example_globals_stay_consistent demo_image_load
                    demo_smoothscale (registered named_key_code (initial None)))).
  - exact (proj1 (proj2 (X26_example_globals_stay_consistent demo_image_load
                           demo_smoothscale battle_game)
                    battle_globals battle_game_consistent)).
Defined.

(** The rock is on the bullet: one point, one bullet and one rock less. *)
Lemma X27_witness :
  consistent battle_game battle_globals
  /\ live battle_game (bullets battle_globals) = 1%nat
  /\ live battle_game (rocks battle_globals) = 1%nat
  /\ match step demo_image_load demo_smoothscale 200 (1 # 2) battle_game with
     | Some g' =>
         match user g' with
         | Some u' => score u' = 1 /\ live g' (bullets u') = 0%nat
                      /\ live g' (rocks u') = 0%nat
         | None => False
         end
     | None => False
     end
  /\ exists g' u' (k : nat),
       step demo_image_load demo_smoothscale 200 (1 # 2) battle_game = Some g'
       /\ user g' = Some u'
       /\ score u' = score battle_globals + Z.of_nat k
       /\ (live g' (bullets u') + k
           = live battle_game (bullets battle_globals))%nat.
Proof.
  split; [exact battle_game_consistent|].
  split; [vm_compute; reflexivity|]. split; [vm_compute; reflexivity|].
  split; [vm_compute; auto|].
  destruct (X27_each_point_costs_a_bullet_and_a_rock demo_image_load
              demo_smoothscale 200 (1 # 2) battle_game battle_globals
              battle_game_consistent)
    as (g' & u' & k & E & Hu & Hs & Hb & _).
  exists g', u', k. auto.
Defined.

(** The rock is on the player too: the game is lost in the same step. *)
Lemma X28_witness :
  consistent battle_game battle_globals
  /\ existsb (touches battle_game (player battle_globals))
       (rocks battle_globals) = true
  /\ _game_over_flag battle_game = false
  /\ exists g',
       step demo_image_load demo_smoothscale 200 (1 # 2) battle_game = Some g'
       /\ _game_over_flag g' = true
       /\ _game_over_msg g' = "You Lose!"%string.
Proof.
  split; [exact battle_game_consistent|].
  split; [vm_compute; reflexivity|]. split; [vm_compute; reflexivity|].
  destruct (X28_game_over_when_a_live_rock_touches_the_player demo_image_load
              demo_smoothscale 200 (1 # 2) battle_game battle_globals
              battle_game_consistent)
    as (g' & E & Hf & Hm).
  exists g'. split; [exact E|]. split.
  - rewrite Hf. vm_compute. reflexivity.
  - rewrite Hm. vm_compute. reflexivity.
Defined.

(** The lost game restarted: a second arrow handler, for the new player. *)
Lemma X29_witness :
  _game_start_handlers lost_battle = [Setup]
  /\ _game_update_handlers lost_battle
     = [UserFn Step; ArrowHandler 0%nat (Some (0, 0, 640, 480)%Q)]
  /\ exists g',
       restart (call0 demo_image_load demo_smoothscale) 1 lost_battle
       = Ret (g', [EvStart Setup])
       /\ _game_update_handlers g'
          = [UserFn Step; ArrowHandler 0%nat (Some (0, 0, 640, 480)%Q);
             ArrowHandler 3%nat (Some (0, 0, 640, 480)%Q)]
       /\ _sprites g' = [3%nat].
Proof.
  assert (Hh : _game_start_handlers lost_battle = [Setup])
    by (vm_compute; reflexivity).
  split; [exact Hh|]. split; [vm_compute; reflexivity|].
  destruct (X29_restart_adds_another_arrow_handler demo_image_load
              demo_smoothscale 0 lost_battle Hh)
    as (g' & E & Hu & Hs & _).
  exists g'. split; [exact E|]. split.
  - rewrite Hu. vm_compute. reflexivity.
  - rewrite Hs. vm_compute. reflexivity.
Defined.
